(** * standalone-gdrive: directory cache and pacer

    A shallow embedding of the two core packages of the repository,

      - [lib/dircache] (bidirectional path/ID cache, [FindRoot], [FindDir]),
      - [lib/pacer] (retrying [Call] with the default calculator/invoker),
      - the context-aware [fs.Pacer.Call],

    and of the code around them: the token pool of [fs.Pacer], the
    options of [Open], [fs.Metadata], the names of [hash.Type], and the
    remote path and [Mkdir] of the [drive] backend;

    together with the properties checked against the specification.
    Go [int] and [time.Duration] are 64-bit signed integers and are
    modelled as [Z] with the wrap-around written out; Go maps are
    [gmap string string]; the backend collaborator is an interface whose
    implementation owns a state of some type [B]. *)

From Stdlib Require Import ZArith Lia Ascii String.
From stdpp Require Import base option list strings gmap relations.

Local Open Scope string_scope.
Local Open Scope list_scope.
Local Open Scope stdpp_scope.

(** ** Go's [strings] and [path/filepath] (Unix flavour)

    The repository only calls [strings.Split(s, "/")] and
    [filepath.Join]; both live in Go's standard library.  They are
    modelled from their documented behaviour: [Join] drops leading empty
    elements, joins the rest with the separator and passes the result to
    [Clean], which works on the "/"-separated elements of the path. *)
Module Path.

Definition Separator : ascii := "/"%char.

(** [strings.Split(s, "/")]: the substrings between separators; a string
    without separator (the empty string included) is returned whole. *)
Fixpoint Split (s : string) : list string :=
  match s with
  | EmptyString => [EmptyString]
  | String a r =>
      if Ascii.eqb a Separator then EmptyString :: Split r
      else match Split r with
           | h :: t => String a h :: t
           | [] => [String a EmptyString]
           end
  end.

(** [strings.Join(elems, "/")]. *)
Definition JoinSep (elems : list string) : string :=
  String.concat "/" elems.

(** One element of the path read by [Clean]; [out] is the stack of
    elements written so far, innermost first.  Empty and "." elements
    are dropped, ".." removes the last real element, is dropped at the
    root of a rooted path and is kept at the head of a relative one. *)
Definition clean_elem (rooted : bool) (out : list string) (e : string)
  : list string :=
  if decide (e = "") then out
  else if decide (e = ".") then out
  else if decide (e = "..") then
    match out with
    | [] => if rooted then [] else [".."]
    | top :: below => if decide (top = "..") then ".." :: out else below
    end
  else e :: out.

Definition is_rooted (path : string) : bool :=
  match path with
  | String a _ => Ascii.eqb a Separator
  | EmptyString => false
  end.

(** [filepath.Clean]. *)
Definition Clean (path : string) : string :=
  let rooted := is_rooted path in
  let out := rev (fold_left (clean_elem rooted) (Split path) []) in
  let body := JoinSep out in
  if rooted then String Separator body
  else if decide (body = "") then "." else body.

(** [filepath.Join]: the first non-empty element starts the path. *)
Fixpoint Join (elem : list string) : string :=
  match elem with
  | [] => ""
  | e :: rest =>
      if decide (e = "") then Join rest else Clean (JoinSep elem)
  end.

(** Whether a string holds a separator. *)
Fixpoint has_sep (s : string) : bool :=
  match s with
  | EmptyString => false
  | String a r => Ascii.eqb a Separator || has_sep r
  end.

(** A path element that names a directory: no separator in it, not
    empty, and neither "." nor "..". *)
Definition is_name (e : string) : bool :=
  negb (has_sep e)
  && bool_decide (e ≠ "") && bool_decide (e ≠ ".") && bool_decide (e ≠ "..").

(** A path made of names only, as in "dir" or "dir/dir2". *)
Definition plain (path : string) : bool := forallb is_name (Split path).

End Path.

(** ** Package [dircache] *)
Module dircache.

(** The errors the package creates, one constructor per creation site,
    and the backend's own errors, which are passed through. *)
Inductive error : Type :=
| ErrBackend (msg : string)
    (* whatever FindLeaf / CreateDir returned *)
| ErrFindRootNotCalled
    (* errors.New("internal error: FindRoot not called") *)
| ErrCouldntFindDirectory (path : string)
    (* fmt.Errorf("couldn't find directory %q", path) *)
| ErrCouldntFindParent (parentPath : string)
    (* fmt.Errorf("couldn't find parent directory: %s", parentPath) *)
| ErrFailedToMakeDirectory (dirPath : string) (cause : error)
    (* fmt.Errorf("failed to make directory %q: %w", dirPath, err) *)
| ErrLastPathNotCached
    (* errors.New("internal error: couldn't find lastPath in the cache") *)
| ErrEmptyID
    (* errors.New("can't find path for empty ID") *)
| ErrCouldntFindPath (id : string).
    (* fmt.Errorf("couldn't find path for ID %q", id) *)

(** A Go result pair [(string, error)]. *)
Inductive result : Type :=
| Ok (id : string)
| Err (e : error).

(** [type DirCacher interface]: an implementation with state [B].  Go's
    [err] is [None] for nil. *)
Record DirCacher (B : Type) : Type := {
  FindLeaf : B -> string -> string -> B * (string * bool * option error);
  CreateDir : B -> string -> string -> B * (string * option error);
}.
Arguments FindLeaf {B} _ _ _ _.
Arguments CreateDir {B} _ _ _ _.

(** [type DirCache struct], without the two locks and the backend. *)
Record DirCache : Type := {
  cache : gmap string string;
  invCache : gmap string string;
  trueRootID : string;
  root : string;
  rootID : string;
  rootParentID : string;
  foundRoot : bool;
}.

(** A backend call as the collaborator saw it, with its answer. *)
Inductive call : Type :=
| FindLeafCall (pathID leaf : string)
               (pathIDOut : string) (found : bool) (err : option error)
| CreateDirCall (pathID leaf : string)
                (newID : string) (err : option error).

Definition is_FindLeaf (c : call) : bool :=
  match c with FindLeafCall _ _ _ _ _ => true | _ => false end.

(** What a method of [*DirCache] reads and writes: the struct itself, the
    state of the backend behind [dc.fs], and the backend calls made so
    far (oldest first). *)
Record World (B : Type) : Type := {
  dc : DirCache;
  backend : B;
  calls : list call;
}.
Arguments dc {B} _.
Arguments backend {B} _.
Arguments calls {B} _.
Arguments Build_World {B} _ _ _.

(** [func New(root, rootID string, fs DirCacher) *DirCache] *)
Definition New (root rootID : string) : DirCache :=
  {| cache := ∅; invCache := ∅; trueRootID := rootID; root := root;
     rootID := rootID; rootParentID := ""; foundRoot := false |}.

(** [func (dc *DirCache) Get(path string) (id string, ok bool)] *)
Definition Get (d : DirCache) (path : string) : string * bool :=
  match cache d !! path with
  | Some id => (id, true)
  | None => ("", false)
  end.

(** [func (dc *DirCache) GetInv(id string) (path string, ok bool)] *)
Definition GetInv (d : DirCache) (id : string) : string * bool :=
  match invCache d !! id with
  | Some path => (path, true)
  | None => ("", false)
  end.

(** [func (dc *DirCache) Put(path, id string)] *)
Definition Put (d : DirCache) (path id : string) : DirCache :=
  {| cache := <[path := id]> (cache d);
     invCache := <[id := path]> (invCache d);
     trueRootID := trueRootID d; root := root d; rootID := rootID d;
     rootParentID := rootParentID d; foundRoot := foundRoot d |}.

Definition set_found (d : DirCache) (id : string) : DirCache :=
  {| cache := cache d; invCache := invCache d;
     trueRootID := trueRootID d; root := root d; rootID := id;
     rootParentID := rootParentID d; foundRoot := true |}.

(** The answer of a backend [FindLeaf] saying "no such leaf". *)
Definition not_found_call (c : call) : Prop :=
  match c with
  | FindLeafCall _ _ _ false None => True
  | _ => False
  end.

Section Methods.
Context {B : Type} (fs : DirCacher B).

Definition with_dc (w : World B) (d : DirCache) : World B :=
  Build_World d (backend w) (calls w).

(** [dc.fs.FindLeaf(ctx, pathID, leaf)], recorded. *)
Definition callFindLeaf (w : World B) (pathID leaf : string)
  : (string * bool * option error) * World B :=
  let '(b', (out, found, err)) := FindLeaf fs (backend w) pathID leaf in
  ((out, found, err),
   Build_World (dc w) b'
               (calls w ++ [FindLeafCall pathID leaf out found err])).

(** [dc.fs.CreateDir(ctx, pathID, leaf)], recorded. *)
Definition callCreateDir (w : World B) (pathID leaf : string)
  : (string * option error) * World B :=
  let '(b', (newID, err)) := CreateDir fs (backend w) pathID leaf in
  ((newID, err),
   Build_World (dc w) b'
               (calls w ++ [CreateDirCall pathID leaf newID err])).

(** First loop of [_findRoot]: [done] is [directories[:i]], [todo] is
    [directories[i:]]; returns [(parentID, foundAll)]. *)
Fixpoint findRoot_cached (d : DirCache) (done todo : list string)
         (parentID : string) : string * bool :=
  match todo with
  | [] => (parentID, true)
  | dir :: todo' =>
      if decide (dir = "") then
        findRoot_cached d (done ++ [dir]) todo' parentID
      else
        let dirPath := Path.Join (done ++ [dir]) in
        match Get d dirPath with
        | (dirID, true) => findRoot_cached d (done ++ [dir]) todo' dirID
        | (_, false) => (parentID, false)
        end
  end.

(** Second loop of [_findRoot]; returns [lastPath] or the error the
    loop returned with. *)
Fixpoint findRoot_create (done todo : list string) (lastPath : string)
         (w : World B) : result * World B :=
  match todo with
  | [] => (Ok lastPath, w)
  | dir :: todo' =>
      if decide (dir = "") then
        findRoot_create (done ++ [dir]) todo' lastPath w
      else
        let dirPath := Path.Join (done ++ [dir]) in
        match Get (dc w) dirPath with
        | (_, true) => findRoot_create (done ++ [dir]) todo' lastPath w
        | (_, false) =>
            let leaf := dir in
            let parentPath := Path.Join done in
            match Get (dc w) parentPath with
            | (_, false) => (Err (ErrCouldntFindParent parentPath), w)
            | (parentID, true) =>
                match callCreateDir w parentID leaf with
                | ((_, Some err), w1) =>
                    (Err (ErrFailedToMakeDirectory dirPath err), w1)
                | ((dirID, None), w1) =>
                    let w2 := with_dc w1 (Put (dc w1) dirPath dirID) in
                    findRoot_create (done ++ [dir]) todo' dirPath w2
                end
            end
        end
  end.

(** [func (dc *DirCache) _findRoot(ctx, root string) (string, error)] *)
Definition _findRoot (root : string) (w : World B) : result * World B :=
  if decide (root = "") then (Ok (rootID (dc w)), w)
  else
    let directories := Path.Split root in
    match findRoot_cached (dc w) [] directories (rootID (dc w)) with
    | (parentID, true) => (Ok parentID, w)
    | (_, false) =>
        match findRoot_create [] directories "" w with
        | (Err e, w1) => (Err e, w1)
        | (Ok lastPath, w1) =>
            match Get (dc w1) lastPath with
            | (id, true) => (Ok id, w1)
            | (_, false) => (Err ErrLastPathNotCached, w1)
            end
        end
    end.

(** [func (dc *DirCache) FindRoot(ctx) (string, error)] *)
Definition FindRoot (w : World B) : result * World B :=
  if foundRoot (dc w) then (Ok (rootID (dc w)), w)
  else
    match _findRoot (root (dc w)) w with
    | (Err e, w1) => (Err e, w1)
    | (Ok rootID, w1) => (Ok rootID, with_dc w1 (set_found (dc w1) rootID))
    end.

(** First loop of [FindDir]: returns [(parentID, dirPath, partsToFind)]. *)
Fixpoint findDir_cached (d : DirCache) (parts : list string)
         (parentID dirPath : string) (partsToFind : list string)
  : string * string * list string :=
  match parts with
  | [] => (parentID, dirPath, partsToFind)
  | part :: parts' =>
      let dirPath := Path.Join [dirPath; part] in
      match Get d dirPath with
      | (dirID, true) => findDir_cached d parts' dirID dirPath partsToFind
      | (_, false) =>
          findDir_cached d parts' parentID dirPath (partsToFind ++ [part])
      end
  end.

(** Second loop of [FindDir]; [path] is only used in the error. *)
Fixpoint findDir_lookup (path : string) (partsToFind : list string)
         (parentID dirPath : string) (w : World B) : result * World B :=
  match partsToFind with
  | [] => (Ok parentID, w)
  | part :: rest =>
      match callFindLeaf w parentID part with
      | ((_, _, Some err), w1) => (Err err, w1)
      | ((_, false, None), w1) => (Err (ErrCouldntFindDirectory path), w1)
      | ((dirID, true, None), w1) =>
          let dirPath := Path.Join [dirPath; part] in
          let w2 := with_dc w1 (Put (dc w1) dirPath dirID) in
          findDir_lookup path rest dirID dirPath w2
      end
  end.

(** [func (dc *DirCache) FindDir(ctx, path string) (string, error)] *)
Definition FindDir (path : string) (w : World B) : result * World B :=
  if negb (foundRoot (dc w)) then (Err ErrFindRootNotCalled, w)
  else if decide (path = "") then (Ok (rootID (dc w)), w)
  else
    let parts := Path.Split path in
    let '(parentID, dirPath, partsToFind) :=
      findDir_cached (dc w) parts (rootID (dc w)) "" [] in
    findDir_lookup path partsToFind parentID dirPath w.

(** [func (dc *DirCache) FindPath(ctx, id string) (string, error)];
    the result holds a path here. *)
Definition FindPath (id : string) (w : World B) : result * World B :=
  if decide (id = "") then (Err ErrEmptyID, w)
  else if decide (id = rootID (dc w) ∨ id = trueRootID (dc w))
       then (Ok (root (dc w)), w)
  else match GetInv (dc w) id with
       | (path, true) => (Ok path, w)
       | (_, false) => (Err (ErrCouldntFindPath id), w)
       end.

(** What one run of the second loop of [FindDir] adds to the calls:
    only [FindLeaf] calls, at least one when there is a part to find;
    and when the last of them said "no such leaf" the run ends with
    "couldn't find directory", having changed nothing if that call was
    the first. *)
Definition lookup_post (path : string) (parts : list string)
           (w w' : World B) (r : result) : Prop :=
  exists new,
    calls w' = calls w ++ new ∧
    Forall (fun c => is_FindLeaf c = true) new ∧
    (parts ≠ [] -> new ≠ []) ∧
    (forall pre c, new = pre ++ [c] -> not_found_call c ->
       r = Err (ErrCouldntFindDirectory path) ∧
       (pre = [] -> dc w' = dc w)).

End Methods.

(** The world right after [New(root, rootID, fs)]. *)
Definition fresh {B : Type} (root rootID : string) (b : B) : World B :=
  Build_World (New root rootID) b [].

(** The world after [New("", "root", fs)] and a [FindRoot], which for the
    empty root succeeds without asking the backend. *)
Definition ready {B : Type} (fs : DirCacher B) (b : B) : World B :=
  snd (FindRoot fs (fresh "" "root" b)).

End dircache.

(** ** Some backends

    Small implementations of [DirCacher] without state, used to run the
    resolvers on concrete inputs. *)
Module Backends.
Import dircache.

(** Every leaf exists under every parent; IDs spell out the path from
    the parent. *)
Definition everything : DirCacher unit :=
  {| FindLeaf := fun b pathID leaf =>
                   (b, (pathID +:+ "/" +:+ leaf, true, None));
     CreateDir := fun b pathID leaf =>
                    (b, (pathID +:+ "/" +:+ leaf, None)) |}.

(** Only the leaf "x" exists, under any parent; nothing can be made. *)
Definition only_x : DirCacher unit :=
  {| FindLeaf := fun b pathID leaf =>
                   if decide (leaf = "x") then (b, ("id-x", true, None))
                   else (b, ("", false, None));
     CreateDir := fun b pathID leaf =>
                    (b, ("", Some (ErrBackend "read-only"))) |}.

(** Nothing exists and nothing can be made. *)
Definition nothing : DirCacher unit :=
  {| FindLeaf := fun b pathID leaf => (b, ("", false, None));
     CreateDir := fun b pathID leaf =>
                    (b, ("", Some (ErrBackend "read-only"))) |}.

End Backends.

(** ** Go's fixed-width integers *)
Module Int64.

(** The value of a 64-bit signed integer after an operation whose exact
    result is [z]. *)
Definition wrap (z : Z) : Z := ((z + 2 ^ 63) mod 2 ^ 64 - 2 ^ 63)%Z.

(** [x << k] on [int64] with [k] unsigned: bits shifted out are lost. *)
Definition shl (x : Z) (k : N) : Z := wrap (Z.shiftl x (Z.of_N k)).

Definition in_range (z : Z) : Prop := (- 2 ^ 63 <= z < 2 ^ 63)%Z.

End Int64.

(** ** Package [pacer] *)
Module pacer.

(** The outcome of a call made by a single goroutine: it returns, or it
    waits on a channel nobody else will ever feed. *)
Inductive outcome (E : Type) : Type :=
| Returned (err : option E)
| Blocked.
Arguments Returned {E} _.
Arguments Blocked {E}.

Section Pacer.
(** Non-nil [error] values; Go's [nil] is [None]. *)
Context {E : Type}.

(** [type State struct] *)
Record State : Type := {
  SleepTime : Z;
  ConsecutiveRetries : Z;
  LastError : option E;
}.

(** [type DefaultCalculator struct] *)
Record DefaultCalculator : Type := {
  minSleep : Z;
  maxSleep : Z;
  decayConstant : N;
  burst : Z;
}.

(** [type Calculator interface]: the package's own implementation,
    which the options [MinSleep], [MaxSleep], [DecayConstant] and
    [Burst] recognise by a type assertion, or any other one, given by
    its [Calculate] method. *)
Inductive Calculator : Type :=
| TheDefault (c : DefaultCalculator)
| Custom (calculate : State -> Z).

(** [type Paced func() (bool, error)]: a closure over a state [S]. *)
Definition Paced (S : Type) : Type := S -> (bool * option E) * S.

(** [type InvokerFunc func(try, tries int, f Paced) (bool, error)];
    the invoker knows nothing of the closure's state. *)
Definition InvokerFunc : Type :=
  forall S : Type, Z -> Z -> Paced S -> S -> (bool * option E) * S.

(** [type pacerOptions struct] *)
Record pacerOptions : Type := {
  maxConnections : Z;
  retries : Z;
  calculator : Calculator;
  invoker : InvokerFunc;
}.

(** [type Pacer struct]: the two channels hold tokens and are modelled
    by the number of tokens in them; [mu] is taken and released in
    matching pairs and a single goroutine never waits on it. *)
Record Pacer : Type := {
  options : pacerOptions;
  pacer_chan : nat;
  connTokens : nat;
  state : State;
}.

(** [func (c *DefaultCalculator) Calculate(state State) time.Duration] *)
Definition Calculate (c : DefaultCalculator) (st : State) : Z :=
  if (ConsecutiveRetries st =? 0)%Z then 0%Z
  else if (ConsecutiveRetries st =? 1)%Z then minSleep c
  else
    let sleepTime := Int64.shl (SleepTime st) (decayConstant c) in
    let sleepTime :=
      if (sleepTime <? minSleep c)%Z then minSleep c else sleepTime in
    let sleepTime :=
      if (maxSleep c >? 0)%Z && (sleepTime >? maxSleep c)%Z
      then maxSleep c else sleepTime in
    sleepTime.

(** [p.calculator.Calculate(state)] through the interface. *)
Definition calculate (c : Calculator) (st : State) : Z :=
  match c with
  | TheDefault d => Calculate d st
  | Custom calc => calc st
  end.

(** The default backoff as the specification words it: nothing on the
    first attempt, [minSleep] after exactly one retry, and from then on
    the previous sleep time shifted left by the decay constant, raised
    to [minSleep] if smaller, and capped at [maxSleep] when [maxSleep]
    is positive. *)
Definition default_backoff (c : DefaultCalculator) (st : State) : Z :=
  match ConsecutiveRetries st with
  | 0%Z => 0%Z
  | 1%Z => minSleep c
  | _ =>
      let raised :=
        Z.max (minSleep c) (Int64.shl (SleepTime st) (decayConstant c)) in
      if (0 <? maxSleep c)%Z then Z.min raised (maxSleep c) else raised
  end.

(** [func DefaultInvoker(try, tries int, paced Paced) (bool, error)] *)
Definition DefaultInvoker : InvokerFunc :=
  fun S try tries paced s =>
    let '((again, err), s') := paced s in
    if (try >=? tries)%Z then ((false, err), s') else ((again, err), s').

(** [type Option], a function updating a [pacerOptions] in place, and
    the option constructors. *)
Definition Option : Type := pacerOptions -> pacerOptions.

Definition CalculatorOption (c : Calculator) : Option :=
  fun p => {| maxConnections := maxConnections p; retries := retries p;
              calculator := c; invoker := invoker p |}.
Definition RetriesOption (r : Z) : Option :=
  fun p => {| maxConnections := maxConnections p; retries := r;
              calculator := calculator p; invoker := invoker p |}.
Definition MaxConnectionsOption (m : Z) : Option :=
  fun p => {| maxConnections := m; retries := retries p;
              calculator := calculator p; invoker := invoker p |}.
Definition InvokerOption (i : InvokerFunc) : Option :=
  fun p => {| maxConnections := maxConnections p; retries := retries p;
              calculator := calculator p; invoker := i |}.

Definition on_default (upd : DefaultCalculator -> DefaultCalculator)
  : Option :=
  fun p => match calculator p with
           | TheDefault c =>
               {| maxConnections := maxConnections p;
                  retries := retries p;
                  calculator := TheDefault (upd c);
                  invoker := invoker p |}
           | Custom _ => p
           end.
Definition MinSleep (t : Z) : Option :=
  on_default (fun c => {| minSleep := t; maxSleep := maxSleep c;
                          decayConstant := decayConstant c;
                          burst := burst c |}).
Definition MaxSleep (t : Z) : Option :=
  on_default (fun c => {| minSleep := minSleep c; maxSleep := t;
                          decayConstant := decayConstant c;
                          burst := burst c |}).
Definition DecayConstant (t : N) : Option :=
  on_default (fun c => {| minSleep := minSleep c; maxSleep := maxSleep c;
                          decayConstant := t; burst := burst c |}).
Definition Burst (t : Z) : Option :=
  on_default (fun c => {| minSleep := minSleep c; maxSleep := maxSleep c;
                          decayConstant := decayConstant c;
                          burst := t |}).

(** [&DefaultCalculator{}] *)
Definition zeroCalculator : DefaultCalculator :=
  {| minSleep := 0; maxSleep := 0; decayConstant := 0; burst := 0 |}.

(** [func New(options ...Option) *Pacer].  [make(chan struct{}, n)]
    panics for a negative [n]: when the options leave [maxConnections]
    negative ([New_panics] below) [New] returns nothing, and the pacer
    given here, with no tokens, stands for no pacer of the code. *)
Definition New (opts : list Option) : Pacer :=
  let o := fold_left (fun o opt => opt o) opts
             {| maxConnections := 8; retries := 10;
                calculator := TheDefault zeroCalculator;
                invoker := DefaultInvoker |} in
  {| options := o; pacer_chan := 1;
     connTokens := Z.to_nat (maxConnections o);
     state := {| SleepTime := 0; ConsecutiveRetries := 0;
                 LastError := None |} |}.

(** Whether [New(options...)] panics instead of returning. *)
Definition New_panics (opts : list Option) : bool :=
  (maxConnections (options (New opts)) <? 0)%Z.

(** What [Call] reads and writes: the pacer, the state behind the
    closure [f], and the durations passed to [time.Sleep] so far. *)
Record World (S : Type) : Type := {
  pc : Pacer;
  op : S;
  slept : list Z;
}.
Arguments pc {S} _.
Arguments op {S} _.
Arguments slept {S} _.
Arguments Build_World {S} _ _ _.

Definition set_state (p : Pacer) (st : State) : Pacer :=
  {| options := options p; pacer_chan := pacer_chan p;
     connTokens := connTokens p; state := st |}.
Definition set_chans (p : Pacer) (pacerTok conn : nat) : Pacer :=
  {| options := options p; pacer_chan := pacerTok;
     connTokens := conn; state := state p |}.

(** One pass through the body of the [for] loop of [Call]. *)
Inductive iter (S : Type) : Type :=
| Return (out : outcome E) (w : World S)
| Continue (consecutiveRetries : Z) (err : option E) (w : World S).
Arguments Return {S} _ _.
Arguments Continue {S} _ _ _.

Definition Call_body {S : Type} (f : Paced S) (try consecutiveRetries : Z)
           (w : World S) : iter S :=
  let p := pc w in
  (* <-p.pacer *)
  match pacer_chan p with
  | O => Return Blocked w
  | Datatypes.S pacerTok =>
      (* <-p.connTokens *)
      match connTokens p with
      | O => Return Blocked (Build_World (set_chans p pacerTok O)
                                         (op w) (slept w))
      | Datatypes.S conn =>
          (* again, err = p.invoker(consecutiveRetries, p.retries, f) *)
          let '((again, err), s') :=
            invoker (options p) S consecutiveRetries
                    (retries (options p)) f (op w) in
          (* p.connTokens <- struct{}{} *)
          let conn := Datatypes.S conn in
          if negb again || (try >=? retries (options p))%Z then
            let st := {| SleepTime := SleepTime (state p);
                         ConsecutiveRetries := 0;
                         LastError := None |} in
            Return (Returned err)
                   (Build_World
                      (set_state (set_chans p (Datatypes.S pacerTok) conn) st)
                      s' (slept w))
          else
            let st := {| SleepTime := SleepTime (state p);
                         ConsecutiveRetries :=
                           Int64.wrap (ConsecutiveRetries (state p) + 1);
                         LastError := err |} in
            let sleepTime := calculate (calculator (options p)) st in
            let st := {| SleepTime := sleepTime;
                         ConsecutiveRetries := ConsecutiveRetries st;
                         LastError := LastError st |} in
            let consecutiveRetries :=
              if again then Int64.wrap (consecutiveRetries + 1)
              else 0%Z in
            (* time.Sleep(sleepTime); p.pacer <- struct{}{} *)
            let w' := Build_World
                        (set_state
                           (set_chans p (Datatypes.S pacerTok) conn) st)
                        s' (slept w ++ [sleepTime]) in
            if negb again then Return (Returned err) w'
            else Continue consecutiveRetries err w'
      end
  end.

(** [for try := 0; try <= p.retries; try++ { ... }; return err] with
    [left] passes to go: [try <= p.retries] holds exactly when
    [left] is not zero. *)
Fixpoint Call_loop {S : Type} (f : Paced S) (left : nat)
         (try consecutiveRetries : Z) (err : option E) (w : World S)
  : outcome E * World S :=
  match left with
  | O => (Returned err, w)
  | Datatypes.S left' =>
      match Call_body f try consecutiveRetries w with
      | Return out w' => (out, w')
      | Continue consecutiveRetries' err' w' =>
          Call_loop f left' (try + 1)%Z consecutiveRetries' err' w'
      end
  end.

(** [func (p *Pacer) Call(f Paced) error] *)
Definition Call {S : Type} (f : Paced S) (w : World S)
  : outcome E * World S :=
  Call_loop f (Z.to_nat (retries (options (pc w)) + 1)) 0 0 None w.

(** The pacer between two passes of the loop: tokens are back, only
    [state] has moved. *)
Definition idle (p p' : Pacer) : Prop :=
  options p' = options p ∧ pacer_chan p' = 1%nat
  ∧ connTokens p' = connTokens p.

(** A closure instrumented with a counter of its invocations. *)
Definition counted {S : Type} (f : Paced S) : Paced (S * nat) :=
  fun '(s, n) => let '(r, s') := f s in (r, (s', Datatypes.S n)).

(** The closure's state after [n] invocations. *)
Fixpoint after {S : Type} (f : Paced S) (n : nat) (s : S) : S :=
  match n with
  | O => s
  | Datatypes.S n' => after f n' (snd (f s))
  end.

End Pacer.

Arguments State : clear implicits.
Arguments Pacer : clear implicits.
Arguments pacerOptions : clear implicits.
Arguments World : clear implicits.
Arguments Paced : clear implicits.
Arguments pc {E S} _.
Arguments op {E S} _.
Arguments slept {E S} _.
Arguments Build_World {E S} _ _ _.
Arguments Return {E S} _ _.
Arguments Continue {E S} _ _ _.

End pacer.

(** ** Package [fs]: the context-aware pacer *)
Module fs.

(** The two places where [Call] waits in a [select]. *)
Inductive point : Type :=
| TokenWait      (* case <-ctx.Done() / case <-p.connTokens *)
| BackoffSleep.  (* case <-ctx.Done() / case <-time.After(delay) *)

Section Pacer.
Context {E : Type}.

(** [context.Context] as [Call] sees it: [done_first try pt] tells
    whether, in pass [try] of the loop, the [select] at [pt] runs its
    [<-ctx.Done()] case (the context was cancelled, or its deadline
    passed, before the other channel delivered); [Err] is what
    [ctx.Err()] then returns. *)
Record Context : Type := {
  done_first : Z -> point -> bool;
  Err : E;
}.

(** [type PacerState struct] *)
Record PacerState : Type := {
  ConsecutiveRetries : Z;
  LastError : option E;
}.

(** [type Pacer struct]; [connTokens] is the number of tokens in the
    channel. *)
Record Pacer : Type := {
  calculateDelay : PacerState -> Z;
  maxConnections : Z;
  connTokens : nat;
  retries : Z;
}.

(** [func NewPacer(ctx, calculateDelay) *Pacer] *)
Definition NewPacer (calculateDelay : PacerState -> Z) : Pacer :=
  {| calculateDelay := calculateDelay; maxConnections := 1;
     connTokens := 1; retries := 3 |}.

(** [fn func() error], a closure over a state [S]. *)
Definition Fn (S : Type) : Type := S -> option E * S.

(** The pacer, the state behind [fn], and the delays that ran to
    their end. *)
Record World (S : Type) : Type := {
  pc : Pacer;
  op : S;
  slept : list Z;
}.
Arguments pc {S} _.
Arguments op {S} _.
Arguments slept {S} _.
Arguments Build_World {S} _ _ _.

(** One pass through the loop body: it leaves [Call] ([Return]),
    leaves the loop ([Break]) or goes round again ([Continue]), each
    time with the current value of [err]. *)
Inductive iter (S : Type) : Type :=
| Return (out : pacer.outcome E) (w : World S)
| Break (err : option E) (w : World S)
| Continue (err : option E) (w : World S).
Arguments Return {S} _ _.
Arguments Break {S} _ _.
Arguments Continue {S} _ _.

Definition Call_body {S : Type} (ctx : Context) (fn : Fn S) (try : Z)
           (w : World S) : iter S :=
  let p := pc w in
  if done_first ctx try TokenWait then
    Return (pacer.Returned (Some (Err ctx))) w
  else
    match connTokens p with
    | O => Return pacer.Blocked w
    | Datatypes.S n =>
        (* err = fn(); p.connTokens <- struct{}{} *)
        let '(err, s') := fn (op w) in
        let w1 := Build_World p s' (slept w) in
        match err with
        | None => Break err w1
        | Some e =>
            if (try >=? retries p)%Z then Break err w1
            else
              let delay :=
                calculateDelay p {| ConsecutiveRetries := try;
                                    LastError := err |} in
              if done_first ctx try BackoffSleep then
                Return (pacer.Returned (Some (Err ctx))) w1
              else
                Continue err (Build_World p s' (slept w ++ [delay]))
        end
    end.

(** The [for] loop with [left] passes to go, as in [pacer.Call_loop]. *)
Fixpoint Call_loop {S : Type} (ctx : Context) (fn : Fn S) (left : nat)
         (try : Z) (err : option E) (w : World S)
  : pacer.outcome E * World S :=
  match left with
  | O => (pacer.Returned err, w)
  | Datatypes.S left' =>
      match Call_body ctx fn try w with
      | Return out w' => (out, w')
      | Break err' w' => (pacer.Returned err', w')
      | Continue err' w' => Call_loop ctx fn left' (try + 1)%Z err' w'
      end
  end.

(** [func (p *Pacer) Call(ctx context.Context, fn func() error) error] *)
Definition Call {S : Type} (ctx : Context) (fn : Fn S) (w : World S)
  : pacer.outcome E * World S :=
  Call_loop ctx fn (Z.to_nat (retries (pc w) + 1)) 0 None w.

(** [reaches ctx fn w0 try err w]: the call started in [w0] is about to
    run pass number [try] of its loop, in world [w]. *)
Inductive reaches {S : Type} (ctx : Context) (fn : Fn S) (w0 : World S)
  : Z -> option E -> World S -> Prop :=
| reaches_first :
    (0 <= retries (pc w0))%Z -> reaches ctx fn w0 0 None w0
| reaches_next try err w err' w' :
    reaches ctx fn w0 try err w ->
    Call_body ctx fn try w = Continue err' w' ->
    reaches ctx fn w0 (try + 1) err' w'.

End Pacer.

Arguments Context : clear implicits.
Arguments Pacer : clear implicits.
Arguments PacerState : clear implicits.
Arguments World : clear implicits.
Arguments Fn : clear implicits.
Arguments pc {E S} _.
Arguments op {E S} _.
Arguments slept {E S} _.
Arguments Build_World {E S} _ _ _.
Arguments Return {E S} _ _.
Arguments Break {E S} _ _.
Arguments Continue {E S} _ _.

End fs.

(** ** Goroutines inside [pacer.Call]

    Several goroutines may be inside [pacer.Call] on one pacer.  What
    they do to each other goes through [p.mu] and the two channels only,
    so the program is modelled as a transition system: every goroutine
    stands at a statement of [Call], and a step runs one statement of one
    goroutine, if that statement does not have to wait.  Errors, the
    pacer's [state] and the sleep times do not steer [Call] and are left
    out; the invoker's answer is arbitrary. *)
Module goroutines.

(** Where a goroutine stands in [Call]; each point is the statement it
    is about to run. *)
Inductive point : Type :=
| AtLoop           (* for ...; try <= p.retries; ... *)
| AtLock           (* p.mu.Lock() *)
| AtPacer          (* <-p.pacer *)
| AtConn           (* <-p.connTokens *)
| InCall           (* again, err = p.invoker(...): the call phase *)
| AtConnReturn     (* p.connTokens <- struct{}{} *)
| AtDecide         (* if !again || try >= p.retries *)
| AtPacerRestore   (* p.pacer <- struct{}{}; p.state... = ... *)
| AtUnlockReturn   (* p.mu.Unlock(); return err *)
| AtUnlockSleep    (* p.state... = ...; p.mu.Unlock() *)
| Sleeping         (* time.Sleep(sleepTime) *)
| AtRelock         (* p.mu.Lock() *)
| AtPacerReturn    (* p.pacer <- struct{}{} *)
| AtReunlock       (* p.mu.Unlock() *)
| AtAgain          (* if !again { return err }; try++ *)
| Finished.

(** The local variables of [Call] that steer it. *)
Record goroutine : Type := {
  at_ : point;
  try : Z;
  again : bool;
}.

(** What the goroutines share: the mutex, the two channels (by their
    number of tokens) and the two options read by [Call]. *)
Record shared : Type := {
  mu : bool;
  pacer_chan : nat;
  connTokens : nat;
  maxConnections : nat;
  retries : Z;
}.

Definition move (g : goroutine) (pt : point) : goroutine :=
  {| at_ := pt; try := try g; again := again g |}.
Definition set_mu (s : shared) (locked : bool) : shared :=
  {| mu := locked; pacer_chan := pacer_chan s; connTokens := connTokens s;
     maxConnections := maxConnections s; retries := retries s |}.
Definition set_pacer (s : shared) (n : nat) : shared :=
  {| mu := mu s; pacer_chan := n; connTokens := connTokens s;
     maxConnections := maxConnections s; retries := retries s |}.
Definition set_conn (s : shared) (n : nat) : shared :=
  {| mu := mu s; pacer_chan := pacer_chan s; connTokens := n;
     maxConnections := maxConnections s; retries := retries s |}.

(** One statement of one goroutine.  A receive needs a token in the
    channel, a send needs room in it, [Lock] needs the mutex free; the
    invoker may answer anything. *)
Inductive stmt : goroutine -> shared -> goroutine -> shared -> Prop :=
| s_loop_enter g s :
    at_ g = AtLoop -> (try g <=? retries s)%Z = true ->
    stmt g s (move g AtLock) s
| s_loop_exit g s :
    at_ g = AtLoop -> (try g <=? retries s)%Z = false ->
    stmt g s (move g Finished) s
| s_lock g s :
    at_ g = AtLock -> mu s = false ->
    stmt g s (move g AtPacer) (set_mu s true)
| s_pacer g s n :
    at_ g = AtPacer -> pacer_chan s = S n ->
    stmt g s (move g AtConn) (set_pacer s n)
| s_conn g s n :
    at_ g = AtConn -> connTokens s = S n ->
    stmt g s (move g InCall) (set_conn s n)
| s_call g s (answer : bool) :
    at_ g = InCall ->
    stmt g s {| at_ := AtConnReturn; try := try g; again := answer |} s
| s_conn_return g s :
    at_ g = AtConnReturn -> connTokens s < maxConnections s ->
    stmt g s (move g AtDecide) (set_conn s (S (connTokens s)))
| s_decide_return g s :
    at_ g = AtDecide ->
    negb (again g) || (try g >=? retries s)%Z = true ->
    stmt g s (move g AtPacerRestore) s
| s_decide_retry g s :
    at_ g = AtDecide ->
    negb (again g) || (try g >=? retries s)%Z = false ->
    stmt g s (move g AtUnlockSleep) s
| s_pacer_restore g s :
    at_ g = AtPacerRestore -> pacer_chan s < 1 ->
    stmt g s (move g AtUnlockReturn) (set_pacer s (S (pacer_chan s)))
| s_unlock_return g s :
    at_ g = AtUnlockReturn ->
    stmt g s (move g Finished) (set_mu s false)
| s_unlock_sleep g s :
    at_ g = AtUnlockSleep ->
    stmt g s (move g Sleeping) (set_mu s false)
| s_sleep g s :
    at_ g = Sleeping ->
    stmt g s (move g AtRelock) s
| s_relock g s :
    at_ g = AtRelock -> mu s = false ->
    stmt g s (move g AtPacerReturn) (set_mu s true)
| s_pacer_return g s :
    at_ g = AtPacerReturn -> pacer_chan s < 1 ->
    stmt g s (move g AtReunlock) (set_pacer s (S (pacer_chan s)))
| s_reunlock g s :
    at_ g = AtReunlock ->
    stmt g s (move g AtAgain) (set_mu s false)
| s_again_stop g s :
    at_ g = AtAgain -> again g = false ->
    stmt g s (move g Finished) s
| s_again_next g s :
    at_ g = AtAgain -> again g = true ->
    stmt g s {| at_ := AtLoop; try := (try g + 1)%Z; again := again g |} s.

(** The program: some goroutines, each in a call of [Call] on the same
    pacer. *)
Definition program : Type := list goroutine * shared.

(** Any goroutine that can run a statement may do so. *)
Inductive step : program -> program -> Prop :=
| step_of (gs : list goroutine) (s : shared) (i : nat) g g' s' :
    gs !! i = Some g -> stmt g s g' s' ->
    step (gs, s) (<[i := g']> gs, s').

(** [n] goroutines enter [Call] on a pacer fresh from [New]. *)
Definition start (n : nat) (maxConns : nat) (retries : Z) : program :=
  (replicate n {| at_ := AtLoop; try := 0; again := false |},
   {| mu := false; pacer_chan := 1; connTokens := maxConns;
      maxConnections := maxConns; retries := retries |}).

Definition in_call (g : goroutine) : bool :=
  match at_ g with InCall => true | _ => false end.

(** Between [Lock] and [Unlock]. *)
Definition holds_mu (g : goroutine) : bool :=
  match at_ g with
  | AtPacer | AtConn | InCall | AtConnReturn | AtDecide | AtPacerRestore
  | AtUnlockReturn | AtUnlockSleep | AtPacerReturn | AtReunlock => true
  | _ => false
  end.

(** Between taking a connection token and giving it back. *)
Definition holds_conn (g : goroutine) : bool :=
  match at_ g with InCall | AtConnReturn => true | _ => false end.

Fixpoint count (P : goroutine -> bool) (gs : list goroutine) : nat :=
  match gs with
  | [] => 0
  | g :: gs' => (if P g then 1 else 0) + count P gs'
  end.

(** The mutex is locked exactly when one goroutine is between [Lock]
    and [Unlock], and every connection token is either in the channel
    or with a goroutine. *)
Definition inv (p : program) : Prop :=
  count holds_mu p.1 = (if mu p.2 then 1 else 0) ∧
  connTokens p.2 + count holds_conn p.1 = maxConnections p.2.

End goroutines.

(** ** The segments of a path, by kind *)
Module PathObs.
Import Path.

Definition is_dotdot (e : string) : bool := bool_decide (e = "..").

(** A segment that [Clean] drops: empty or ".". *)
Definition is_filler (e : string) : bool :=
  bool_decide (e = "") || bool_decide (e = ".").

(** The two kinds of segment that [Clean] keeps: names ([true]) and
    ".." ([false]). *)
Definition in_kind (k : bool) (e : string) : bool :=
  if k then is_name e else is_dotdot e.

(** A segment of a path whose kept segments are all of kind [k]. *)
Definition valid (k : bool) (e : string) : bool :=
  in_kind k e || is_filler e.

(** The path has a name among its segments or a ".." among them, but
    not both. *)
Definition one_kind (p : string) : bool :=
  xorb (existsb is_name (Split p)) (existsb is_dotdot (Split p)).

(** The path has no empty and no "." segment. *)
Definition no_filler (p : string) : bool :=
  forallb (fun e => negb (is_filler e)) (Split p).

(** The segments of kind [k] that a segment adds to a cleaned path. *)
Definition brings (k : bool) (e : string) : list string :=
  if in_kind k e then [e] else [].

(** The cleaned path made of the segments [L], all of one kind. *)
Definition repr (L : list string) : string :=
  match L with
  | [] => "."
  | _ => JoinSep L
  end.

(** What [Clean] keeps of a relative path, innermost segment first:
    names on top of ".." segments. *)
Definition kept_stack (out : list string) : Prop :=
  exists m N, out = rev N ++ replicate m ".."
              ∧ Forall (fun e => is_name e = true) N.

(** The cleaned relative path with [m] ".." segments and the names
    [N]. *)
Definition cleaned (m : nat) (N : list string) : string :=
  repr (replicate m ".." ++ N).

(** The values [dirPath] takes in a loop of [FindDir] over [parts]:
    [dirPath = filepath.Join(dirPath, part)] at each pass. *)
Fixpoint dirPaths (dirPath : string) (parts : list string) : list string :=
  match parts with
  | [] => []
  | part :: rest =>
      let dirPath := Join [dirPath; part] in
      dirPath :: dirPaths dirPath rest
  end.

End PathObs.

(** ** What the facts on [dircache] say of calls and caches *)
Module DirCacheObs.
Import dircache.

Definition is_CreateDir (c : call) : bool :=
  match c with CreateDirCall _ _ _ _ => true | _ => false end.

(** The ID a successful [CreateDir] call made. *)
Definition created (c : call) : option string :=
  match c with
  | CreateDirCall _ _ newID None => Some newID
  | _ => None
  end.

(** Every non-empty prefix of the segments [l] is in the forward cache. *)
Definition prefixes_cached (d : DirCache) (l : list string) : bool :=
  forallb (fun k => bool_decide (is_Some (cache d !! Path.JoinSep (take k l))))
          (seq 1 (length l)).

(** [chained parentID cs]: the calls [cs] are successful [FindLeaf] calls,
    the first under [parentID] and each next one under the ID the one
    before it returned; the result is the last ID returned. *)
Fixpoint chained (parentID : string) (cs : list call) : option string :=
  match cs with
  | [] => Some parentID
  | FindLeafCall pathID _ out true None :: cs' =>
      if decide (pathID = parentID) then chained out cs' else None
  | _ => None
  end.

(** The leaf a call was made for. *)
Definition leaf_of (c : call) : string :=
  match c with
  | FindLeafCall _ leaf _ _ _ => leaf
  | CreateDirCall _ leaf _ _ => leaf
  end.

(** The fields that only [FindRoot] sets are the same in [d] and [d']. *)
Definition same_root (d d' : DirCache) : Prop :=
  trueRootID d' = trueRootID d ∧ root d' = root d ∧ rootID d' = rootID d
  ∧ rootParentID d' = rootParentID d ∧ foundRoot d' = foundRoot d.

(** No path and no ID known to [d] is unknown to [d']. *)
Definition keeps_entries (d d' : DirCache) : Prop :=
  (forall p, is_Some (cache d !! p) -> is_Some (cache d' !! p))
  ∧ (forall i, is_Some (invCache d !! i) -> is_Some (invCache d' !! i)).

End DirCacheObs.

(** ** What the facts on [pacer] say of a pacer *)
Module PacerObs.

(** The pacer computes its delays with [c] and last slept for 0. *)
Definition rested {E : Type} (c : pacer.DefaultCalculator)
           (p : pacer.Pacer E) : Prop :=
  pacer.calculator (pacer.options p) = pacer.TheDefault c
  ∧ pacer.SleepTime (pacer.state p) = 0%Z.

End PacerObs.

(** ** Who holds the pacing token *)
Module GoroutineObs.
Import goroutines.

(** Between taking the pacing token and putting it back. *)
Definition holds_pacer (g : goroutine) : bool :=
  match at_ g with
  | AtConn | InCall | AtConnReturn | AtDecide | AtPacerRestore
  | AtUnlockSleep | Sleeping | AtRelock | AtPacerReturn => true
  | _ => false
  end.

(** The pacing token is in its channel or with exactly one goroutine. *)
Definition pacing_inv (p : program) : Prop :=
  pacer_chan p.2 + count holds_pacer p.1 = 1.

End GoroutineObs.

(** ** Package [fs]: the other methods of the pacer (fs/types.go) *)
Module fs_types.
Import fs.

(** What a method that may wait on the channel, or panic, comes to. *)
Inductive step_result (A : Type) : Type :=
| Done (a : A)
| Waits
| Panics.
Arguments Done {A} _.
Arguments Waits {A}.
Arguments Panics {A}.

Section Pacer.
Context {E : Type}.

(** [func (p *Pacer) SetMaxConnections(n int)]: the old channel is closed
    and a new one of capacity [n] is filled; [make] panics for a negative
    capacity. *)
Definition SetMaxConnections (p : Pacer E) (n : Z) : step_result (Pacer E) :=
  if (n <? 0)%Z then Panics
  else Done {| calculateDelay := calculateDelay p; maxConnections := n;
               connTokens := Z.to_nat n; retries := retries p |}.

(** [func (p *Pacer) GetToken()] *)
Definition GetToken (p : Pacer E) : step_result (Pacer E) :=
  match connTokens p with
  | O => Waits
  | Datatypes.S n =>
      Done {| calculateDelay := calculateDelay p;
              maxConnections := maxConnections p;
              connTokens := n; retries := retries p |}
  end.

(** [func (p *Pacer) PutToken()]: a send waits while the channel is
    full. *)
Definition PutToken (p : Pacer E) : step_result (Pacer E) :=
  if (Z.of_nat (connTokens p) <? maxConnections p)%Z then
    Done {| calculateDelay := calculateDelay p;
            maxConnections := maxConnections p;
            connTokens := Datatypes.S (connTokens p); retries := retries p |}
  else Waits.

(** [func (p *Pacer) CallWithoutContext(f func() error) error]; the
    deferred [PutToken] runs after [f]. *)
Definition CallWithoutContext {S : Type} (f : Fn E S) (w : World E S)
  : step_result (option E) * World E S :=
  match GetToken (pc w) with
  | Waits => (Waits, w)
  | Panics => (Panics, w)
  | Done p1 =>
      let '(err, s') := f (op w) in
      match PutToken p1 with
      | Done p2 => (Done err, Build_World p2 s' (slept w))
      | Waits => (Waits, Build_World p1 s' (slept w))
      | Panics => (Panics, Build_World p1 s' (slept w))
      end
  end.

(** A closure instrumented with a counter of its invocations. *)
Definition counted {S : Type} (fn : Fn E S) : Fn E (S * nat) :=
  fun '(s, n) => let '(r, s') := fn s in (r, (s', Datatypes.S n)).

(** The closure's state after [n] invocations. *)
Fixpoint after {S : Type} (fn : Fn E S) (n : nat) (s : S) : S :=
  match n with
  | O => s
  | Datatypes.S n' => after fn n' (snd (fn s))
  end.

(** The delays [Call] asks for after failed attempts number [first],
    [first + 1], ..., [n] of them, the closure being in state [s] before
    the first of these. *)
Fixpoint delays {S : Type} (p : Pacer E) (fn : Fn E S) (first : Z) (n : nat)
         (s : S) : list Z :=
  match n with
  | O => []
  | Datatypes.S n' =>
      calculateDelay p {| ConsecutiveRetries := first;
                          LastError := fst (fn s) |}
      :: delays p fn (first + 1)%Z n' (snd (fn s))
  end.

(** The context is not done at either [select] of the passes before
    [n]. *)
Definition alive (ctx : Context E) (n : Z) : Prop :=
  forall try pt, (0 <= try < n)%Z -> done_first ctx try pt = false.

End Pacer.
End fs_types.

(** ** Package [strings]: the functions [drive] and [hash] use

    Modelled from their documented behaviour, on strings of bytes. *)
Module Strings.

(** Whether the byte [a] is one of [chars]. *)
Fixpoint in_chars (a : ascii) (chars : string) : bool :=
  match chars with
  | EmptyString => false
  | String c r => Ascii.eqb a c || in_chars a r
  end.

(** [strings.ContainsAny(s, chars)] *)
Fixpoint ContainsAny (s chars : string) : bool :=
  match s with
  | EmptyString => false
  | String a r => in_chars a chars || ContainsAny r chars
  end.

(** [strings.TrimLeft(s, cutset)] *)
Fixpoint TrimLeft (s cutset : string) : string :=
  match s with
  | EmptyString => EmptyString
  | String a r => if in_chars a cutset then TrimLeft r cutset else s
  end.

(** [strings.TrimRight(s, cutset)] *)
Fixpoint TrimRight (s cutset : string) : string :=
  match s with
  | EmptyString => EmptyString
  | String a r =>
      let r' := TrimRight r cutset in
      if in_chars a cutset && bool_decide (r' = "") then EmptyString
      else String a r'
  end.

(** [strings.Trim(s, cutset)] *)
Definition Trim (s cutset : string) : string :=
  TrimRight (TrimLeft s cutset) cutset.

(** [strings.Split(s, sep)] for a separator of one byte. *)
Fixpoint SplitByte (s : string) (sep : ascii) : list string :=
  match s with
  | EmptyString => [EmptyString]
  | String a r =>
      if Ascii.eqb a sep then EmptyString :: SplitByte r sep
      else match SplitByte r sep with
           | h :: t => String a h :: t
           | [] => [String a EmptyString]
           end
  end.

(** [strings.LastIndex(s, sep)] for a separator of one byte; -1 when
    [sep] is not in [s]. *)
Fixpoint LastIndexByte (s : string) (sep : ascii) : Z :=
  match s with
  | EmptyString => (-1)%Z
  | String a r =>
      let i := LastIndexByte r sep in
      if (i >=? 0)%Z then (i + 1)%Z
      else if Ascii.eqb a sep then 0%Z else (-1)%Z
  end.

(** [s[i:j]], for [0 <= i <= j <= len(s)]. *)
Definition slice (s : string) (i j : Z) : string :=
  String.substring (Z.to_nat i) (Z.to_nat (j - i)) s.

(** [len(s)] *)
Definition len (s : string) : Z := Z.of_nat (String.length s).

(** [strings.HasPrefix(s, prefix)] *)
Definition HasPrefix (s prefix : string) : bool := String.prefix prefix s.

(** [strings.TrimPrefix(s, prefix)] *)
Definition TrimPrefix (s prefix : string) : string :=
  if HasPrefix s prefix then slice s (len prefix) (len s) else s.

End Strings.

(** ** Package [drive]: the path of the remote and [Mkdir] *)
Module drive.
Import Strings dircache.

(** The errors [parseDrivePath] creates. *)
Inductive parse_error : Type :=
| ErrInvalidCharacters.  (* errors.New("invalid characters in path") *)

(** The body of the loop over [parts]. *)
Definition parse_part (result : list string) (part : string) : list string :=
  if decide (part = "") then result
  else if decide (part = "..") then
    if decide (0 < length result)%nat
    then take (length result - 1) result else result
  else if decide (part = ".") then result
  else result ++ [part].

(** [func parseDrivePath(inputPath string) (root string, err error)];
    [path.Clean] is [filepath.Clean] with "/" as the separator. *)
Definition parseDrivePath (inputPath : string) : string + parse_error :=
  if decide (inputPath = ".") then inl ""
  else
    let cleaned := Strings.Trim (Path.Clean inputPath) "/" in
    if Strings.ContainsAny cleaned "*?" then inr ErrInvalidCharacters
    else
      let parts := Path.Split cleaned in
      inl (Path.JoinSep (fold_left parse_part parts [])).

Section Fs.
Context {B : Type} (fs : DirCacher B).

(** [err == fs.ErrorDirNotFound], a comparison of error values: it holds
    of no error that [dircache] creates itself, whatever its text. *)
Variable is_ErrorDirNotFound : error -> bool.

(** [func (f *Fs) Mkdir(ctx, dir string) error] *)
Definition Mkdir (dir : string) (w : World B) : option error * World B :=
  match FindDir fs dir w with
  | (Ok _, w1) => (None, w1)
  | (Err err, w1) =>
      if negb (is_ErrorDirNotFound err) then (Some err, w1)
      else
        match FindDir fs dir w1 with
        | (Ok _, w2) => (None, w2)
        | (Err err2, w2) => (Some err2, w2)
        end
  end.

End Fs.

(** [func splitPath(p string) (dir, leaf string)] *)
Definition splitPath (p : string) : string * string :=
  let p := Trim p "/" in
  let i := LastIndexByte p "/"%char in
  if (i >=? 0)%Z then (slice p 0 i, slice p (i + 1) (len p))
  else ("", p).

(** [func isRootDirectory(p string) bool] *)
Definition isRootDirectory (p : string) : bool :=
  bool_decide (p = "") || bool_decide (p = "/") || bool_decide (p = ".").

(** [func getRelativePath(root, p string) string] *)
Definition getRelativePath (root p : string) : string :=
  let p := if HasPrefix p root then slice p (len root) (len p) else p in
  TrimPrefix p "/".

(** [func joinPath(dir, leaf string) string] *)
Definition joinPath (dir leaf : string) : string :=
  if decide (dir = "") then leaf else dir +:+ "/" +:+ leaf.

End drive.

(** ** What the facts on [drive] say of paths and errors *)
Module DriveObs.
Import Path Strings dircache.

(** What [parseDrivePath] keeps in [result]: names without wildcard. *)
Definition kept (e : string) : Prop :=
  is_name e = true ∧ ContainsAny e "*?" = false.

(** An [err == fs.ErrorDirNotFound] that goes by the text of a backend
    error. *)
Definition by_text (e : error) : bool :=
  match e with
  | ErrBackend msg => String.eqb msg "directory not found"
  | _ => false
  end.

End DriveObs.

(** ** Package [fs]: the options of [Open] *)
Module open_options.

(** The implementations of [OpenOption]: [*RangeOption], [*SeekOption]
    (pointers that are not nil), [NullOption], and any other type, of
    which only a name is kept. *)
Inductive OpenOption : Type :=
| RangeOption (Start End : Z)
| SeekOption (Offset : Z)
| NullOption
| OtherOption (name : string).

(** [func (o *RangeOption) Decode(size int64) (offset, limit int64)] *)
Definition Decode (Start End size : Z) : Z * Z :=
  if (Start >=? 0)%Z then
    (Start, if (End >=? 0)%Z then Int64.wrap (Int64.wrap (End - Start) + 1)
            else (-1)%Z)
  else
    (if (End >=? 0)%Z then Int64.wrap (size - End) else 0%Z, (-1)%Z).

(** The body of the second loop of [FixRangeOption]. *)
Definition fix_option (size : Z) (option : OpenOption) : OpenOption :=
  match option with
  | RangeOption Start End =>
      let '(Start1, End1) :=
        if (Start <? 0)%Z then (Int64.wrap (size - End), (-1)%Z)
        else (Start, End) in
      if (End1 >? size)%Z || (End1 <? 0)%Z
      then RangeOption Start1 (Int64.wrap (size - 1))
      else RangeOption Start1 End1
  | SeekOption Offset => RangeOption Offset (Int64.wrap (size - 1))
  | _ => option
  end.

(** [func FixRangeOption(options []OpenOption, size int64)]; the slice
    after the call. *)
Definition FixRangeOption (options : list OpenOption) (size : Z)
  : list OpenOption :=
  if (size <? 0)%Z then options
  else if (size =? 0)%Z then
    map (fun o => match o with RangeOption _ _ => NullOption | _ => o end)
        options
  else map (fix_option size) options.

End open_options.

(** ** Package [fs]: [Metadata] *)
Module metadata.

(** [type Metadata map[string]string]; [None] is the nil map. *)
Definition Metadata : Type := option (gmap string string).

(** The entries of [m]; a nil map has none. *)
Definition entries (m : Metadata) : gmap string string := default ∅ m.

(** [len(m)] *)
Definition len (m : Metadata) : nat := size (entries m).

(** [m[key]]: the zero value when the key is absent. *)
Definition index (m : Metadata) (key : string) : string :=
  default "" (entries m !! key).

(** [func (m Metadata) Get(key string) string] *)
Definition Get (m : Metadata) (key : string) : string :=
  match m with
  | None => ""
  | Some _ => index m key
  end.

(** [func (m Metadata) Set(key, value string)]; the map afterwards. *)
Definition Set_ (m : Metadata) (key value : string) : Metadata :=
  match m with
  | None => None
  | Some g => Some (<[key := value]> g)
  end.

(** [func (m Metadata) DeleteKey(key string)]; the map afterwards. *)
Definition DeleteKey (m : Metadata) (key : string) : Metadata :=
  match m with
  | None => None
  | Some g => Some (delete key g)
  end.

(** [func (m Metadata) Equal(other Metadata) bool]: the loop returns
    false at the first entry that differs, in whatever order it runs. *)
Definition Equal (m other : Metadata) : bool :=
  if negb (len m =? len other)%nat then false
  else forallb (fun kv => bool_decide (index other kv.1 = kv.2))
               (map_to_list (entries m)).

(** [func (m Metadata) Copy() Metadata] *)
Definition Copy (m : Metadata) : Metadata :=
  Some (map_fold (fun k v newM => <[k := v]> newM) ∅ (entries m)).

End metadata.

(** ** Package [hash] *)
Module hash.
Import Strings.

(** [type Type int] *)
Definition Type_ : Type := Z.

Definition None_ : Type_ := 0%Z.
Definition MD5 : Type_ := 2%Z.     (* 1 << iota, the second constant *)
Definition SHA1 : Type_ := 4%Z.
Definition SHA256 : Type_ := 8%Z.

(** [type hashDefinition struct], without [newFunc]. *)
Record hashDefinition : Type := {
  width : Z;
  name : string;
  hashType : Type_;
}.

(** [type2hash] *)
Definition type2hash (t : Type_) : option hashDefinition :=
  if (t =? MD5)%Z then Some {| width := 32; name := "md5"; hashType := MD5 |}
  else if (t =? SHA1)%Z
       then Some {| width := 40; name := "sha1"; hashType := SHA1 |}
  else if (t =? SHA256)%Z
       then Some {| width := 64; name := "sha256"; hashType := SHA256 |}
  else None.

(** [name2hash] *)
Definition name2hash (n : string) : option hashDefinition :=
  if decide (n = "md5") then type2hash MD5
  else if decide (n = "sha1") then type2hash SHA1
  else if decide (n = "sha256") then type2hash SHA256
  else None.

Definition supported : list Type_ := [MD5; SHA1; SHA256].

(** [func (t Type) String() string] *)
Definition String_ (t : Type_) : string :=
  let types :=
    omap (fun hashType =>
            if negb (Z.land t hashType =? 0)%Z
            then name <$> type2hash hashType else None) supported in
  match types with
  | [] => "none"     (* len(types) == 0 *)
  | _ => String.concat "," types
  end.

(** The errors [FromString] creates. *)
Inductive error : Type :=
| ErrUnknownHashType (part : string).
    (* fmt.Errorf("unknown hash type %q", part) *)

Section FromString.
(** [strings.TrimSpace] and [strings.ToLower]. *)
Variables (TrimSpace ToLower : string -> string).

(** The loop of [FromString] over [parts]; [acc] is the variable
    [hashType]. *)
Fixpoint FromString_loop (parts : list string) (acc : Type_)
  : Type_ + error :=
  match parts with
  | [] => inl acc
  | part :: rest =>
      let part := TrimSpace part in
      if decide (part = "") then FromString_loop rest acc
      else match name2hash (ToLower part) with
           | Some definition =>
               FromString_loop rest (Z.lor acc (hashType definition))
           | None => inr (ErrUnknownHashType part)
           end
  end.

(** [func FromString(s string) (Type, error)] *)
Definition FromString (s : string) : Type_ + error :=
  if decide (s = "" ∨ s = "none") then inl None_
  else FromString_loop (SplitByte s ","%char) None_.

End FromString.

(** [func (t Type) Width() int] *)
Definition Width (t : Type_) : Z :=
  if (t =? None_)%Z then 0%Z
  else match type2hash t with
       | Some definition => width definition
       | None => 0%Z
       end.

End hash.

(** ** Sample worlds, backends and closures

    Used to run the code on concrete inputs. *)
Module Samples.
Import dircache.

(** The world after [New(root, "root", fs)] and [Put("", "root")]. *)
Definition seeded (root : string) : World unit :=
  Build_World (Put (New root "root") "" "root") () [].

(** Only the leaf "x" exists; every other lookup and every creation
    fails in the backend. *)
Definition failing : DirCacher unit :=
  {| FindLeaf := fun b pathID leaf =>
                   if decide (leaf = "x") then (b, ("id-x", true, None))
                   else (b, ("", false, Some (ErrBackend "quota exceeded")));
     CreateDir := fun b pathID leaf =>
                    (b, ("", Some (ErrBackend "quota exceeded"))) |}.

(** A closure that asks for a retry on its first two invocations. *)
Definition twice_busy : pacer.Paced string nat :=
  fun k => (((k <? 2)%nat, if (k <? 2)%nat then Some "busy" else None), S k).

(** A closure that fails on its first two invocations. *)
Definition twice_failing : fs.Fn string nat :=
  fun k => (if (k <? 2)%nat then Some "busy" else None, S k).

(** A context that is never done. *)
Definition background : fs.Context string :=
  {| fs.done_first := fun _ _ => false; fs.Err := "context canceled" |}.

End Samples.

(** * Facts on paths *)
Module PathFacts.
Import Path.

Lemma Split_nonnil (s : string) : Split s ≠ [].
Proof.
  destruct s as [|a r]; simpl; [done|].
  destruct (Ascii.eqb a Separator); [done|].
  by destruct (Split r).
Qed.

Lemma Split_no_sep (s : string) :
  Forall (fun e => has_sep e = false) (Split s).
Proof.
  induction s as [|a r IH]; simpl.
  - by constructor.
  - destruct (Ascii.eqb a Separator) eqn:Ha.
    + by constructor.
    + pose proof (Split_nonnil r) as Hnn; destruct (Split r) as [|h t]; [done|].
      inversion IH as [|? ? Hh Ht]; subst.
      constructor; [|done]. simpl. by rewrite Ha.
Qed.

Lemma JoinSep_cons (e e' : string) (l : list string) :
  JoinSep (e :: e' :: l) = e +:+ "/" +:+ JoinSep (e' :: l).
Proof. reflexivity. Qed.

Lemma JoinSep_Split (s : string) : JoinSep (Split s) = s.
Proof.
  induction s as [|a r IH]; [done|].
  simpl. destruct (Ascii.eqb a Separator) eqn:Ha.
  - apply Ascii.eqb_eq in Ha. subst a.
    pose proof (Split_nonnil r) as Hnn.
    destruct (Split r) as [|h t]; [done|].
    rewrite JoinSep_cons, IH. done.
  - pose proof (Split_nonnil r) as Hnn.
    destruct (Split r) as [|h t]; [done|].
    destruct t as [|h' t].
    + unfold JoinSep in *. simpl in *. by rewrite IH.
    + rewrite JoinSep_cons in IH. rewrite JoinSep_cons, <- IH. done.
Qed.

Lemma Split_single (e : string) : has_sep e = false -> Split e = [e].
Proof.
  induction e as [|a r IH]; simpl; [done|].
  intros H. apply orb_false_iff in H as [Ha Hr].
  rewrite Ha, (IH Hr). done.
Qed.

Lemma Split_app_sep (e r : string) :
  has_sep e = false -> Split (e +:+ "/" +:+ r) = e :: Split r.
Proof.
  induction e as [|a e IH]; simpl; [done|].
  intros H. apply orb_false_iff in H as [Ha He].
  rewrite Ha, (IH He). done.
Qed.

Lemma Split_JoinSep (l : list string) :
  l ≠ [] -> Forall (fun e => has_sep e = false) l -> Split (JoinSep l) = l.
Proof.
  induction l as [|e l IH]; [done|]. intros _ Hl.
  inversion Hl as [|? ? He Hl']; subst.
  destruct l as [|e' l].
  - by apply Split_single.
  - rewrite JoinSep_cons, Split_app_sep by done.
    f_equal. by apply IH.
Qed.

Lemma append_assoc (s1 s2 s3 : string) :
  (s1 +:+ s2) +:+ s3 = s1 +:+ s2 +:+ s3.
Proof.
  induction s1 as [|a s1 IH]; [done|].
  change (String a ((s1 +:+ s2) +:+ s3) = String a (s1 +:+ s2 +:+ s3)).
  by rewrite IH.
Qed.

Lemma length_append (s1 s2 : string) :
  String.length (s1 +:+ s2) = (String.length s1 + String.length s2)%nat.
Proof.
  induction s1 as [|a s1 IH]; [done|].
  change (S (String.length (s1 +:+ s2))
          = S (String.length s1 + String.length s2)).
  by rewrite IH.
Qed.

Lemma JoinSep_snoc (l : list string) (e : string) :
  l ≠ [] -> JoinSep (l ++ [e]) = JoinSep l +:+ "/" +:+ e.
Proof.
  induction l as [|x l IH]; [done|]. intros _.
  destruct l as [|y l]; [done|].
  specialize (IH ltac:(done)).
  change (JoinSep (x :: (y :: l) ++ [e])
          = JoinSep (x :: y :: l) +:+ "/" +:+ e)%list.
  destruct ((y :: l) ++ [e])%list as [|z l'] eqn:Hz; [done|].
  rewrite !JoinSep_cons, IH.
  by rewrite !append_assoc.
Qed.

Lemma is_name_spec (e : string) :
  is_name e = true ->
  has_sep e = false ∧ e ≠ "" ∧ e ≠ "." ∧ e ≠ "..".
Proof.
  unfold is_name. rewrite !andb_true_iff, negb_true_iff.
  rewrite !bool_decide_eq_true. tauto.
Qed.

Lemma clean_elem_name (rooted : bool) (out : list string) (e : string) :
  is_name e = true -> clean_elem rooted out e = e :: out.
Proof.
  intros (_ & H1 & H2 & H3)%is_name_spec. unfold clean_elem.
  by rewrite !decide_False.
Qed.

Lemma clean_names (rooted : bool) (l out : list string) :
  Forall (fun e => is_name e = true) l ->
  fold_left (clean_elem rooted) l out = rev l ++ out.
Proof.
  revert out. induction l as [|e l IH]; intros out Hl; [done|].
  inversion Hl; subst. simpl.
  rewrite clean_elem_name, IH by done.
  by rewrite <- app_assoc.
Qed.

Lemma JoinSep_names_head (l : list string) :
  l ≠ [] -> Forall (fun e => is_name e = true) l ->
  JoinSep l ≠ "" ∧ is_rooted (JoinSep l) = false.
Proof.
  destruct l as [|e l]; [done|]. intros _ Hl.
  inversion Hl as [|? ? He _]; subst.
  apply is_name_spec in He as (Hs & Hne & _).
  destruct e as [|a e]; [done|].
  simpl in Hs. apply orb_false_iff in Hs as [Ha _].
  destruct l; simpl; rewrite ?Ha; done.
Qed.

Lemma Clean_names (l : list string) :
  l ≠ [] -> Forall (fun e => is_name e = true) l ->
  Clean (JoinSep l) = JoinSep l.
Proof.
  intros Hne Hl.
  destruct (JoinSep_names_head l Hne Hl) as [Hnz Hroot].
  unfold Clean. rewrite Hroot.
  rewrite Split_JoinSep; [|done|].
  - rewrite clean_names by done.
    rewrite app_nil_r, rev_involutive.
    by rewrite decide_False.
  - eapply Forall_impl; [exact Hl|].
    by intros e (? & _)%is_name_spec.
Qed.

Lemma JoinSep_nil_or_not (l : list string) :
  Forall (fun e => is_name e = true) l ->
  (l = [] ∧ JoinSep l = "") ∨ (l ≠ [] ∧ JoinSep l ≠ "").
Proof.
  intros Hl. destruct l as [|e l]; [by left|right].
  split; [done|]. by apply JoinSep_names_head.
Qed.

(** [filepath.Join(dirPath, part)] where [dirPath] is made of names and
    [part] is a name appends the part. *)
Lemma Join_names (m : list string) (e : string) :
  Forall (fun e => is_name e = true) m -> is_name e = true ->
  Join [JoinSep m; e] = JoinSep (m ++ [e]).
Proof.
  intros Hm He.
  assert (Hme : Forall (fun e => is_name e = true) (m ++ [e]))
    by (apply Forall_app; split; [done|by constructor]).
  destruct (JoinSep_nil_or_not m Hm) as [[-> _]|[Hne Hnz]].
  - simpl. apply is_name_spec in He as He'. destruct He' as (_ & Hnz & _).
    rewrite decide_False by done.
    by apply (Clean_names [e]).
  - unfold Join. rewrite decide_False by done.
    replace (JoinSep [JoinSep m; e]) with (JoinSep (m ++ [e])).
    + apply Clean_names; [|done]. by destruct m.
    + by rewrite JoinSep_snoc.
Qed.

Lemma length_JoinSep_snoc (m : list string) (e : string) :
  m ≠ [] ->
  (String.length (JoinSep m) < String.length (JoinSep (m ++ [e])))%nat.
Proof.
  intros Hne. rewrite JoinSep_snoc by done.
  rewrite !length_append. simpl. lia.
Qed.

End PathFacts.

(** * Facts on cleaned paths *)
Module KindFacts.
Import Path PathObs PathFacts.

Lemma no_sep_cases (e : string) :
  has_sep e = false ->
  e = "" ∨ e = "." ∨ e = ".." ∨ is_name e = true.
Proof.
  intros Hsep. unfold is_name. rewrite Hsep. cbn [negb andb].
  destruct (decide (e = "")) as [->|H1]; [by left|].
  destruct (decide (e = ".")) as [->|H2]; [by right; left|].
  destruct (decide (e = "..")) as [->|H3]; [by right; right; left|].
  right; right; right. by rewrite !bool_decide_eq_true_2.
Qed.

Lemma in_kind_spec (k : bool) (e : string) :
  in_kind k e = true ->
  has_sep e = false ∧ e ≠ "" ∧ e ≠ "." ∧ is_filler e = false.
Proof.
  destruct k; cbn [in_kind].
  - intros (? & ? & ? & ?)%is_name_spec. unfold is_filler.
    by rewrite !bool_decide_eq_false_2.
  - unfold is_dotdot. intros ->%bool_decide_eq_true. done.
Qed.

Lemma is_filler_spec (e : string) :
  is_filler e = true -> has_sep e = false ∧ (e = "" ∨ e = ".").
Proof.
  unfold is_filler. intros [->%bool_decide_eq_true| ->%bool_decide_eq_true]%orb_true_iff;
    split; auto.
Qed.

Lemma valid_no_sep (k : bool) (e : string) :
  valid k e = true -> has_sep e = false.
Proof.
  unfold valid. intros [H%in_kind_spec|H%is_filler_spec]%orb_true_iff;
    by destruct H.
Qed.

Lemma clean_elem_kind (k : bool) (out : list string) (e : string) :
  in_kind k e = true -> Forall (fun x => in_kind k x = true) out ->
  clean_elem false out e = e :: out.
Proof.
  destruct k; cbn [in_kind].
  - intros He _. by apply clean_elem_name.
  - unfold is_dotdot. intros ->%bool_decide_eq_true Hout.
    unfold clean_elem. cbn.
    destruct out as [|top below]; [done|].
    inversion Hout as [|? ? Htop _]; subst.
    apply bool_decide_eq_true in Htop. subst top. done.
Qed.

Lemma clean_elem_filler (r : bool) (out : list string) (e : string) :
  is_filler e = true -> clean_elem r out e = out.
Proof. by intros [_ [-> | ->]]%is_filler_spec. Qed.

Lemma fold_kind (k : bool) (L : list string) :
  forall out,
    Forall (fun x => in_kind k x = true) L ->
    Forall (fun x => in_kind k x = true) out ->
    fold_left (clean_elem false) L out = rev L ++ out.
Proof.
  induction L as [|e L IH]; intros out HL Hout; [done|].
  inversion HL; subst. cbn [fold_left rev].
  rewrite (clean_elem_kind k), IH by done || by constructor.
  by rewrite <- app_assoc.
Qed.

Lemma JoinSep_head (e : string) (t : list string) :
  e ≠ "" -> has_sep e = false ->
  JoinSep (e :: t) ≠ "" ∧ is_rooted (JoinSep (e :: t)) = false.
Proof.
  intros Hne Hsep. destruct e as [|a e]; [done|].
  cbn [has_sep] in Hsep. apply orb_false_iff in Hsep as [Ha _].
  destruct t as [|e' t].
  - by split.
  - rewrite JoinSep_cons. by split.
Qed.

(** [Clean] on a relative path given by its segments. *)
Lemma Clean_rel (M : list string) :
  M ≠ [] -> Forall (fun e => has_sep e = false) M ->
  is_rooted (JoinSep M) = false ->
  Clean (JoinSep M)
  = (let body := JoinSep (rev (fold_left (clean_elem false) M [])) in
     if decide (body = "") then "." else body).
Proof.
  intros Hne Hsep Hrel. unfold Clean. by rewrite Split_JoinSep, Hrel.
Qed.

Lemma kind_no_sep (k : bool) (L : list string) :
  Forall (fun x => in_kind k x = true) L ->
  Forall (fun e => has_sep e = false) L.
Proof.
  intros HL. eapply Forall_impl; [exact HL|].
  intros x Hx. by apply in_kind_spec in Hx as [? _].
Qed.

Lemma JoinSep_kind (k : bool) (L : list string) :
  L ≠ [] -> Forall (fun x => in_kind k x = true) L ->
  JoinSep L ≠ "" ∧ is_rooted (JoinSep L) = false.
Proof.
  intros Hne HL. destruct L as [|e L]; [done|].
  inversion HL as [|? ? He _]; subst.
  apply in_kind_spec in He as (? & ? & _). by apply JoinSep_head.
Qed.

Lemma JoinSep_inj (L1 L2 : list string) :
  L1 ≠ [] -> L2 ≠ [] ->
  Forall (fun e => has_sep e = false) L1 ->
  Forall (fun e => has_sep e = false) L2 ->
  JoinSep L1 = JoinSep L2 -> L1 = L2.
Proof.
  intros H1 H2 S1 S2 Heq.
  by rewrite <- (Split_JoinSep L1), <- (Split_JoinSep L2), Heq.
Qed.

Lemma JoinSep_kind_not_dot (k : bool) (L : list string) :
  L ≠ [] -> Forall (fun x => in_kind k x = true) L -> JoinSep L ≠ ".".
Proof.
  intros Hne HL Heq.
  assert (L = ["."]) as ->.
  { apply JoinSep_inj; [done|done|by eapply kind_no_sep|by repeat constructor|done]. }
  inversion HL as [|? ? He _]; subst. by apply in_kind_spec in He as (_ & _ & ? & _).
Qed.

(** One pass of [dirPath = filepath.Join(dirPath, part)]. *)
Lemma Join_repr (k : bool) (L : list string) (e : string) :
  Forall (fun x => in_kind k x = true) L -> valid k e = true ->
  Join [repr L; e] = repr (L ++ brings k e).
Proof.
  intros HL He. pose proof (valid_no_sep _ _ He) as Hsep.
  unfold brings. destruct L as [|h L].
  - cbn [repr app Join]. rewrite decide_False by done.
    rewrite (Clean_rel ["."; e]);
      [|done|by repeat (constructor; try assumption)
       |by apply (JoinSep_head ".")].
    cbn [fold_left]. change (clean_elem false [] ".") with (@nil string).
    destruct (in_kind k e) eqn:Hk.
    + rewrite (clean_elem_kind k) by done. cbn.
      apply in_kind_spec in Hk as (_ & Hne & _).
      by rewrite decide_False.
    + unfold valid in He. rewrite Hk in He. cbn [orb] in He.
      by rewrite clean_elem_filler.
  - assert (Hne : h :: L ≠ []) by done.
    destruct (JoinSep_kind k _ Hne HL) as [Hnonempty Hrel].
    cbn [repr]. cbn [Join]. rewrite decide_False by done.
    change (JoinSep [JoinSep (h :: L); e])
      with (JoinSep (h :: L) +:+ "/" +:+ e).
    rewrite <- JoinSep_snoc by done.
    assert (HM : Forall (fun e => has_sep e = false) ((h :: L) ++ [e])).
    { apply Forall_app. split; [by eapply kind_no_sep|by constructor]. }
    assert (HrelM : is_rooted (JoinSep ((h :: L) ++ [e])) = false).
    { inversion HL as [|? ? Hh _]; subst.
      apply in_kind_spec in Hh as (? & ? & _).
      by apply (JoinSep_head h). }
    rewrite Clean_rel; [|by destruct L|done|done].
    rewrite fold_left_app, (fold_kind k _ [] HL (Forall_nil_2 _)).
    rewrite app_nil_r. cbn [fold_left].
    destruct (in_kind k e) eqn:Hk.
    + rewrite (clean_elem_kind k); [|done|by apply Forall_rev].
      change (e :: rev (h :: L)) with (rev [e] ++ rev (h :: L)).
      rewrite <- rev_app_distr, rev_involutive.
      assert (HL' : Forall (fun x => in_kind k x = true) ((h :: L) ++ [e])).
      { apply Forall_app. split; [done|by constructor]. }
      destruct (JoinSep_kind k ((h :: L) ++ [e])) as [Hn _]; [done|done|].
      cbv zeta. rewrite decide_False by done. done.
    + unfold valid in He. rewrite Hk in He. cbn [orb] in He.
      rewrite clean_elem_filler by done. rewrite rev_involutive, app_nil_r.
      cbv zeta. by rewrite decide_False.
Qed.

(** The first pass, from the empty [dirPath]. *)
Lemma Join_start (k : bool) (e : string) :
  e ≠ "" -> valid k e = true -> Join [""; e] = repr (brings k e).
Proof.
  intros Hne He. pose proof (valid_no_sep _ _ He) as Hsep.
  cbn [Join]. rewrite decide_True, decide_False by done.
  rewrite (Clean_rel [e]);
    [|done|by repeat (constructor; try assumption)|by apply JoinSep_head].
  unfold brings. cbn [fold_left]. destruct (in_kind k e) eqn:Hk.
  - rewrite (clean_elem_kind k) by done. cbn. by rewrite decide_False.
  - unfold valid in He. rewrite Hk in He. cbn [orb] in He.
    by rewrite clean_elem_filler.
Qed.

Lemma Split_head (p : string) (t : list string) :
  Split p = "" :: t -> p = "" ∨ is_rooted p = true.
Proof.
  destruct p as [|a r]; [by left|]. cbn [Split is_rooted].
  destruct (Ascii.eqb a Separator); [by right|].
  by destruct (Split r).
Qed.

Lemma one_kind_valid (p : string) :
  one_kind p = true ->
  exists k, Forall (fun e => valid k e = true) (Split p)
            ∧ Exists (fun e => in_kind k e = true) (Split p).
Proof.
  unfold one_kind. intros Hx.
  pose proof (Split_no_sep p) as Hsep.
  destruct (existsb is_name (Split p)) eqn:Hn,
           (existsb is_dotdot (Split p)) eqn:Hd; try done.
  - exists true. split.
    + rewrite Forall_forall in Hsep |- *. intros e He.
      destruct (no_sep_cases e (Hsep e He)) as [->|[->|[->|Hname]]];
        try done.
      * assert (existsb is_dotdot (Split p) = true); [|congruence].
        apply existsb_exists. exists "..". split; [|done].
        by apply list_elem_of_In.
      * unfold valid. cbn [in_kind]. by rewrite Hname.
    + apply existsb_exists in Hn as (e & He%list_elem_of_In & Hname).
      apply Exists_exists. by exists e.
  - exists false. split.
    + rewrite Forall_forall in Hsep |- *. intros e He.
      destruct (no_sep_cases e (Hsep e He)) as [->|[->|[->|Hname]]];
        try done.
      assert (existsb is_name (Split p) = true); [|congruence].
      apply existsb_exists. exists e. split; [|done].
      by apply list_elem_of_In.
    + apply existsb_exists in Hd as (e & He%list_elem_of_In & Hdd).
      apply Exists_exists. by exists e.
Qed.

Lemma clean_elem_stack (out : list string) (e : string) :
  has_sep e = false -> kept_stack out ->
  kept_stack (clean_elem false out e).
Proof.
  intros Hsep (m & N & -> & HN).
  destruct (no_sep_cases e Hsep) as [->|[->|[->|Hname]]].
  - by exists m, N.
  - by exists m, N.
  - destruct N as [|n N _] using rev_ind.
    + exists (S m), []. split; [|done]. cbn [rev app].
      destruct m; [done|]. done.
    + rewrite rev_app_distr. cbn [rev app].
      apply Forall_app in HN as [HN Hn]. inversion Hn as [|? ? Hn' _]; subst.
      apply is_name_spec in Hn' as (_ & _ & _ & Hdd).
      exists m, N. split; [|done].
      unfold clean_elem.
      rewrite (decide_False (P := ".." = "")) by done.
      rewrite (decide_False (P := ".." = ".")) by done.
      rewrite (decide_True (P := ".." = "..")) by done.
      by rewrite (decide_False (P := n = "..")).
  - rewrite clean_elem_name by done. exists m, (N ++ [e]).
    split; [by rewrite rev_app_distr|].
    apply Forall_app. split; [done|by constructor].
Qed.

Lemma fold_stack (M : list string) :
  forall out,
    Forall (fun e => has_sep e = false) M -> kept_stack out ->
    kept_stack (fold_left (clean_elem false) M out).
Proof.
  induction M as [|e M IH]; intros out HM Hout; [done|].
  inversion HM; subst. cbn [fold_left]. apply IH; [done|].
  by apply clean_elem_stack.
Qed.

Lemma replicate_dotdot (m : nat) :
  Forall (fun e => in_kind false e = true) (replicate m "..").
Proof. apply Forall_forall. by intros e [-> _]%elem_of_replicate. Qed.

Lemma cleaned_spec (m : nat) (N : list string) :
  Forall (fun e => is_name e = true) N ->
  cleaned m N ≠ "" ∧ is_rooted (cleaned m N) = false
  ∧ Clean (cleaned m N) = cleaned m N.
Proof.
  intros HN. unfold cleaned.
  destruct (replicate m ".." ++ N) as [|h t] eqn:HL; [done|].
  cbn [repr]. rewrite <- HL.
  assert (Hne : replicate m ".." ++ N ≠ []) by by rewrite HL.
  assert (Hsep : Forall (fun e => has_sep e = false)
                        (replicate m ".." ++ N)).
  { apply Forall_app. split.
    - apply (kind_no_sep false), replicate_dotdot.
    - apply (kind_no_sep true). done. }
  assert (Hhead : JoinSep (replicate m ".." ++ N) ≠ ""
                  ∧ is_rooted (JoinSep (replicate m ".." ++ N)) = false).
  { rewrite HL. apply JoinSep_head.
    - destruct m; cbn in HL.
      + subst N. inversion HN as [|? ? Hh _]; subst.
        by apply is_name_spec in Hh as (_ & ? & _).
      + by injection HL as <- _.
    - rewrite HL in Hsep. by inversion Hsep. }
  destruct Hhead as [Hnonempty Hrel]. split; [done|]. split; [done|].
  rewrite Clean_rel by done.
  rewrite fold_left_app, (fold_kind false _ [] (replicate_dotdot m)) by done.
  rewrite app_nil_r, clean_names by done.
  rewrite rev_app_distr, !rev_involutive.
  cbv zeta. by rewrite decide_False.
Qed.

Lemma rev_replicate (m : nat) (x : string) :
  rev (replicate m x) = replicate m x.
Proof.
  induction m as [|m IH]; [done|]. cbn [replicate rev]. rewrite IH.
  symmetry. apply replicate_cons_app.
Qed.

(** [Clean] of a relative path is in cleaned form. *)
Lemma Clean_cleaned (M : list string) :
  M ≠ [] -> Forall (fun e => has_sep e = false) M ->
  is_rooted (JoinSep M) = false ->
  exists m N, Forall (fun e => is_name e = true) N
              ∧ Clean (JoinSep M) = cleaned m N.
Proof.
  intros Hne Hsep Hrel. rewrite Clean_rel by done.
  destruct (fold_stack M [] Hsep) as (m & N & -> & HN).
  { by exists 0%nat, []. }
  exists m, N. split; [done|].
  rewrite rev_app_distr, rev_involutive, rev_replicate.
  unfold cleaned. cbv zeta.
  destruct (replicate m ".." ++ N) as [|h t] eqn:HL.
  - by rewrite decide_True.
  - destruct (cleaned_spec m N HN) as (Hnonempty & _).
    unfold cleaned in Hnonempty. rewrite HL in Hnonempty.
    cbn [repr] in *. by rewrite decide_False.
Qed.

Lemma Join_cleaned (d part : string) :
  has_sep part = false ->
  (d = "" ∧ part ≠ "")
  ∨ (exists m N, Forall (fun e => is_name e = true) N ∧ d = cleaned m N) ->
  exists m N, Forall (fun e => is_name e = true) N
              ∧ Join [d; part] = cleaned m N.
Proof.
  intros Hsep [[-> Hpart]|(m & N & HN & ->)].
  - cbn [Join]. rewrite decide_True, decide_False by done.
    apply (Clean_cleaned [part]); [done|by repeat constructor|].
    by apply JoinSep_head.
  - destruct (cleaned_spec m N HN) as (Hne & Hrel & _).
    cbn [Join]. rewrite decide_False by done.
    change (JoinSep [cleaned m N; part])
      with (cleaned m N +:+ "/" +:+ part).
    unfold cleaned in *.
    destruct (replicate m ".." ++ N) as [|h t] eqn:HL.
    + cbn [repr] in *.
      apply (Clean_cleaned ["."; part]);
        [done|by repeat (constructor; try assumption)|done].
    + cbn [repr] in *.
      assert (Hsep' : Forall (fun e => has_sep e = false) (h :: t)).
      { rewrite <- HL. apply Forall_app. split.
        - apply (kind_no_sep false), replicate_dotdot.
        - by apply (kind_no_sep true). }
      rewrite <- JoinSep_snoc by done.
      apply Clean_cleaned.
      * by destruct t.
      * apply Forall_app. split; [done|by constructor].
      * rewrite JoinSep_snoc by done.
        destruct (JoinSep (h :: t)) as [|a r] eqn:Hj; [done|]. exact Hrel.
Qed.

(** Every value that [dirPath] takes is in cleaned form. *)
Lemma dirPaths_cleaned (parts : list string) :
  forall d q,
    Forall (fun e => has_sep e = false) parts ->
    (d = "" ∧ (forall e t, parts = e :: t -> e ≠ ""))
    ∨ (exists m N, Forall (fun e => is_name e = true) N ∧ d = cleaned m N) ->
    q ∈ dirPaths d parts ->
    exists m N, Forall (fun e => is_name e = true) N ∧ q = cleaned m N.
Proof.
  induction parts as [|part parts IH]; intros d q Hparts Hd; cbn [dirPaths].
  - intros Hq. by apply elem_of_nil in Hq.
  - inversion Hparts; subst.
    assert (Hj : exists m N, Forall (fun e => is_name e = true) N
                             ∧ Join [d; part] = cleaned m N).
    { apply Join_cleaned; [done|].
      destruct Hd as [[-> Hhead]|Hd]; [left|by right].
      split; [done|]. by eapply Hhead. }
    intros [->|Hq]%elem_of_cons; [done|].
    eapply IH; [done| |exact Hq]. by right.
Qed.

End KindFacts.

(** * Properties of the directory cache *)
Module DirCacheFacts.
Import dircache PathFacts.

(** ** The cache itself *)

Lemma Get_Put_eq (d : DirCache) (path id : string) :
  Get (Put d path id) path = (id, true).
Proof. unfold Get, Put; simpl. by rewrite lookup_insert_eq. Qed.

Lemma GetInv_Put_eq (d : DirCache) (path id : string) :
  GetInv (Put d path id) id = (path, true).
Proof. unfold GetInv, Put; simpl. by rewrite lookup_insert_eq. Qed.

Lemma Get_Put_ne (d : DirCache) (path id path' : string) :
  path ≠ path' -> Get (Put d path id) path' = Get d path'.
Proof. intros Hne. unfold Get, Put; simpl. by rewrite lookup_insert_ne. Qed.

Lemma GetInv_Put_ne (d : DirCache) (path id id' : string) :
  id ≠ id' -> GetInv (Put d path id) id' = GetInv d id'.
Proof.
  intros Hne. unfold GetInv, Put; simpl. by rewrite lookup_insert_ne.
Qed.

Lemma Get_false_lookup (d : DirCache) (path : string) :
  snd (Get d path) = false <-> cache d !! path = None.
Proof. unfold Get. destruct (cache d !! path); simpl; split; congruence. Qed.

(** C8: [Put] overwrites the forward entry and leaves the inverse entry
    of the replaced ID in place: after [Put(p, id1)] and [Put(p, id2)]
    with [id1 <> id2], [Get(p)] is [(id2, true)] and [GetInv(id1)] is
    still [(p, true)]. *)
Theorem Put_overwrites_without_invalidating_inverse
        (d : DirCache) (p id1 id2 : string) :
  id1 ≠ id2 ->
  let d' := Put (Put d p id1) p id2 in
  Get d' p = (id2, true) ∧ GetInv d' id1 = (p, true).
Proof.
  intros Hne d'. split.
  - apply Get_Put_eq.
  - unfold d'. rewrite GetInv_Put_ne by congruence. apply GetInv_Put_eq.
Qed.

Lemma Put_overwrites_without_invalidating_inverse_witness :
  let d' := Put (Put (New "" "root") "docs" "id-1") "docs" "id-2" in
  Get d' "docs" = ("id-2", true) ∧ GetInv d' "id-1" = ("docs", true).
Proof.
  apply (Put_overwrites_without_invalidating_inverse
           (New "" "root") "docs" "id-1" "id-2").
  discriminate.
Defined.

Lemma ready_found {B : Type} (fs : DirCacher B) (b : B) :
  FindRoot fs (fresh "" "root" b) = (Ok "root", ready fs b) ∧
  foundRoot (dc (ready fs b)) = true ∧ cache (dc (ready fs b)) = ∅ ∧
  calls (ready fs b) = [].
Proof. done. Qed.

Ltac eval_joins :=
  repeat match goal with
         | |- context [Path.Join ?l] =>
             let v := eval vm_compute in (Path.Join l) in
             change (Path.Join l) with v
         end.

Section Resolvers.
Context {B : Type} (fs : DirCacher B).

Lemma callFindLeaf_spec (w w1 : World B) pathID leaf out found err :
  callFindLeaf fs w pathID leaf = ((out, found, err), w1) ->
  dc w1 = dc w ∧
  calls w1 = calls w ++ [FindLeafCall pathID leaf out found err].
Proof.
  unfold callFindLeaf.
  destruct (FindLeaf fs (backend w) pathID leaf) as [b' [[o f] e]].
  intros [= <- <- <- <-]. done.
Qed.

Lemma callCreateDir_eq (w : World B) pathID leaf b' newID err :
  CreateDir fs (backend w) pathID leaf = (b', (newID, err)) ->
  callCreateDir fs w pathID leaf
  = ((newID, err),
     Build_World (dc w) b'
                 (calls w ++ [CreateDirCall pathID leaf newID err])).
Proof. intros H. unfold callCreateDir. by rewrite H. Qed.

(** ** [FindDir] before [FindRoot] *)

(** C7: while [foundRoot] is unset, [FindDir] returns the internal
    error "FindRoot not called" for every path, the empty one
    included, and leaves the world as it was: no backend call is
    made. *)
Theorem FindDir_before_FindRoot (w : World B) (path : string) :
  foundRoot (dc w) = false ->
  FindDir fs path w = (Err ErrFindRootNotCalled, w).
Proof. intros Hnf. unfold FindDir. by rewrite Hnf. Qed.

(** [foundRoot] is unset by [New] and stays so when [FindRoot] fails. *)
Lemma FindRoot_failed_not_found (w w' : World B) (e : error) :
  foundRoot (dc w) = false -> FindRoot fs w = (Err e, w') ->
  foundRoot (dc w') = false.
Proof.
  intros Hnf. unfold FindRoot, _findRoot. rewrite Hnf.
  assert (Hcreate : forall todo seen lastPath (v v' : World B) r,
             findRoot_create fs seen todo lastPath v = (r, v') ->
             foundRoot (dc v') = foundRoot (dc v)).
  { induction todo as [|dir todo IH]; intros seen lastPath v v' r;
      cbn [findRoot_create]; [by intros [= _ <-]|].
    destruct (decide (dir = "")); [by apply IH|].
    destruct (Get (dc v) _) as [? []]; [by apply IH|].
    destruct (Get (dc v) _) as [parentID []]; [|by intros [= _ <-]].
    unfold callCreateDir.
    destruct (CreateDir fs (backend v) parentID dir) as [b' [newID [err|]]].
    - by intros [= _ <-].
    - intros Hrec. by apply IH in Hrec. }
  destruct (decide (root (dc w) = "")); [done|].
  destruct (findRoot_cached _ _ _ _) as [parentID []]; [done|].
  destruct (findRoot_create _ _ _ _ _) as [[lastPath|e'] w1] eqn:Hc.
  - apply Hcreate in Hc. destruct (Get (dc w1) lastPath) as [id []];
      [done|]. intros [= _ <-]. congruence.
  - apply Hcreate in Hc. intros [= _ <-]. congruence.
Qed.

(** ** [FindRoot] on a fresh cache *)

(** C1: on a cache made by [New] with root "a/b/c", whatever the true
    root ID and the backend, [FindRoot] returns "couldn't find parent
    directory" for the parent path "" and calls the backend not at
    all: [New] never stores the true root under "", where the
    second loop looks up the parent of the first segment. *)
Theorem FindRoot_abc_fresh_fails (b : B) (trueID : string) :
  FindRoot fs (fresh "a/b/c" trueID b)
  = (Err (ErrCouldntFindParent ""), fresh "a/b/c" trueID b).
Proof. vm_compute. reflexivity. Qed.

(** The same happens for every root made of names: the first segment is
    never in a fresh cache and its parent "" is not either. *)
Lemma FindRoot_fresh_fails (b : B) (root trueID : string) :
  Path.plain root = true ->
  FindRoot fs (fresh root trueID b)
  = (Err (ErrCouldntFindParent ""), fresh root trueID b).
Proof.
  intros Hplain.
  assert (Hne : root ≠ "") by (intros ->; by vm_compute in Hplain).
  unfold Path.plain in Hplain.
  unfold FindRoot, _findRoot, fresh. cbn [dc New foundRoot dircache.root].
  rewrite decide_False by done.
  pose proof (Split_nonnil root) as Hnn.
  destruct (Path.Split root) as [|dir rest]; [done|].
  cbn [forallb] in Hplain. apply andb_true_iff in Hplain as [Hdir _].
  assert (Hjoin : Path.Join [dir] = dir).
  { apply (Join_names [] dir); [constructor|done]. }
  apply is_name_spec in Hdir as (_ & Hdir & _).
  cbn [findRoot_cached findRoot_create app].
  rewrite !decide_False by done. rewrite Hjoin.
  unfold Get. cbn [cache dc New]. by rewrite !lookup_empty.
Qed.

(** Had the true root been cached under "", [FindRoot] would do what
    is expected of it: three [CreateDir] calls for "a", "b" and "c",
    the first under the true root and each next one under the ID
    made before it. *)
Lemma FindRoot_abc_seeded (b0 b1 b2 b3 : B) (trueID id1 id2 id3 : string) :
  CreateDir fs b0 trueID "a" = (b1, (id1, None)) ->
  CreateDir fs b1 id1 "b" = (b2, (id2, None)) ->
  CreateDir fs b2 id2 "c" = (b3, (id3, None)) ->
  let w := Build_World (Put (New "a/b/c" trueID) "" trueID) b0 [] in
  exists w',
    FindRoot fs w = (Ok id3, w') ∧
    calls w' = [CreateDirCall trueID "a" id1 None;
                CreateDirCall id1 "b" id2 None;
                CreateDirCall id2 "c" id3 None] ∧
    Get (dc w') "a" = (id1, true) ∧ Get (dc w') "a/b" = (id2, true) ∧
    Get (dc w') "a/b/c" = (id3, true) ∧ foundRoot (dc w') = true ∧
    rootID (dc w') = id3.
Proof.
  intros H1 H2 H3 w. eexists. split.
  - unfold FindRoot, _findRoot, w. cbn [dc foundRoot Put New root].
    rewrite decide_False by done.
    change (Path.Split "a/b/c") with ["a"; "b"; "c"].
    repeat first
      [ erewrite callCreateDir_eq by eassumption
      | progress cbn [findRoot_cached findRoot_create app dc backend calls
                      cache Put New]
      | progress eval_joins
      | rewrite decide_False by done
      | rewrite lookup_insert_eq
      | rewrite lookup_insert_ne by done
      | rewrite lookup_empty
      | progress unfold Get, with_dc ].
    reflexivity.
  - cbn [calls dc with_dc set_found]. split; [done|].
    unfold Get; cbn [cache Put New dc set_found foundRoot rootID].
    rewrite lookup_insert_eq.
    rewrite !lookup_insert_ne by done. rewrite lookup_insert_eq.
    rewrite !lookup_insert_ne by done. rewrite lookup_insert_eq.
    done.
Qed.

(** ** [FindDir] and a leaf the backend does not know *)

Lemma lookup_post_one path parts (w w1 : World B) c r :
  calls w1 = calls w ++ [c] -> is_FindLeaf c = true -> dc w1 = dc w ->
  (not_found_call c -> r = Err (ErrCouldntFindDirectory path)) ->
  lookup_post path parts w w1 r.
Proof.
  intros Hcalls Hc Hdc Hr. exists [c].
  split; [done|]. split; [by repeat constructor|]. split; [done|].
  intros [|? [|? ?]] c' [=] Hnf; subst. by split; [apply Hr|].
Qed.

Lemma findDir_lookup_calls path parts :
  forall parentID dirPath (w w' : World B) r,
    findDir_lookup fs path parts parentID dirPath w = (r, w') ->
    lookup_post path parts w w' r.
Proof.
  induction parts as [|part rest IH]; intros parentID dirPath w w' r; simpl.
  - intros [= <- <-]. exists []. rewrite app_nil_r.
    split; [done|]. split; [constructor|]. split; [done|].
    intros pre c Hpre _. by destruct pre.
  - destruct (callFindLeaf fs w parentID part)
      as [[[out found] err] w1] eqn:Hc.
    apply callFindLeaf_spec in Hc as [Hdc Hcalls].
    destruct err as [e|]; [|destruct found]; cbn.
    + intros Hret.
      assert ((Err e, w1) = (r, w')) as [= <- <-] by by destruct found.
      eapply lookup_post_one; [exact Hcalls|done|done|].
      by destruct found.
    + intros Hrec. apply IH in Hrec as (new & Hn & Hall & _ & Hnf).
      simpl in Hn. rewrite Hcalls, <- app_assoc in Hn.
      eexists. split; [exact Hn|].
      split; [by constructor|]. split; [done|].
      intros pre c Hpre Hc.
      destruct pre as [|c0 pre]; simpl in Hpre.
      { injection Hpre as <- <-. done. }
      injection Hpre as <- ->.
      destruct (Hnf pre c eq_refl Hc) as [-> _]. done.
    + intros [= <- <-]. by eapply lookup_post_one.
Qed.

Lemma FindDir_calls (w w' : World B) (path : string) (r : result) :
  FindDir fs path w = (r, w') ->
  exists new, calls w' = calls w ++ new ∧
    Forall (fun c => is_FindLeaf c = true) new ∧
    (forall pre c, new = pre ++ [c] -> not_found_call c ->
       r = Err (ErrCouldntFindDirectory path) ∧
       (pre = [] -> dc w' = dc w)).
Proof.
  unfold FindDir.
  assert (Hnil : (r, w') = (r, w) -> w' = w -> exists new,
             calls w' = calls w ++ new ∧
             Forall (fun c => is_FindLeaf c = true) new ∧
             (forall pre c, new = pre ++ [c] -> not_found_call c ->
                r = Err (ErrCouldntFindDirectory path) ∧
                (pre = [] -> dc w' = dc w))).
  { intros _ ->. exists []. rewrite app_nil_r. split; [done|].
    split; [constructor|]. intros pre c Hpre _. by destruct pre. }
  destruct (negb (foundRoot (dc w))).
  { intros [= <- <-]. by apply Hnil. }
  destruct (decide (path = "")).
  { intros [= <- <-]. by apply Hnil. }
  destruct (findDir_cached _ _ _ _ _) as [[parentID dirPath] partsToFind].
  intros Hl. apply findDir_lookup_calls in Hl as (new & ? & ? & _ & ?).
  by exists new.
Qed.




(** ** A successful [FindDir] does not cache its own path *)

Lemma plain_names (p : string) :
  Path.plain p = true ->
  Forall (fun e => Path.is_name e = true) (Path.Split p).
Proof.
  unfold Path.plain. rewrite forallb_forall, Forall_forall.
  intros H x Hx. apply H. by apply list_elem_of_In.
Qed.

Import Path PathObs KindFacts.

Lemma dirPaths_last (parts : list string) :
  forall dirPath,
    parts ≠ [] ->
    foldl (fun d part => Join [d; part]) dirPath parts
    ∈ dirPaths dirPath parts.
Proof.
  induction parts as [|part parts IH]; intros dirPath Hne; [done|].
  cbn [foldl dirPaths]. destruct parts as [|part' parts].
  - apply elem_of_cons. by left.
  - apply elem_of_cons. right. by apply IH.
Qed.

(** The first loop only adds to [partsToFind], and adds something when
    one of the paths it looks up is not cached. *)
Lemma findDir_cached_more (d : DirCache) (parts : list string) :
  forall parentID dirPath partsToFind parentID' dirPath' partsToFind',
    findDir_cached d parts parentID dirPath partsToFind
    = (parentID', dirPath', partsToFind') ->
    dirPath' = foldl (fun d part => Join [d; part]) dirPath parts ∧
    exists more,
      partsToFind' = partsToFind ++ more ∧
      (forall u, u ∈ dirPaths dirPath parts -> cache d !! u = None ->
                 more ≠ []) ∧
      (forall P : string -> Prop, Forall P parts -> Forall P more).
Proof.
  induction parts as [|part parts IH];
    intros parentID dirPath ptf parentID' dirPath' ptf';
    cbn [findDir_cached dirPaths foldl].
  - intros [= <- <- <-]. split; [done|]. exists []. rewrite app_nil_r.
    split; [done|]. split; [|done].
    intros u Hu. by apply elem_of_nil in Hu.
  - unfold Get.
    destruct (cache d !! Join [dirPath; part]) as [dirID|] eqn:Hget.
    + intros (-> & more & -> & Hmiss & Hsub)%IH. split; [done|].
      exists more. split; [done|]. split.
      * intros u [->|Hu]%elem_of_cons Hnone; [congruence|].
        by eapply Hmiss.
      * intros P HP. inversion HP; subst. by apply Hsub.
    + intros (-> & more & -> & Hmiss & Hsub)%IH. split; [done|].
      exists (part :: more). split; [by rewrite <- app_assoc|].
      split; [done|].
      intros P HP. inversion HP; subst. constructor; [done|by apply Hsub].
Qed.

(** The first loop on a path whose kept segments are of kind [k], from
    a [dirPath] that stands for the segments [L]: the final [dirPath]
    stands for [L] and the kept segments of [parts]; and when nothing
    was to be found so far and [dirPath] is cached, the first part to
    find is one of kind [k], whose own path is not cached. *)
Lemma findDir_cached_kind (k : bool) (d : DirCache) (parts : list string) :
  forall L parentID partsToFind parentID' dirPath' partsToFind',
    Forall (fun e => in_kind k e = true) L ->
    Forall (fun e => valid k e = true) parts ->
    findDir_cached d parts parentID (repr L) partsToFind
    = (parentID', dirPath', partsToFind') ->
    dirPath' = repr (L ++ List.filter (in_kind k) parts) ∧
    exists more,
      partsToFind' = partsToFind ++ more ∧
      Forall (fun e => valid k e = true) more ∧
      (is_Some (cache d !! repr L) ->
       match more with
       | [] => True
       | e0 :: _ =>
           in_kind k e0 = true ∧
           exists P, Forall (fun e => in_kind k e = true) P ∧ P ≠ [] ∧
                     length P <= length (L ++ List.filter (in_kind k) parts) ∧
                     JoinSep P ∈ dirPaths (repr L) parts ∧
                     cache d !! JoinSep P = None
       end).
Proof.
  induction parts as [|part parts IH];
    intros L parentID ptf parentID' dirPath' ptf' HL Hparts;
    cbn [findDir_cached dirPaths List.filter].
  - intros [= <- <- <-]. rewrite !app_nil_r. split; [done|]. exists [].
    by rewrite app_nil_r.
  - inversion Hparts as [|? ? Hpart Hparts']; subst.
    rewrite (Join_repr k) by done.
    assert (HL' : Forall (fun e => in_kind k e = true) (L ++ brings k part)).
    { apply Forall_app. split; [done|]. unfold brings.
      destruct (in_kind k part) eqn:Hk; by repeat constructor. }
    assert (Happ : (L ++ brings k part) ++ List.filter (in_kind k) parts
                   = L ++ (if in_kind k part
                           then part :: List.filter (in_kind k) parts
                           else List.filter (in_kind k) parts)).
    { unfold brings. rewrite <- app_assoc. by destruct (in_kind k part). }
    unfold Get.
    destruct (cache d !! repr (L ++ brings k part)) as [dirID|] eqn:Hget.
    + intros (-> & more & -> & Hvalid & Hfirst)%IH; try done.
      rewrite Happ. split; [done|]. exists more.
      split; [done|]. split; [done|]. intros _.
      specialize (Hfirst ltac:(by eexists)).
      destruct more as [|e0 more]; [done|].
      destruct Hfirst as (He0 & P & HP & Hne & Hlen & Hin & Hnone).
      split; [done|]. exists P. rewrite Happ in Hlen.
      repeat split; try done. apply elem_of_cons. by right.
    + intros (-> & more & -> & Hvalid & _)%IH; try done.
      rewrite Happ. split; [done|]. exists (part :: more).
      split; [by rewrite <- app_assoc|]. split; [by constructor|].
      intros [x Hx]. unfold brings in Hget.
      destruct (in_kind k part) eqn:Hk.
      * split; [done|]. exists (L ++ [part]).
        assert (Hrepr : repr (L ++ [part]) = JoinSep (L ++ [part]))
          by by destruct L.
        rewrite Hrepr in Hget.
        repeat split.
        -- apply Forall_app. split; [done|by constructor].
        -- by destruct L.
        -- rewrite !length_app. cbn. lia.
        -- apply elem_of_cons. left. unfold brings. by rewrite Hk.
        -- done.
      * rewrite app_nil_r in Hget. congruence.
Qed.

(** The second loop stores under the values its [dirPath] takes, and
    nowhere else. *)
Lemma findDir_lookup_frame path parts :
  forall parentID dirPath (w w' : World B) r,
    findDir_lookup fs path parts parentID dirPath w = (r, w') ->
    foundRoot (dc w') = foundRoot (dc w) ∧
    forall q, q ∉ dirPaths dirPath parts ->
              cache (dc w') !! q = cache (dc w) !! q.
Proof.
  induction parts as [|part rest IH];
    intros parentID dirPath w w' r; cbn [findDir_lookup dirPaths].
  - by intros [= <- <-].
  - destruct (callFindLeaf fs w parentID part)
      as [[[out found] err] w1] eqn:Hc.
    apply callFindLeaf_spec in Hc as [Hdc Hcalls].
    destruct err as [e|]; [|destruct found]; cbv beta iota zeta.
    + intros Hret.
      assert ((Err e, w1) = (r, w')) as [= <- <-] by by destruct found.
      by rewrite Hdc.
    + intros [Hfound Hcache]%IH.
      cbn [with_dc dc Put foundRoot cache] in Hfound, Hcache.
      rewrite Hdc in *. split; [done|]. intros q Hq.
      apply not_elem_of_cons in Hq as [Hne Hq].
      rewrite Hcache by done. by apply lookup_insert_ne.
    + intros [= <- <-]. by rewrite Hdc.
Qed.

(** Where the second loop stores, on a path of kind [k]: under cleaned
    paths that extend the one it starts from, by at least one segment
    when the first part to find is of kind [k]. *)
Lemma dirPaths_kind (k : bool) (parts : list string) :
  forall L q,
    Forall (fun e => in_kind k e = true) L -> L ≠ [] ->
    Forall (fun e => valid k e = true) parts ->
    q ∈ dirPaths (JoinSep L) parts ->
    exists X, Forall (fun e => in_kind k e = true) X ∧
              q = JoinSep (L ++ X) ∧
              (forall e0 t, parts = e0 :: t -> in_kind k e0 = true ->
                            X ≠ []).
Proof.
  induction parts as [|part parts IH]; intros L q HL Hne Hparts;
    cbn [dirPaths].
  - intros Hq. by apply elem_of_nil in Hq.
  - inversion Hparts as [|? ? Hpart Hparts']; subst.
    assert (Hrepr : forall M, M ≠ [] -> repr M = JoinSep M)
      by (intros M HM; by destruct M).
    rewrite <- (Hrepr L Hne), (Join_repr k) by done.
    assert (HL' : Forall (fun e => in_kind k e = true) (L ++ brings k part)).
    { apply Forall_app. split; [done|]. unfold brings.
      destruct (in_kind k part) eqn:Hk; by repeat constructor. }
    assert (Hne' : L ++ brings k part ≠ []) by by destruct L.
    rewrite (Hrepr _ Hne').
    intros [->|Hq]%elem_of_cons.
    + exists (brings k part). unfold brings.
      split; [destruct (in_kind k part) eqn:Hk; by repeat constructor|].
      split; [done|]. intros e0 t [= <- <-] Hk. by rewrite Hk.
    + apply IH in Hq as (X & HX & -> & _); try done.
      exists (brings k part ++ X). split; [|split].
      * apply Forall_app. split; [|done]. unfold brings.
        destruct (in_kind k part) eqn:Hk; by repeat constructor.
      * by rewrite <- app_assoc.
      * intros e0 t [= <- <-] Hk. unfold brings. by rewrite Hk.
Qed.

(** The first loop of [FindDir] on a relative path of kind [k]: where
    it ends, and which part it finds missing first. *)
Lemma findDir_cached_first (k : bool) (d : DirCache) (e1 : string)
      (rest : list string) parentID parentID' dirPath' partsToFind :
  e1 ≠ "" ->
  Forall (fun e => valid k e = true) (e1 :: rest) ->
  findDir_cached d (e1 :: rest) parentID "" []
  = (parentID', dirPath', partsToFind) ->
  dirPath' = repr (List.filter (in_kind k) (e1 :: rest)) ∧
  Forall (fun e => valid k e = true) partsToFind ∧
  match partsToFind with
  | [] => True
  | e0 :: _ =>
      (in_kind k e0 = true ∧
       exists P, Forall (fun e => in_kind k e = true) P ∧ P ≠ [] ∧
                 length P <= length (List.filter (in_kind k) (e1 :: rest)) ∧
                 JoinSep P ∈ dirPaths "" (e1 :: rest) ∧
                 cache d !! JoinSep P = None)
      ∨ (e1 = "." ∧ "." ∈ dirPaths "" (e1 :: rest) ∧ cache d !! "." = None)
  end.
Proof.
  intros Hne Hparts. inversion Hparts as [|? ? He1 Hrest]; subst.
  cbn [findDir_cached dirPaths List.filter].
  rewrite (Join_start k) by done.
  assert (Hb : Forall (fun e => in_kind k e = true) (brings k e1)).
  { unfold brings. destruct (in_kind k e1) eqn:Hk; by repeat constructor. }
  assert (Happ : brings k e1 ++ List.filter (in_kind k) rest
                 = if in_kind k e1
                   then e1 :: List.filter (in_kind k) rest
                   else List.filter (in_kind k) rest).
  { unfold brings. by destruct (in_kind k e1). }
  unfold Get. destruct (cache d !! repr (brings k e1)) as [dirID|] eqn:Hget.
  - intros (-> & more & -> & Hvalid & Hfirst)%(findDir_cached_kind k);
      try done.
    rewrite Happ. cbn [app]. split; [done|]. split; [done|].
    specialize (Hfirst ltac:(by eexists)).
    destruct more as [|e0 more]; [done|]. left.
    destruct Hfirst as (He0 & P & HP & HPne & Hlen & Hin & Hnone).
    split; [done|]. exists P. rewrite Happ in Hlen.
    repeat split; try done. apply elem_of_cons. by right.
  - intros (-> & more & -> & Hvalid & _)%(findDir_cached_kind k); try done.
    rewrite Happ. cbn [app]. split; [done|]. split; [by constructor|].
    unfold brings in Hget. destruct (in_kind k e1) eqn:Hk.
    + left. split; [done|]. exists [e1]. repeat split.
      * by repeat constructor.
      * done.
      * cbn. lia.
      * apply elem_of_cons. left. unfold brings. by rewrite Hk.
      * done.
    + right. unfold valid in He1. rewrite Hk in He1. cbn [orb] in He1.
      apply is_filler_spec in He1 as [_ [?| ->]]; [done|].
      split; [done|]. split; [|done].
      apply elem_of_cons. left. unfold brings. by rewrite Hk.
Qed.

(** On a relative path that has a name among its segments or a ".."
    among them, but not both, a successful [FindDir] does not store
    under the path it was given; if it called the backend, a second
    [FindDir] of the same path calls it again; and it did call the
    backend if the path has no empty and no "." segment. *)
Lemma FindDir_one_kind (w w' : World B) (p id : string) :
  foundRoot (dc w) = true ->
  p ≠ "" -> is_rooted p = false -> one_kind p = true ->
  snd (Get (dc w) p) = false ->
  FindDir fs p w = (Ok id, w') ->
  snd (Get (dc w') p) = false ∧
  (forall r2 w2, FindDir fs p w' = (r2, w2) -> calls w' ≠ calls w ->
     exists c new, calls w2 = calls w' ++ c :: new ∧ is_FindLeaf c = true) ∧
  (no_filler p = true -> calls w' ≠ calls w).
Proof.
  intros Hfound Hp Hrel Hkind Hmiss Hrun.
  apply Get_false_lookup in Hmiss.
  destruct (one_kind_valid p Hkind) as (k & Hvalid & Hex).
  pose proof (JoinSep_Split p) as Hjoin.
  destruct (Split p) as [|e1 rest] eqn:Hsplit; [by inversion Hex|].
  assert (He1 : e1 ≠ "").
  { intros ->. apply Split_head in Hsplit as [?|?]; congruence. }
  remember (e1 :: rest) as parts eqn:Hparts_eq.
  remember (List.filter (in_kind k) parts) as Lf eqn:HeqLf.
  assert (HLf : Forall (fun e => in_kind k e = true) Lf).
  { subst Lf. apply Forall_forall.
    intros e He%list_elem_of_In%filter_In. by destruct He. }
  assert (HLfne : Lf ≠ []).
  { apply Exists_exists in Hex as (e & He & Hk). intros Hnil.
    assert (Hin : In e Lf)
      by (subst Lf; apply filter_In; split; [by apply list_elem_of_In|done]).
    by rewrite Hnil in Hin. }
  assert (Hrepr : repr Lf = JoinSep Lf) by by destruct Lf.
  unfold FindDir in Hrun. rewrite Hfound, decide_False in Hrun by done.
  cbn [negb] in Hrun. rewrite Hsplit in Hrun.
  destruct (findDir_cached (dc w) parts (rootID (dc w)) "" [])
    as [[parentID dirPath] partsToFind] eqn:Hloop1.
  pose proof (findDir_cached_more _ _ _ _ _ _ _ _ Hloop1)
    as (Hfold & more & Hmore & Hmissing & Hsub).
  cbn [app] in Hmore. subst more.
  rewrite Hparts_eq in Hloop1.
  apply (findDir_cached_first k) in Hloop1 as (-> & Hptf & Hfirst);
    [|done|by rewrite <- Hparts_eq].
  rewrite <- Hparts_eq, <- HeqLf in *. rewrite Hrepr in *.
  pose proof (findDir_lookup_calls _ _ _ _ _ _ _ Hrun)
    as (new & Hnew & _ & Hnewne & _).
  assert (Hnocall : partsToFind = [] -> calls w' = calls w).
  { intros ->. cbn [findDir_lookup] in Hrun. by injection Hrun as _ <-. }
  apply findDir_lookup_frame in Hrun as [Hfound' Hframe].
  (* the keys of the second loop extend [Lf] *)
  assert (Hkeys : forall q, q ∈ dirPaths (JoinSep Lf) partsToFind ->
            exists X, Forall (fun e => in_kind k e = true) X ∧
                      q = JoinSep (Lf ++ X) ∧
                      (forall e0 t, partsToFind = e0 :: t ->
                                    in_kind k e0 = true -> X ≠ [])).
  { intros q. by apply dirPaths_kind. }
  assert (Hsepk : forall M, Forall (fun e => in_kind k e = true) M ->
                            Forall (fun e => has_sep e = false) M)
    by (intros M; apply kind_no_sep).
  (* a path that is missed first is not one of these keys *)
  assert (Hfresh : partsToFind ≠ [] ->
            exists u, u ∈ dirPaths "" parts ∧ cache (dc w') !! u = None).
  { intros Hne. destruct partsToFind as [|e0 t]; [done|].
    destruct Hfirst as [(He0 & P & HP & HPne & Hlen & Hin & Hnone)
                       |(_ & Hin & Hnone)].
    - exists (JoinSep P). split; [done|]. rewrite Hframe; [done|].
      intros (X & HX & Heq & HXne)%Hkeys.
      specialize (HXne _ _ eq_refl He0).
      apply JoinSep_inj in Heq; [|done|by destruct Lf|by apply Hsepk|].
      + subst P. rewrite length_app in Hlen.
        destruct X; [done|]. cbn in Hlen. lia.
      + apply Hsepk, Forall_app. by split.
    - exists ".". split; [done|]. rewrite Hframe; [done|].
      intros (X & HX & Heq & _)%Hkeys. symmetry in Heq.
      apply (JoinSep_kind_not_dot k) in Heq; [done|by destruct Lf|].
      apply Forall_app. by split. }
  split; [|split].
  - apply Get_false_lookup. rewrite Hframe; [done|].
    intros Hin. pose proof Hin as (X & HX & Heq & HXne)%Hkeys.
    assert (Hparts : parts = Lf ++ X).
    { rewrite <- Hjoin in Heq.
      apply JoinSep_inj in Heq;
        [done|by rewrite Hparts_eq|by destruct Lf| |].
      - rewrite <- Hsplit. apply Split_no_sep.
      - apply Hsepk, Forall_app. by split. }
    assert (HX0 : X = []).
    { assert (Hall : List.filter (in_kind k) (Lf ++ X) = Lf ++ X).
      { apply forallb_filter_id, forallb_forall.
        intros e He%list_elem_of_In.
        assert (HLX : Forall (fun e => in_kind k e = true) (Lf ++ X))
          by (apply Forall_app; by split).
        rewrite Forall_forall in HLX. by apply HLX. }
      assert (Hsame : Lf = Lf ++ X)
        by (rewrite HeqLf at 1; by rewrite Hparts).
      apply (f_equal length) in Hsame. rewrite length_app in Hsame.
      destruct X; [done|]. cbn in Hsame. lia. }
    subst X. rewrite app_nil_r in Hparts.
    destruct partsToFind as [|e0 t]; [by apply elem_of_nil in Hin|].
    destruct Hfirst as [(He0 & _)|(Hdot & _)].
    + by destruct (HXne _ _ eq_refl He0).
    + rewrite <- Hparts, Hparts_eq in HLf.
      inversion HLf as [|? ? Hk1 _]; subst.
      by apply in_kind_spec in Hk1 as (_ & _ & ? & _).
  - intros r2 w2 Hrun2 Hcalls.
    assert (Hne : partsToFind ≠ []).
    { intros ->. by apply Hcalls, Hnocall. }
    destruct (Hfresh Hne) as (u & Hu & Hnone).
    unfold FindDir in Hrun2.
    rewrite Hfound', Hfound, decide_False in Hrun2 by done.
    cbn [negb] in Hrun2. rewrite Hsplit in Hrun2.
    destruct (findDir_cached (dc w') parts (rootID (dc w')) "" [])
      as [[parentID2 dirPath2] partsToFind2] eqn:Hloop2.
    apply findDir_cached_more in Hloop2 as (_ & more & -> & Hmiss2 & _).
    cbn [app] in Hrun2.
    apply findDir_lookup_calls in Hrun2 as (new2 & Hnew2 & Hall2 & Hne2 & _).
    specialize (Hne2 (Hmiss2 u Hu Hnone)).
    destruct new2 as [|c new2]; [done|].
    inversion Hall2; subst. by exists c, new2.
  - intros Hnf Hsame.
    assert (Hall : Lf = parts).
    { rewrite HeqLf. apply forallb_filter_id, forallb_forall.
      intros e He. unfold no_filler in Hnf. rewrite Hsplit in Hnf.
      rewrite forallb_forall in Hnf. specialize (Hnf e He).
      rewrite Forall_forall in Hvalid.
      apply list_elem_of_In, Hvalid in He. unfold valid in He.
      destruct (is_filler e); [done|]. by rewrite orb_false_r in He. }
    rewrite Hall, Hjoin in Hfold.
    assert (Hin : p ∈ dirPaths "" parts).
    { rewrite Hfold at 1. apply dirPaths_last. by rewrite Hparts_eq. }
    specialize (Hnewne (Hmissing p Hin Hmiss)).
    rewrite Hnew in Hsame. rewrite <- (app_nil_r (calls w)) in Hsame at 2.
    by apply app_inv_head in Hsame.
Qed.

(** On a relative path that is not in cleaned form, a successful
    [FindDir] does not store under the path it was given: the keys it
    stores under come from [filepath.Join], which cleans them. *)
Lemma FindDir_not_cleaned (w w' : World B) (p id : string) :
  foundRoot (dc w) = true ->
  p ≠ "" -> is_rooted p = false -> Clean p ≠ p ->
  snd (Get (dc w) p) = false ->
  FindDir fs p w = (Ok id, w') ->
  snd (Get (dc w') p) = false.
Proof.
  intros Hfound Hp Hrel Hclean Hmiss Hrun.
  apply Get_false_lookup in Hmiss. apply Get_false_lookup.
  pose proof (Split_no_sep p) as Hsep.
  pose proof (Split_nonnil p) as Hnn.
  assert (Hhead : forall e t, Split p = e :: t -> e ≠ "").
  { intros e t Hs ->. apply Split_head in Hs as [?|?]; congruence. }
  unfold FindDir in Hrun. rewrite Hfound, decide_False in Hrun by done.
  cbn [negb] in Hrun.
  destruct (findDir_cached (dc w) (Split p) (rootID (dc w)) "" [])
    as [[parentID dirPath] partsToFind] eqn:Hloop1.
  apply findDir_cached_more in Hloop1 as (Hfold & more & Hmore & _ & Hsub).
  cbn [app] in Hmore. subst more.
  apply findDir_lookup_frame in Hrun as [_ Hframe].
  rewrite Hframe; [done|]. intros Hin.
  assert (Hd : exists m N, Forall (fun e => is_name e = true) N
                           ∧ dirPath = cleaned m N).
  { apply (dirPaths_cleaned (Split p) ""); [done|by left|].
    rewrite Hfold. by apply dirPaths_last. }
  apply dirPaths_cleaned in Hin as (m & N & HN & ->);
    [|by apply Hsub|by right].
  by destruct (cleaned_spec m N HN) as (_ & _ & ?).
Qed.

(** C6, as the code has it.  Let the path be relative, not empty and
    not in the forward cache, and let [FindDir] succeed on it after
    [FindRoot].  If the path is not in cleaned form, or has a name among
    its segments or a ".." among them, but not both, then [Get] of that
    path is still at [ok = false].  In the second case a second
    [FindDir] of the same path calls the backend's [FindLeaf] again if
    the first called the backend, which it did if the path has no empty
    and no "." segment. *)
Theorem FindDir_result_not_cached (w w' : World B) (p id : string) :
  foundRoot (dc w) = true ->
  p ≠ "" -> is_rooted p = false ->
  snd (Get (dc w) p) = false ->
  FindDir fs p w = (Ok id, w') ->
  (Clean p ≠ p ∨ one_kind p = true -> snd (Get (dc w') p) = false) ∧
  (one_kind p = true ->
   (forall r2 w2, FindDir fs p w' = (r2, w2) -> calls w' ≠ calls w ->
      exists c new, calls w2 = calls w' ++ c :: new ∧ is_FindLeaf c = true) ∧
   (no_filler p = true -> calls w' ≠ calls w)).
Proof.
  intros Hfound Hp Hrel Hmiss Hrun. split.
  - intros [Hclean|Hkind].
    + by eapply FindDir_not_cleaned.
    + by eapply FindDir_one_kind.
  - intros Hkind.
    by destruct (FindDir_one_kind w w' p id) as (_ & ? & ?).
Qed.

(** ** [FindDir] on a cached path *)

(** With "x" and "x/y" both cached, [FindDir] of "x/y" returns the
    cached ID and leaves the backend alone. *)
Lemma FindDir_xy_prefix_cached (w : World B) (idx id : string) :
  foundRoot (dc w) = true ->
  cache (dc w) !! "x" = Some idx -> cache (dc w) !! "x/y" = Some id ->
  FindDir fs "x/y" w = (Ok id, w).
Proof.
  intros Hfound Hx Hxy. unfold FindDir. rewrite Hfound. cbn [negb].
  rewrite decide_False by done.
  change (Path.Split "x/y") with ["x"; "y"].
  cbn [findDir_cached]. eval_joins. unfold Get. by rewrite Hx, Hxy.
Qed.

(** With "x/y" cached and "x" not, the first loop of [FindDir] takes
    the cached ID as parent and still keeps "x" among the parts to
    find, so the second loop asks the backend for the leaf "x" under
    the directory "x/y". *)
Lemma FindDir_xy_only (w : World B) (id : string) :
  foundRoot (dc w) = true ->
  cache (dc w) !! "x" = None -> cache (dc w) !! "x/y" = Some id ->
  exists b' out found err,
    FindLeaf fs (backend w) id "x" = (b', (out, found, err)) ∧
    calls (snd (FindDir fs "x/y" w))
    = calls w ++ [FindLeafCall id "x" out found err] ∧
    fst (FindDir fs "x/y" w)
    = match err with
      | Some e => Err e
      | None => if found then Ok out
                else Err (ErrCouldntFindDirectory "x/y")
      end.
Proof.
  intros Hfound Hx Hxy.
  destruct (FindLeaf fs (backend w) id "x") as [b' [[out found] err]] eqn:Hf.
  exists b', out, found, err. split; [done|].
  unfold FindDir. rewrite Hfound. cbn [negb].
  rewrite decide_False by done.
  change (Path.Split "x/y") with ["x"; "y"].
  cbn [findDir_cached]. eval_joins. unfold Get. rewrite Hx, Hxy.
  cbn [app findDir_lookup]. unfold callFindLeaf. rewrite Hf.
  by destruct err as [e|], found.
Qed.

(** C4: after [New("", "root", fs)], [FindRoot] and [Put("x/y", id)],
    which leaves "x/y" cached, [FindDir] of "x/y" makes one
    [FindLeaf] call, for the leaf "x" under [id], and returns what that
    call answers instead of the cached ID. *)
Theorem FindDir_xy_cached_asks_backend (b : B) (id : string) :
  let w := with_dc (ready fs b) (Put (dc (ready fs b)) "x/y" id) in
  Get (dc w) "x/y" = (id, true) ∧
  exists b' out found err,
    FindLeaf fs b id "x" = (b', (out, found, err)) ∧
    calls (snd (FindDir fs "x/y" w)) = [FindLeafCall id "x" out found err] ∧
    fst (FindDir fs "x/y" w)
    = match err with
      | Some e => Err e
      | None => if found then Ok out
                else Err (ErrCouldntFindDirectory "x/y")
      end.
Proof.
  intros w. split; [apply Get_Put_eq|].
  apply (FindDir_xy_only w id); [done|done|].
  unfold w. cbn [with_dc dc cache Put]. apply lookup_insert_eq.
Qed.

End Resolvers.

(** ** The resolvers on concrete backends *)

Lemma FindDir_before_FindRoot_witness :
  foundRoot (dc (fresh "a/b" "root" ())) = false ∧
  FindDir Backends.everything "" (fresh "a/b" "root" ())
  = (Err ErrFindRootNotCalled, fresh "a/b" "root" ()).
Proof.
  split; [reflexivity|].
  apply (FindDir_before_FindRoot Backends.everything). reflexivity.
Defined.



(** C6 as stated fails: "." is a relative path and not empty; on an
    empty cache and a backend that finds every leaf, [FindDir] of "."
    succeeds and stores its result under ".", since [filepath.Join]
    cleans "./." back to ".". *)
Lemma FindDir_dot_caches_its_own_path :
  let w := ready Backends.everything () in
  Path.is_rooted "." = false ∧ snd (Get (dc w) ".") = false ∧
  exists id w',
    FindDir Backends.everything "." w = (Ok id, w') ∧
    Get (dc w') "." = (id, true).
Proof.
  intros w. split; [reflexivity|]. split; [reflexivity|].
  exists "root/.". eexists. split; vm_compute; reflexivity.
Qed.

(** The same happens on "../a": the second loop walks from "../a" up to
    ".." and down again to "../a". *)
Lemma FindDir_dotdot_name_caches_its_own_path :
  let w := ready Backends.everything () in
  snd (Get (dc w) "../a") = false ∧
  exists id w',
    FindDir Backends.everything "../a" w = (Ok id, w') ∧
    Get (dc w') "../a" = (id, true).
Proof.
  intros w. split; [reflexivity|].
  eexists _, _. split; vm_compute; reflexivity.
Qed.

(** On "a/.." the path itself stays out of the cache, but the two paths
    the first loop looks up, "a" and ".", are both stored under by the
    second loop: a second [FindDir] makes no backend call. *)
Lemma FindDir_name_dotdot_is_not_looked_up_again :
  let w := ready Backends.everything () in
  let run := FindDir Backends.everything "a/.." w in
  exists id, run.1 = Ok id ∧ snd (Get (dc run.2) "a/..") = false ∧
             length (calls run.2) = 2 ∧
             FindDir Backends.everything "a/.." run.2 = (Ok id, run.2).
Proof. intros w run. eexists. repeat split; vm_compute; reflexivity. Qed.

(** A path that is not in cleaned form can be resolved from the cache
    alone though it is not a key of the cache: with "a" cached,
    [FindDir] of "a/" makes no backend call, the first time and any
    other time. *)
Lemma FindDir_uncleaned_path_without_call :
  let w0 := ready Backends.everything () in
  let w := with_dc w0 (Put (dc w0) "a" "id-a") in
  snd (Get (dc w) "a/") = false ∧
  FindDir Backends.everything "a/" w = (Ok "id-a", w).
Proof. intros w0 w. split; vm_compute; reflexivity. Qed.

Lemma FindDir_result_not_cached_witness :
  let w := ready Backends.everything () in
  let run := FindDir Backends.everything "a//b" w in
  run.1 = Ok "root/a//b" ∧
  snd (Get (dc run.2) "a//b") = false ∧
  forall r2 w2,
    FindDir Backends.everything "a//b" run.2 = (r2, w2) ->
    exists c new, calls w2 = calls run.2 ++ c :: new ∧ is_FindLeaf c = true.
Proof.
  intros w run. split; [reflexivity|].
  destruct (FindDir_result_not_cached Backends.everything w run.2
              "a//b" "root/a//b")
    as [Hget Hagain]; [reflexivity|discriminate|reflexivity|reflexivity
                      |reflexivity|].
  split; [exact (Hget (or_intror eq_refl))|].
  destruct (Hagain eq_refl) as [Hcalls _].
  intros r2 w2 Hrun2. apply (Hcalls r2 w2 Hrun2). discriminate.
Defined.

End DirCacheFacts.

(** * Properties of the pacer *)
Module PacerFacts.
Import pacer.

Section Facts.
Context {E : Type}.

(** C5: for every calculator and pacer state,
    [DefaultCalculator.Calculate] is the default backoff of the
    specification. *)
Theorem Calculate_default_backoff (c : DefaultCalculator) (st : State E) :
  Calculate c st = default_backoff c st.
Proof.
  unfold Calculate, default_backoff.
  destruct (ConsecutiveRetries st) as [|[q|q|]|q]; simpl; try done.
  all: destruct (Z.ltb_spec (Int64.shl (SleepTime st) (decayConstant c))
                            (minSleep c));
    destruct (Z.ltb_spec 0 (maxSleep c));
    rewrite ?Z.gtb_ltb;
    repeat match goal with
           | |- context [(?a <? ?b)%Z] => destruct (Z.ltb_spec a b)
           end; simpl; lia.
Qed.

(** The left shift doubles [decayConstant] times as long as the
    result fits an [int64]. *)
Lemma shl_exact (x : Z) (k : N) :
  Int64.in_range (x * 2 ^ Z.of_N k) ->
  Int64.shl x k = (x * 2 ^ Z.of_N k)%Z.
Proof.
  unfold Int64.in_range, Int64.shl, Int64.wrap. intros Hr.
  rewrite Z.shiftl_mul_pow2 by lia.
  rewrite Z.mod_small; lia.
Qed.

Section Call.
Context {S : Type} (f : Paced E S) (p : Pacer E).
Hypothesis Hinv : invoker (options p) = DefaultInvoker.
Hypothesis Hret : (0 <= retries (options p) < 2 ^ 63)%Z.
Hypothesis Hpacer : pacer_chan p = 1%nat.
Hypothesis Hconn : connTokens p ≠ 0%nat.

Lemma Call_body_again (try : Z) (w : World E (S * nat)) s n e s' :
  idle p (pc w) -> op w = (s, n) ->
  (0 <= try < retries (options p))%Z ->
  f s = ((true, e), s') ->
  exists w', Call_body (counted f) try try w = Continue (try + 1) e w'
             ∧ idle p (pc w') ∧ op w' = (s', Datatypes.S n).
Proof.
  intros (Ho & Hp & Hc) Hop Htry Hf. unfold Call_body.
  rewrite Hp, Hc. destruct (connTokens p) as [|conn] eqn:Hcn; [done|].
  rewrite Ho, Hinv, Hop. unfold DefaultInvoker, counted. rewrite Hf.
  destruct (Z.geb_spec try (retries (options p))); [lia|].
  simpl. eexists. split.
  - f_equal. unfold Int64.wrap. rewrite Z.mod_small; lia.
  - unfold idle; simpl. by rewrite Hcn.
Qed.

Lemma Call_body_last (try cr : Z) (w : World E (S * nat)) s n a e s' :
  idle p (pc w) -> op w = (s, n) ->
  (retries (options p) <= try)%Z ->
  f s = ((a, e), s') ->
  exists w', Call_body (counted f) try cr w = Return (Returned e) w'
             ∧ idle p (pc w') ∧ op w' = (s', Datatypes.S n).
Proof.
  intros (Ho & Hp & Hc) Hop Htry Hf. unfold Call_body.
  rewrite Hp, Hc. destruct (connTokens p) as [|conn] eqn:Hcn; [done|].
  rewrite Ho, Hinv, Hop. unfold DefaultInvoker, counted. rewrite Hf.
  destruct (Z.geb_spec try (retries (options p))) as [_|]; [|lia].
  destruct (cr >=? retries (options p))%Z;
    rewrite orb_true_r; eexists; (split; [done|unfold idle; simpl; by rewrite Hcn]).
Qed.

Lemma Call_body_stop (try : Z) (w : World E (S * nat)) s n e s' :
  idle p (pc w) -> op w = (s, n) ->
  f s = ((false, e), s') ->
  exists w', Call_body (counted f) try try w = Return (Returned e) w'
             ∧ idle p (pc w') ∧ op w' = (s', Datatypes.S n).
Proof.
  intros (Ho & Hp & Hc) Hop Hf. unfold Call_body.
  rewrite Hp, Hc. destruct (connTokens p) as [|conn] eqn:Hcn; [done|].
  rewrite Ho, Hinv, Hop. unfold DefaultInvoker, counted. rewrite Hf.
  destruct (try >=? retries (options p))%Z; simpl;
    eexists; (split; [done|unfold idle; simpl; by rewrite Hcn]).
Qed.

Lemma Call_loop_always_again (left : nat) :
  (forall s, fst (fst (f s)) = true) ->
  forall (try : Z) err (w : World E (S * nat)) s n,
    idle p (pc w) -> op w = (s, n) -> (0 <= try)%Z ->
    (try + Z.of_nat left = retries (options p))%Z ->
    exists w',
      Call_loop (counted f) (Datatypes.S left) try try err w
      = (Returned (snd (fst (f (after f left s)))), w')
      ∧ idle p (pc w')
      ∧ op w' = (after f (Datatypes.S left) s, (n + Datatypes.S left)%nat).
Proof.
  intros Hagain. induction left as [|left IH];
    intros try err w s n Hidle Hop Htry Hleft.
  - destruct (f s) as [[a e] s'] eqn:Hf.
    destruct (Call_body_last try try w s n a e s') as (w' & Hb & Hi & Ho);
      [done|done|lia|done|].
    exists w'. cbn [Call_loop]. rewrite Hb. simpl. rewrite Hf. simpl.
    split; [done|]. split; [done|]. rewrite Ho. f_equal. lia.
  - destruct (f s) as [[a e] s'] eqn:Hf.
    assert (a = true) as -> by (specialize (Hagain s); by rewrite Hf in Hagain).
    destruct (Call_body_again try w s n e s') as (w1 & Hb & Hi & Ho);
      [done|done|lia|done|].
    destruct (IH (try + 1)%Z e w1 s' (Datatypes.S n)) as (w' & Hl & Hi' & Ho');
      [done|done|lia|lia|].
    exists w'. change (Call_loop (counted f) (Datatypes.S (Datatypes.S left)) try try err w)
      with (match Call_body (counted f) try try w with
            | Return out w' => (out, w')
            | Continue cr' err' w' => Call_loop (counted f) (Datatypes.S left) (try + 1)%Z cr' err' w'
            end).
    rewrite Hb, Hl. cbn [after]. rewrite Hf. simpl.
    split; [done|]. split; [done|]. rewrite Ho'. f_equal. lia.
Qed.

(** C3: on an idle pacer with the default invoker and a retry
    budget [retries >= 0], [Call] invokes an operation that always
    answers [(true, err)] exactly [retries + 1] times and returns
    the error of the last invocation; and an operation answering
    [(false, nil)] at once is invoked once and [Call] returns
    [nil]. *)
Theorem Call_default_invoker (s : S) :
  let w := Build_World p (s, 0%nat) [] in
  let n := Z.to_nat (retries (options p)) in
  ((forall s, fst (fst (f s)) = true) ->
   exists w', Call (counted f) w
              = (Returned (snd (fst (f (after f n s)))), w')
              ∧ op w' = (after f (Datatypes.S n) s, Datatypes.S n))
  ∧ (forall s', f s = ((false, None), s') ->
     exists w', Call (counted f) w = (Returned None, w')
                ∧ op w' = (s', 1%nat)).
Proof.
  intros w n.
  assert (Hidle : idle p (pc w)) by done.
  assert (Hn : Z.to_nat (retries (options (pc w)) + 1) = Datatypes.S n)
    by (simpl; unfold n; lia).
  split.
  - intros Hagain.
    destruct (Call_loop_always_again n Hagain 0%Z None w s 0%nat)
      as (w' & Hl & _ & Ho); [done|done|lia|unfold n; lia|].
    exists w'. unfold Call. rewrite Hn. by split.
  - intros s' Hf.
    destruct (Call_body_stop 0%Z w s 0%nat None s') as (w' & Hb & _ & Ho);
      [done|done|done|].
    exists w'. unfold Call. rewrite Hn. cbn [Call_loop]. rewrite Hb.
    by split.
Qed.

End Call.

End Facts.

Lemma New_idle {E : Type} (opts : list (@Option E)) :
  pacer_chan (New opts) = 1 ∧
  connTokens (New opts) = Z.to_nat (maxConnections (options (New opts))).
Proof. done. Qed.

Lemma Call_default_invoker_witness :
  let p : Pacer string := New [RetriesOption 2] in
  let busy : Paced string nat := fun k => ((true, Some "busy"), S k) in
  let fine : Paced string nat := fun k => ((false, None), S k) in
  (exists w', Call (counted busy) (Build_World p (0, 0) [])
              = (Returned (Some "busy"), w') ∧ op w' = (3, 3))
  ∧ (exists w', Call (counted fine) (Build_World p (0, 0) [])
                = (Returned None, w') ∧ op w' = (1, 1)).
Proof.
  intros p busy fine. split.
  - destruct (Call_default_invoker busy p eq_refl
                ltac:(simpl; lia) eq_refl ltac:(discriminate) 0)
      as [Hbusy _].
    exact (Hbusy (fun _ => eq_refl)).
  - destruct (Call_default_invoker fine p eq_refl
                ltac:(simpl; lia) eq_refl ltac:(discriminate) 0)
      as [_ Hfine].
    exact (Hfine 1 eq_refl).
Defined.

End PacerFacts.

(** * Properties of the context-aware pacer *)
Module FsPacerFacts.
Import fs.

Section Facts.
Context {E S : Type} (ctx : Context E) (fn : Fn E S).

Lemma Call_body_Continue (try : Z) (w w' : World E S) err :
  Call_body ctx fn try w = Continue err w' ->
  pc w' = pc w ∧ (try < retries (pc w))%Z.
Proof.
  unfold Call_body.
  destruct (done_first ctx try TokenWait); [done|].
  destruct (connTokens (pc w)); [done|].
  destruct (fn (op w)) as [[e|] s']; [|done].
  destruct (Z.geb_spec try (retries (pc w))); [done|].
  destruct (done_first ctx try BackoffSleep); [done|].
  by intros [= <- <-].
Qed.

Lemma Call_loop_S (left : nat) (try : Z) err (w : World E S) :
  Call_loop ctx fn (Datatypes.S left) try err w
  = match Call_body ctx fn try w with
    | Return out w' => (out, w')
    | Break err' w' => (pacer.Returned err', w')
    | Continue err' w' => Call_loop ctx fn left (try + 1)%Z err' w'
    end.
Proof. reflexivity. Qed.

(** A call that has reached pass [try] goes on exactly as the loop
    does from there. *)
Lemma reaches_Call (w0 w : World E S) (try : Z) err :
  reaches ctx fn w0 try err w ->
  pc w = pc w0 ∧ (0 <= try <= retries (pc w0))%Z ∧
  Call ctx fn w0
  = Call_loop ctx fn
      (Datatypes.S (Z.to_nat (retries (pc w0) - try))) try err w.
Proof.
  induction 1 as [Hret|try err w err' w' Hreach IH Hbody].
  - split; [done|]. split; [lia|]. unfold Call. f_equal. lia.
  - destruct IH as (Hpc & Htry & Hcall).
    apply Call_body_Continue in Hbody as Hc. destruct Hc as [Hpc' Hlt].
    rewrite Hpc in Hlt.
    split; [congruence|]. split; [lia|].
    rewrite Hcall.
    replace (Datatypes.S (Z.to_nat (retries (pc w0) - (try + 1))))
      with (Z.to_nat (retries (pc w0) - try)) by lia.
    by rewrite Call_loop_S, Hbody.
Qed.

(** C9: when the call has reached some pass of its loop and the
    context is done while [Call] waits for a connection token, [Call]
    returns [ctx.Err()] in the very world in which it started to
    wait: the operation is not invoked, no token is taken, no pass is
    spent.  When the context is done during the sleep that follows a
    failed attempt, [Call] returns [ctx.Err()] in the world that
    attempt left: the token is back and nothing more has run. *)
Theorem Call_cancelled (w0 w : World E S) (try : Z) err :
  reaches ctx fn w0 try err w ->
  (done_first ctx try TokenWait = true ->
   Call ctx fn w0 = (pacer.Returned (Some (Err ctx)), w))
  ∧
  (forall e s',
     done_first ctx try TokenWait = false ->
     connTokens (pc w) ≠ 0%nat ->
     fn (op w) = (Some e, s') ->
     (try < retries (pc w))%Z ->
     done_first ctx try BackoffSleep = true ->
     Call ctx fn w0
     = (pacer.Returned (Some (Err ctx)),
        Build_World (pc w) s' (slept w))).
Proof.
  intros Hreach. apply reaches_Call in Hreach as (Hpc & Htry & ->).
  rewrite Call_loop_S. unfold Call_body. split.
  - by intros ->.
  - intros e s' -> Hconn Hfn Hlt ->.
    destruct (connTokens (pc w)); [done|]. rewrite Hfn.
    destruct (Z.geb_spec try (retries (pc w))); [lia|done].
Qed.

End Facts.

Lemma Call_cancelled_witness :
  let p : Pacer string := NewPacer (fun _ => 100%Z) in
  let fn : Fn string nat := fun k => (Some "boom", S k) in
  let waiting : Context string :=
    {| done_first := fun try pt =>
         match pt with TokenWait => (try =? 1)%Z | BackoffSleep => false end;
       Err := "context canceled" |} in
  let sleeping : Context string :=
    {| done_first := fun try pt =>
         match pt with TokenWait => false | BackoffSleep => (try =? 0)%Z end;
       Err := "context canceled" |} in
  Call waiting fn (Build_World p 0 [])
  = (pacer.Returned (Some "context canceled"), Build_World p 1 [100%Z])
  ∧ Call sleeping fn (Build_World p 0 [])
    = (pacer.Returned (Some "context canceled"), Build_World p 1 []).
Proof.
  intros p fn waiting sleeping. split.
  - refine (proj1 (Call_cancelled waiting fn (Build_World p 0 [])
                     (Build_World p 1 [100%Z]) 1 (Some "boom") _) eq_refl).
    apply (reaches_next waiting fn _ 0 None (Build_World p 0 [])).
    + apply reaches_first. simpl. lia.
    + reflexivity.
  - refine (proj2 (Call_cancelled sleeping fn (Build_World p 0 [])
                     (Build_World p 0 []) 0 None _)
              "boom" 1 eq_refl _ eq_refl _ eq_refl).
    + apply reaches_first. simpl. lia.
    + discriminate.
    + simpl. lia.
Defined.

End FsPacerFacts.

(** * Properties of concurrent calls of the pacer *)
Module GoroutineFacts.
Import goroutines GoroutineObs.

Lemma count_insert (P : goroutine -> bool) (gs : list goroutine)
      (i : nat) (g g' : goroutine) :
  gs !! i = Some g ->
  count P (<[i := g']> gs) + (if P g then 1 else 0)
  = count P gs + (if P g' then 1 else 0).
Proof.
  revert i. induction gs as [|h gs IH]; intros [|i] Hi; simpl in *;
    try done.
  - injection Hi as ->. lia.
  - specialize (IH i Hi). lia.
Qed.

Lemma count_le (P Q : goroutine -> bool) (gs : list goroutine) :
  (forall g, P g = true -> Q g = true) -> count P gs <= count Q gs.
Proof.
  intros HPQ. induction gs as [|g gs IH]; simpl; [done|].
  specialize (HPQ g).
  destruct (P g), (Q g); first [lia | by specialize (HPQ eq_refl)].
Qed.

Lemma count_replicate_false (P : goroutine -> bool) (n : nat) g :
  P g = false -> count P (replicate n g) = 0.
Proof. intros Hg. induction n as [|n IH]; simpl; [done|]. by rewrite Hg. Qed.

Lemma inv_start n k r : inv (start n k r).
Proof.
  unfold inv, start; simpl. rewrite !count_replicate_false by done. lia.
Qed.

Lemma inv_step p p' : inv p -> step p p' -> inv p'.
Proof.
  intros [Hmu Hconn] Hstep. destruct Hstep as [gs s i g g' s' Hi Hs].
  unfold inv in *; simpl in *.
  pose proof (count_insert holds_mu gs i g g' Hi) as Cm.
  pose proof (count_insert holds_conn gs i g g' Hi) as Cc.
  destruct Hs;
    unfold holds_mu at 2 4 in Cm; unfold holds_conn at 2 4 in Cc;
    unfold move in *; cbn [at_] in Cm, Cc;
    repeat match goal with
           | H : at_ _ = _ |- _ => rewrite ?H in Cm; rewrite ?H in Cc; clear H
           end;
    cbn [mu connTokens maxConnections set_mu set_pacer set_conn];
    repeat match goal with
           | H : mu _ = _ |- _ => rewrite H in Hmu; clear H
           | H : connTokens _ = _ |- _ => rewrite H in Hconn; clear H
           end;
    destruct (mu s); lia.
Qed.

Lemma inv_reachable n k r p : rtc step (start n k r) p -> inv p.
Proof.
  intros Hrtc. apply rtc_ind_r with (x := start n k r) (P := inv) in Hrtc;
    [done|apply inv_start|]. intros ? ? _ ? ?. by eapply inv_step.
Qed.

Lemma maxConnections_reachable n k r p :
  rtc step (start n k r) p -> maxConnections p.2 = k.
Proof.
  intros Hrtc.
  apply rtc_ind_r with (x := start n k r)
                       (P := fun p => maxConnections p.2 = k) in Hrtc;
    [done|done|].
  intros ? ? _ Hs ?. destruct Hs as [? ? ? ? ? ? ? Hs]. by destruct Hs.
Qed.

(** The pacing token is in its channel or with exactly one goroutine. *)
Lemma pacing_inv_step p p' : pacing_inv p -> step p p' -> pacing_inv p'.
Proof.
  intros Hp Hstep. destruct Hstep as [gs s i g g' s' Hi Hs].
  unfold pacing_inv in *; simpl in *.
  pose proof (count_insert holds_pacer gs i g g' Hi) as Cp.
  destruct Hs;
    unfold holds_pacer at 2 4 in Cp; unfold move in *; cbn [at_] in Cp;
    repeat match goal with
           | H : at_ _ = _ |- _ => rewrite ?H in Cp; clear H
           end;
    cbn [pacer_chan set_mu set_pacer set_conn];
    repeat match goal with
           | H : pacer_chan _ = _ |- _ => rewrite H in Hp; clear H
           end;
    lia.
Qed.

Lemma pacing_inv_reachable n k r p : rtc step (start n k r) p -> pacing_inv p.
Proof.
  intros Hreach.
  apply rtc_ind_r with (x := start n k r) (P := pacing_inv) in Hreach;
    [done| |].
  - unfold pacing_inv, start; simpl. by rewrite count_replicate_false.
  - intros ? ? _ ? ?. by eapply pacing_inv_step.
Qed.

(** C10, as the code has it: however many goroutines are inside
    [Call] on a pacer made with [maxConnections = k], and whatever they
    have done so far, at most [k] of them are in their call phase, and
    at most one, whatever [k] is: while a body is in its call phase the
    one pacing token is out of its channel, taken by that call before
    the call phase and given back only after the call has returned (as
    is [p.mu]), so calls never overlap. *)
Theorem call_phase_serialised (n k : nat) (r : Z) (p : program) :
  rtc step (start n k r) p ->
  count in_call p.1 <= k ∧ count in_call p.1 <= 1
  ∧ count in_call p.1 + pacer_chan p.2 <= 1.
Proof.
  intros Hreach.
  pose proof (maxConnections_reachable _ _ _ _ Hreach) as Hk.
  pose proof (pacing_inv_reachable _ _ _ _ Hreach) as Hpacer.
  apply inv_reachable in Hreach as [Hmu Hconn].
  unfold pacing_inv in Hpacer.
  assert (count in_call p.1 <= count holds_pacer p.1)
    by (apply count_le; intros g; unfold in_call, holds_pacer;
        by destruct (at_ g)).
  assert (count in_call p.1 <= count holds_conn p.1)
    by (apply count_le; intros g; unfold in_call, holds_conn;
        by destruct (at_ g)).
  lia.
Qed.

(** C10 as stated fails: on a pacer with [maxConnections = 2], two
    goroutines that both call can each reach their call phase, but in
    no reachable state are both in it; nothing is said of what the
    calls return, so this holds of two successful calls. *)
Lemma two_calls_never_overlap :
  (exists p, rtc step (start 2 2 3) p ∧
             (at_ <$> p.1) !! 0%nat = Some InCall)
  ∧ (exists p, rtc step (start 2 2 3) p ∧
               (at_ <$> p.1) !! 1%nat = Some InCall)
  ∧ (forall p, rtc step (start 2 2 3) p -> count in_call p.1 < 2).
Proof.
  split; [|split].
  - eexists. split.
    + unfold start. cbn [replicate].
      eapply rtc_l.
      { eapply (step_of _ _ 0); [reflexivity|]. by apply s_loop_enter. }
      eapply rtc_l.
      { eapply (step_of _ _ 0); [reflexivity|]. by apply s_lock. }
      eapply rtc_l.
      { eapply (step_of _ _ 0); [reflexivity|]. by eapply s_pacer. }
      eapply rtc_l.
      { eapply (step_of _ _ 0); [reflexivity|]. by eapply s_conn. }
      apply rtc_refl.
    + reflexivity.
  - eexists. split.
    + unfold start. cbn [replicate].
      eapply rtc_l.
      { eapply (step_of _ _ 1); [reflexivity|]. by apply s_loop_enter. }
      eapply rtc_l.
      { eapply (step_of _ _ 1); [reflexivity|]. by apply s_lock. }
      eapply rtc_l.
      { eapply (step_of _ _ 1); [reflexivity|]. by eapply s_pacer. }
      eapply rtc_l.
      { eapply (step_of _ _ 1); [reflexivity|]. by eapply s_conn. }
      apply rtc_refl.
    + reflexivity.
  - intros p Hreach. apply pacing_inv_reachable in Hreach.
    unfold pacing_inv in Hreach.
    assert (count in_call p.1 <= count holds_pacer p.1)
      by (apply count_le; intros g; unfold in_call, holds_pacer;
          by destruct (at_ g)).
    lia.
Qed.

(** The lock makes a retry fatal to its neighbours: while one
    goroutine sleeps before its retry, holding the pacing token, a second
    one takes [p.mu] and waits for that token; the first then waits for
    [p.mu] to put the token back, and neither moves again. *)
Lemma retry_blocks_both_calls :
  let p : program :=
    ([ {| at_ := AtRelock; try := 0; again := true |};
       {| at_ := AtPacer; try := 0; again := false |} ],
     {| mu := true; pacer_chan := 0; connTokens := 2;
        maxConnections := 2; retries := 3 |}) in
  rtc step (start 2 2 3) p ∧ ¬ exists p', step p p'.
Proof.
  intros p. split.
  - unfold start, p. cbn [replicate].
    eapply rtc_l.
    { eapply (step_of _ _ 0); [reflexivity|]. by apply s_loop_enter. }
    eapply rtc_l.
    { eapply (step_of _ _ 0); [reflexivity|]. by apply s_lock. }
    eapply rtc_l.
    { eapply (step_of _ _ 0); [reflexivity|]. by eapply s_pacer. }
    eapply rtc_l.
    { eapply (step_of _ _ 0); [reflexivity|]. by eapply s_conn. }
    eapply rtc_l.
    { eapply (step_of _ _ 0); [reflexivity|]. by apply (s_call _ _ true). }
    eapply rtc_l.
    { eapply (step_of _ _ 0); [reflexivity|].
      apply s_conn_return; [done|]. cbn. lia. }
    eapply rtc_l.
    { eapply (step_of _ _ 0); [reflexivity|]. by apply s_decide_retry. }
    eapply rtc_l.
    { eapply (step_of _ _ 0); [reflexivity|]. by apply s_unlock_sleep. }
    eapply rtc_l.
    { eapply (step_of _ _ 1); [reflexivity|]. by apply s_loop_enter. }
    eapply rtc_l.
    { eapply (step_of _ _ 1); [reflexivity|]. by apply s_lock. }
    eapply rtc_l.
    { eapply (step_of _ _ 0); [reflexivity|]. by apply s_sleep. }
    apply rtc_refl.
  - intros [p' Hstep]. unfold p in Hstep.
    inversion Hstep as [gs s i g g' s' Hi Hs]; subst.
    destruct i as [|[|i]]; [| |done];
      injection Hi as <-; inversion Hs; simpl in *; done.
Qed.

Lemma call_phase_serialised_witness :
  let p : program :=
    ([ {| at_ := InCall; try := 0; again := false |};
       {| at_ := AtLock; try := 0; again := false |} ],
     {| mu := true; pacer_chan := 0; connTokens := 1;
        maxConnections := 2; retries := 3 |}) in
  count in_call p.1 <= 2 ∧ count in_call p.1 <= 1
  ∧ count in_call p.1 + pacer_chan p.2 <= 1.
Proof.
  intros p. apply (call_phase_serialised 2 2 3 p).
  unfold start, p. cbn [replicate].
  eapply rtc_l.
  { eapply (step_of _ _ 0); [reflexivity|]. by apply s_loop_enter. }
  eapply rtc_l.
  { eapply (step_of _ _ 1); [reflexivity|]. by apply s_loop_enter. }
  eapply rtc_l.
  { eapply (step_of _ _ 0); [reflexivity|]. by apply s_lock. }
  eapply rtc_l.
  { eapply (step_of _ _ 0); [reflexivity|]. by eapply s_pacer. }
  eapply rtc_l.
  { eapply (step_of _ _ 0); [reflexivity|]. by eapply s_conn. }
  apply rtc_refl.
Defined.

End GoroutineFacts.

(** * More on the directory cache: what the resolvers do and never do *)
Module DirCacheMore.
Import dircache DirCacheObs Samples PathFacts DirCacheFacts.

(** X1. After [Put(path, id)], [Get] answers [id] for [path] and what it
    answered before for every other path; [GetInv] answers [path] for
    [id] and what it answered before for every other ID. *)
Theorem Put_then_lookup (d : DirCache) (path id path' id' : string) :
  Get (Put d path id) path'
  = (if decide (path' = path) then (id, true) else Get d path')
  ∧ GetInv (Put d path id) id'
    = (if decide (id' = id) then (path, true) else GetInv d id').
Proof.
  split.
  - destruct (decide (path' = path)) as [->|Hne].
    + apply Get_Put_eq.
    + by apply Get_Put_ne.
  - destruct (decide (id' = id)) as [->|Hne].
    + apply GetInv_Put_eq.
    + by apply GetInv_Put_ne.
Qed.

Lemma prefixes_cached_spec (d : DirCache) (l : list string) (k : nat) :
  prefixes_cached d l = true -> 1 <= k <= length l ->
  is_Some (cache d !! Path.JoinSep (take k l)).
Proof.
  unfold prefixes_cached. rewrite forallb_forall. intros H Hk.
  specialize (H k). rewrite bool_decide_eq_true in H. apply H.
  apply in_seq. lia.
Qed.

Lemma Join_all_names (l : list string) :
  l ≠ [] -> Forall (fun e => Path.is_name e = true) l ->
  Path.Join l = Path.JoinSep l.
Proof.
  intros Hne Hl. destruct l as [|e l]; [done|].
  inversion Hl as [|? ? He _]; subst.
  apply is_name_spec in He as (_ & He & _).
  cbn [Path.Join]. rewrite decide_False by done. by apply Clean_names.
Qed.

Section Resolvers.
Context {B : Type} (fs : DirCacher B).

(** X2. A [FindRoot] that succeeded is not run again: the next
    [FindRoot] returns the same ID without touching the cache or the
    backend, and [foundRoot] and [rootID] hold the result. *)
Theorem FindRoot_idempotent (w w1 : World B) (id : string) :
  FindRoot fs w = (Ok id, w1) ->
  FindRoot fs w1 = (Ok id, w1)
  ∧ foundRoot (dc w1) = true ∧ rootID (dc w1) = id.
Proof.
  unfold FindRoot. destruct (foundRoot (dc w)) eqn:Hf.
  - intros [= <- <-]. by rewrite Hf.
  - destruct (_findRoot fs (root (dc w)) w) as [[id'|e] w'];
      intros [= <- <-]; done.
Qed.

(** What the second loop of [_findRoot] does: only [CreateDir] calls,
    and every ID made is in the inverse cache afterwards. *)
Lemma findRoot_create_calls (todo : list string) :
  forall seen lastPath (w w' : World B) r,
    findRoot_create fs seen todo lastPath w = (r, w') ->
    exists new,
      calls w' = calls w ++ new ∧
      Forall (fun c => is_CreateDir c = true) new ∧
      (forall id, is_Some (invCache (dc w) !! id) ->
                  is_Some (invCache (dc w') !! id)) ∧
      (forall c id, c ∈ new -> created c = Some id ->
                    is_Some (invCache (dc w') !! id)) ∧
      foundRoot (dc w') = foundRoot (dc w) ∧ rootID (dc w') = rootID (dc w).
Proof.
  induction todo as [|dir todo IH]; intros seen lastPath w w' r;
    cbn [findRoot_create].
  - intros [= _ <-]. exists []. rewrite app_nil_r.
    repeat split; try done. intros c id Hc. by apply elem_of_nil in Hc.
  - assert (Hstop : forall r0, (r0, w) = (r, w') -> exists new,
      calls w' = calls w ++ new ∧
      Forall (fun c => is_CreateDir c = true) new ∧
      (forall id, is_Some (invCache (dc w) !! id) ->
                  is_Some (invCache (dc w') !! id)) ∧
      (forall c id, c ∈ new -> created c = Some id ->
                    is_Some (invCache (dc w') !! id)) ∧
      foundRoot (dc w') = foundRoot (dc w) ∧ rootID (dc w') = rootID (dc w)).
    { intros r0 [= _ <-]. exists []. rewrite app_nil_r.
      repeat split; try done. intros c id Hc. by apply elem_of_nil in Hc. }
    destruct (decide (dir = "")); [by apply IH|].
    destruct (Get (dc w) _) as [? []]; [by apply IH|].
    destruct (Get (dc w) _) as [parentID []]; [|by apply Hstop].
    unfold callCreateDir.
    destruct (CreateDir fs (backend w) parentID dir) as [b' [newID [err|]]].
    + intros [= _ <-]. eexists. split; [reflexivity|].
      split; [by repeat constructor|]. split; [done|]. split; [|done].
      intros c id Hc Hid. apply list_elem_of_singleton in Hc. by subst c.
    + intros Hrec. apply IH in Hrec as (new & Hcalls & Hall & Hkeep & Hmade & Hf & Hr).
      cbn [calls dc with_dc] in *. rewrite <- app_assoc in Hcalls.
      eexists. split; [exact Hcalls|].
      split; [by constructor|].
      split.
      { intros id Hid. apply Hkeep. cbn [invCache Put].
        destruct (decide (newID = id)) as [->|Hne].
        - rewrite lookup_insert_eq. by eexists.
        - by rewrite lookup_insert_ne. }
      split; [|done].
      intros c id Hc Hid. apply elem_of_cons in Hc as [->|Hc].
      * injection Hid as <-. apply Hkeep. cbn [invCache Put].
        rewrite lookup_insert_eq. by eexists.
      * by eapply Hmade.
Qed.

(** X3. [FindRoot] never looks a directory up: every backend call
    it makes is a [CreateDir], and the ID each successful one returned is
    in the inverse cache afterwards (also when a later call failed). *)
Theorem FindRoot_only_creates (w w' : World B) (r : result) :
  FindRoot fs w = (r, w') ->
  exists new,
    calls w' = calls w ++ new ∧
    Forall (fun c => is_CreateDir c = true) new ∧
    (forall c id, c ∈ new -> created c = Some id ->
                  snd (GetInv (dc w') id) = true).
Proof.
  assert (Hnil : forall r0, (r0, w) = (r, w') -> exists new,
    calls w' = calls w ++ new ∧
    Forall (fun c => is_CreateDir c = true) new ∧
    (forall c id, c ∈ new -> created c = Some id ->
                  snd (GetInv (dc w') id) = true)).
  { intros r0 [= _ <-]. exists []. rewrite app_nil_r.
    repeat split; try done. intros c id Hc. by apply elem_of_nil in Hc. }
  unfold FindRoot. destruct (foundRoot (dc w)); [by apply Hnil|].
  unfold _findRoot.
  destruct (decide (root (dc w) = "")).
  { intros [= _ <-]. exists []. cbn. rewrite app_nil_r.
    repeat split; try done. intros c id Hc. by apply elem_of_nil in Hc. }
  destruct (findRoot_cached _ _ _ _) as [parentID []].
  { intros [= _ <-]. exists []. cbn. rewrite app_nil_r.
    repeat split; try done. intros c id Hc. by apply elem_of_nil in Hc. }
  destruct (findRoot_create _ _ _ _ _) as [[lastPath|e] w1] eqn:Hc;
    apply findRoot_create_calls in Hc as (new & Hcalls & Hall & _ & Hmade & _).
  - destruct (Get (dc w1) lastPath) as [id []]; intros [= _ <-];
      exists new; cbn [calls dc with_dc set_found]; (split; [done|]);
      (split; [done|]); intros c id' Hin Hid;
      destruct (Hmade c id' Hin Hid) as [p Hp]; unfold GetInv;
      cbn [invCache dc with_dc set_found]; by rewrite Hp.
  - intros [= _ <-]. exists new. split; [done|]. split; [done|].
    intros c id' Hin Hid. destruct (Hmade c id' Hin Hid) as [p Hp].
    unfold GetInv. by rewrite Hp.
Qed.

Lemma findRoot_cached_all (d : DirCache) (todo : list string) :
  forall seen parentID,
    Forall (fun e => Path.is_name e = true) seen ->
    Forall (fun e => Path.is_name e = true) todo ->
    (forall k, length seen < k <= length (seen ++ todo) ->
               is_Some (cache d !! Path.JoinSep (take k (seen ++ todo)))) ->
    exists id, findRoot_cached d seen todo parentID = (id, true) ∧
               (todo = [] -> id = parentID) ∧
               (todo ≠ [] ->
                cache d !! Path.JoinSep (seen ++ todo) = Some id).
Proof.
  induction todo as [|dir todo IH]; intros seen parentID Hseen Htodo Hpre;
    cbn [findRoot_cached].
  - by exists parentID.
  - inversion Htodo as [|? ? Hdir Htodo']; subst.
    apply is_name_spec in Hdir as Hdir'. destruct Hdir' as (_ & Hne & _).
    rewrite decide_False by done.
    assert (Hseen' : Forall (fun e => Path.is_name e = true) (seen ++ [dir]))
      by (apply Forall_app; split; [done|by constructor]).
    rewrite Join_all_names; [|by destruct seen|done].
    assert (Heq : seen ++ dir :: todo = (seen ++ [dir]) ++ todo)
      by by rewrite <- app_assoc.
    destruct (Hpre (S (length seen))) as [dirID Hid].
    { rewrite length_app. simpl. lia. }
    rewrite Heq, take_app_length' in Hid
      by (rewrite length_app; simpl; lia).
    unfold Get. rewrite Hid.
    destruct (IH (seen ++ [dir]) dirID Hseen' Htodo') as (id & Hrun & Hnil & Hcons).
    { intros k Hk. rewrite <- Heq. apply Hpre.
      rewrite length_app in Hk. simpl in Hk.
      rewrite <- Heq in Hk. lia. }
    exists id. split; [done|]. split; [done|]. intros _.
    destruct todo as [|dir' todo].
    + by rewrite (Hnil eq_refl).
    + rewrite Heq. by apply Hcons.
Qed.

(** X4. When the root is made of names and the cache holds every
    prefix of it, the first [FindRoot] returns the cached ID of the root
    with no backend call, and makes it the root ID. *)
Theorem FindRoot_precached (w : World B) :
  foundRoot (dc w) = false ->
  Path.plain (root (dc w)) = true ->
  prefixes_cached (dc w) (Path.Split (root (dc w))) = true ->
  exists id,
    cache (dc w) !! root (dc w) = Some id ∧
    FindRoot fs w = (Ok id, with_dc w (set_found (dc w) id)).
Proof.
  intros Hf Hplain Hpre.
  apply plain_names in Hplain as Hnames.
  assert (Hne : root (dc w) ≠ "")
    by (intros Heq; rewrite Heq in Hplain; by vm_compute in Hplain).
  pose proof (Split_nonnil (root (dc w))) as Hnn.
  destruct (findRoot_cached_all (dc w) (Path.Split (root (dc w))) []
              (rootID (dc w))) as (id & Hrun & _ & Hid); [done|done|..].
  { intros k Hk. apply prefixes_cached_spec; [done|]. simpl in *. lia. }
  exists id. specialize (Hid Hnn). simpl in Hid.
  rewrite JoinSep_Split in Hid. split; [done|].
  unfold FindRoot, _findRoot. rewrite Hf, decide_False by done.
  by rewrite Hrun.
Qed.

(** X5. A failed [FindRoot] leaves the cache unusable: every
    [FindDir] after it answers "FindRoot not called", whatever the path,
    and changes nothing. *)
Theorem FindRoot_failed_FindDir_refuses (w w' : World B) (e : error)
        (path : string) :
  foundRoot (dc w) = false ->
  FindRoot fs w = (Err e, w') ->
  FindDir fs path w' = (Err ErrFindRootNotCalled, w').
Proof.
  intros Hf Hrun.
  pose proof (FindRoot_failed_not_found fs w w' e Hf Hrun) as Hf'.
  unfold FindDir. by rewrite Hf'.
Qed.

Lemma keeps_entries_Put (d : DirCache) (p i : string) :
  keeps_entries d (Put d p i).
Proof.
  split; intros k Hk; cbn [cache invCache Put].
  - destruct (decide (p = k)) as [->|Hne];
      [rewrite lookup_insert_eq; by eexists|by rewrite lookup_insert_ne].
  - destruct (decide (i = k)) as [->|Hne];
      [rewrite lookup_insert_eq; by eexists|by rewrite lookup_insert_ne].
Qed.

Lemma keeps_entries_trans (d1 d2 d3 : DirCache) :
  keeps_entries d1 d2 -> keeps_entries d2 d3 -> keeps_entries d1 d3.
Proof. intros [H1 H2] [H3 H4]. split; eauto. Qed.

(** The second loop of [FindDir], call by call. *)
Lemma findDir_lookup_run path parts :
  forall parentID dirPath (w w' : World B) r,
    findDir_lookup fs path parts parentID dirPath w = (r, w') ->
    same_root (dc w) (dc w') ∧ keeps_entries (dc w) (dc w') ∧
    exists new,
      calls w' = calls w ++ new ∧
      match r with
      | Ok id => chained parentID new = Some id ∧ map leaf_of new = parts
      | Err e =>
          exists pre p leaf out found err,
            new = pre ++ [FindLeafCall p leaf out found err] ∧
            chained parentID pre = Some p ∧
            match err with
            | Some e' => e = e'
            | None => found = false ∧ e = ErrCouldntFindDirectory path
            end
      end.
Proof.
  induction parts as [|part rest IH]; intros parentID dirPath w w' r;
    cbn [findDir_lookup].
  - intros [= <- <-]. split; [done|]. split; [done|].
    exists []. by rewrite app_nil_r.
  - destruct (callFindLeaf fs w parentID part)
      as [[[out found] err] w1] eqn:Hc.
    apply callFindLeaf_spec in Hc as [Hdc Hcalls].
    destruct err as [e|]; [|destruct found]; cbv beta iota zeta.
    + intros Hret.
      assert ((Err e, w1) = (r, w')) as [= <- <-] by by destruct found.
      rewrite Hdc. split; [done|]. split; [done|].
      eexists. split; [exact Hcalls|].
      exists [], parentID, part, out, found, (Some e). done.
    + intros Hrec.
      apply IH in Hrec as (Hroot & Hkeep & new & Hn & Hr).
      cbn [dc calls with_dc] in *. rewrite Hdc in *.
      split; [exact Hroot|].
      split; [eapply keeps_entries_trans; [apply keeps_entries_Put|done]|].
      rewrite Hcalls, <- app_assoc in Hn.
      eexists. split; [exact Hn|].
      destruct r as [id|e].
      * destruct Hr as [Hch Hl]. cbn [chained map leaf_of app].
        rewrite decide_True by done. split; [done|]. by rewrite Hl.
      * destruct Hr as (pre & p & leaf & o & f & er & -> & Hch & He).
        exists (FindLeafCall parentID part out true None :: pre),
               p, leaf, o, f, er.
        split; [done|]. cbn [chained]. by rewrite decide_True.
    + intros [= <- <-]. rewrite Hdc. split; [done|]. split; [done|].
      eexists. split; [exact Hcalls|].
      exists [], parentID, part, out, false, None. done.
Qed.

(** The parent the first loop of [FindDir] settles on is the one given
    or an ID from the cache. *)
Lemma findDir_cached_parent (d : DirCache) (parts : list string) :
  forall parentID dirPath partsToFind parentID' dirPath' partsToFind',
    findDir_cached d parts parentID dirPath partsToFind
    = (parentID', dirPath', partsToFind') ->
    parentID' = parentID ∨ exists q, cache d !! q = Some parentID'.
Proof.
  induction parts as [|part parts IH];
    intros parentID dirPath ptf parentID' dirPath' ptf';
    cbn [findDir_cached].
  - intros [= <- _ _]. by left.
  - unfold Get. destruct (cache d !! _) as [dirID|] eqn:Hq.
    + intros Hrec. apply IH in Hrec as [->|?]; [right; eauto|by right].
    + apply IH.
Qed.

Lemma FindDir_run (w w' : World B) (path : string) (r : result) :
  FindDir fs path w = (r, w') ->
  same_root (dc w) (dc w') ∧ keeps_entries (dc w) (dc w') ∧
  exists parentID new,
    (parentID = rootID (dc w) ∨
     exists q, cache (dc w) !! q = Some parentID) ∧
    calls w' = calls w ++ new ∧
    match r with
    | Ok id => chained parentID new = Some id
    | Err e =>
        new = [] ∧ e = ErrFindRootNotCalled ∨
        exists pre p leaf out found err,
          new = pre ++ [FindLeafCall p leaf out found err] ∧
          chained parentID pre = Some p ∧
          match err with
          | Some e' => e = e'
          | None => found = false ∧ e = ErrCouldntFindDirectory path
          end
    end.
Proof.
  unfold FindDir. destruct (negb (foundRoot (dc w))).
  { intros [= <- <-]. split; [done|]. split; [done|].
    exists (rootID (dc w)), []. rewrite app_nil_r.
    split; [by left|]. split; [done|]. by left. }
  destruct (decide (path = "")).
  { intros [= <- <-]. split; [done|]. split; [done|].
    exists (rootID (dc w)), []. rewrite app_nil_r.
    split; [by left|]. done. }
  destruct (findDir_cached _ _ _ _ _)
    as [[parentID dirPath] partsToFind] eqn:Hloop.
  apply findDir_cached_parent in Hloop.
  intros Hrun.
  apply findDir_lookup_run in Hrun as (Hroot & Hkeep & new & Hcalls & Hr).
  split; [done|]. split; [done|].
  exists parentID, new. split; [done|]. split; [done|].
  destruct r as [id|e]; [by destruct Hr|by right].
Qed.

Lemma chained_snoc (pre : list call) :
  forall parentID c id,
    chained parentID (pre ++ [c]) = Some id ->
    exists p leaf, c = FindLeafCall p leaf id true None.
Proof.
  induction pre as [|c0 pre IH]; intros parentID c id; cbn [app chained].
  - destruct c as [p leaf out [] [e|]|]; try done.
    destruct (decide (p = parentID)); [|done]. intros [= <-]. eauto.
  - destruct c0 as [p leaf out [] [e|]|]; try done.
    destruct (decide (p = parentID)); [|done]. apply IH.
Qed.

(** X6. [FindDir] never creates a directory and never forgets:
    every backend call it makes is a [FindLeaf], the root fields of the
    cache stay as they were, and every path and ID that was cached before
    is cached after, whether the call succeeded or not. *)
Theorem FindDir_only_looks_up (w w' : World B) (path : string) (r : result) :
  FindDir fs path w = (r, w') ->
  same_root (dc w) (dc w') ∧ keeps_entries (dc w) (dc w') ∧
  exists new, calls w' = calls w ++ new ∧
              Forall (fun c => is_FindLeaf c = true) new.
Proof.
  intros Hrun. pose proof (FindDir_calls fs w w' path r Hrun)
    as (new & Hcalls & Hall & _).
  apply FindDir_run in Hrun as (Hroot & Hkeep & _).
  split; [done|]. split; [done|]. by exists new.
Qed.

(** X7. The ID a successful [FindDir] returns comes from a chain of
    lookups: the [FindLeaf] calls it made all succeeded, each was asked
    under the ID the previous one returned, the first under the root ID
    or an ID from the cache, and the result is the ID of the last (or
    that starting ID when no call was made). *)
Theorem FindDir_success_chain (w w' : World B) (path id : string) :
  FindDir fs path w = (Ok id, w') ->
  exists parentID new,
    (parentID = rootID (dc w) ∨
     exists q, cache (dc w) !! q = Some parentID) ∧
    calls w' = calls w ++ new ∧
    chained parentID new = Some id.
Proof.
  intros Hrun.
  apply FindDir_run in Hrun as (_ & _ & parentID & new & Hp & Hcalls & Hch).
  by exists parentID, new.
Qed.

(** X8. When the last [FindLeaf] call of a [FindDir] returned an
    error, [FindDir] returns that very error, not wrapped. *)
Theorem FindDir_backend_error_verbatim (w w' : World B) (path : string)
        (r : result) (pre : list call) (p leaf out : string) (found : bool)
        (e : error) :
  FindDir fs path w = (r, w') ->
  calls w' = calls w ++ pre ++ [FindLeafCall p leaf out found (Some e)] ->
  r = Err e.
Proof.
  intros Hrun Hcalls.
  apply FindDir_run in Hrun as (_ & _ & parentID & new & _ & Hnew & Hr).
  rewrite Hnew in Hcalls. apply app_inv_head in Hcalls. subst new.
  destruct r as [id|e'].
  - apply chained_snoc in Hr as (? & ? & [=]).
  - destruct Hr as [[Hnil _]|(pre' & p' & l' & o' & f' & er & Heq & _ & He)].
    + by destruct pre.
    + apply app_inj_tail in Heq as [_ [= <- <- <- <- <-]]. by rewrite He.
Qed.

Lemma findDir_cached_all (d : DirCache) (parts : list string) :
  forall seen parentID partsToFind,
    Forall (fun e => Path.is_name e = true) seen ->
    Forall (fun e => Path.is_name e = true) parts ->
    (forall k, length seen < k <= length (seen ++ parts) ->
               is_Some (cache d !! Path.JoinSep (take k (seen ++ parts)))) ->
    exists id,
      findDir_cached d parts parentID (Path.JoinSep seen) partsToFind
      = (id, Path.JoinSep (seen ++ parts), partsToFind) ∧
      (parts = [] -> id = parentID) ∧
      (parts ≠ [] -> cache d !! Path.JoinSep (seen ++ parts) = Some id).
Proof.
  induction parts as [|part parts IH]; intros seen parentID ptf Hseen Hparts Hpre;
    cbn [findDir_cached].
  - exists parentID. by rewrite app_nil_r.
  - inversion Hparts as [|? ? Hpart Hparts']; subst.
    rewrite Join_names by done.
    assert (Hseen' : Forall (fun e => Path.is_name e = true) (seen ++ [part]))
      by (apply Forall_app; split; [done|by constructor]).
    assert (Heq : seen ++ part :: parts = (seen ++ [part]) ++ parts)
      by by rewrite <- app_assoc.
    destruct (Hpre (S (length seen))) as [dirID Hid].
    { rewrite length_app. simpl. lia. }
    rewrite Heq, take_app_length' in Hid
      by (rewrite length_app; simpl; lia).
    unfold Get. rewrite Hid.
    destruct (IH (seen ++ [part]) dirID ptf Hseen' Hparts')
      as (id & Hrun & Hnil & Hcons).
    { intros k Hk. rewrite <- Heq. apply Hpre.
      rewrite length_app in Hk. simpl in Hk.
      rewrite <- Heq in Hk. lia. }
    exists id. rewrite Heq. split; [done|]. split; [done|]. intros _.
    destruct parts as [|part' parts].
    + by rewrite (Hnil eq_refl), app_nil_r.
    + by apply Hcons.
Qed.

(** X9. When the path is made of names and the cache holds every
    prefix of it, [FindDir] returns the cached ID of the path, makes no
    backend call and leaves the cache as it was. *)
Theorem FindDir_prefixes_cached (w : World B) (path : string) :
  foundRoot (dc w) = true ->
  Path.plain path = true ->
  prefixes_cached (dc w) (Path.Split path) = true ->
  exists id, cache (dc w) !! path = Some id ∧
             FindDir fs path w = (Ok id, w).
Proof.
  intros Hf Hplain Hpre.
  apply plain_names in Hplain as Hnames.
  assert (Hne : path ≠ "") by (intros ->; by vm_compute in Hplain).
  pose proof (Split_nonnil path) as Hnn.
  destruct (findDir_cached_all (dc w) (Path.Split path) []
              (rootID (dc w)) []) as (id & Hrun & _ & Hid); [done|done|..].
  { intros k Hk. apply prefixes_cached_spec; [done|]. simpl in *. lia. }
  exists id. specialize (Hid Hnn). simpl in Hid.
  rewrite JoinSep_Split in Hid. split; [done|].
  unfold FindDir. rewrite Hf, decide_False by done. cbn [negb].
  change (Path.JoinSep []) with "" in Hrun. by rewrite Hrun.
Qed.

(** X10. [FindPath] inverts [Put] except at the root: after
    [Put(path, id)] with a non-empty [id], [FindPath(id)] returns [path],
    unless [id] is the root ID or the true root ID, for which it returns
    the root path whatever was put. *)
Theorem FindPath_after_Put (w : World B) (path id : string) :
  id ≠ "" ->
  let w' := with_dc w (Put (dc w) path id) in
  FindPath id w'
  = (Ok (if decide (id = rootID (dc w) ∨ id = trueRootID (dc w))
         then root (dc w) else path), w').
Proof.
  intros Hid w'. unfold FindPath. rewrite decide_False by done.
  cbn [w' dc with_dc rootID trueRootID root Put].
  destruct (decide (id = rootID (dc w) ∨ id = trueRootID (dc w))); [done|].
  by rewrite GetInv_Put_eq.
Qed.

End Resolvers.

(** ** The resolvers on concrete caches *)

Lemma FindRoot_idempotent_witness :
  let run := FindRoot Backends.everything (seeded "a/b") in
  run.1 = Ok "root/a/b" ∧
  FindRoot Backends.everything run.2 = (Ok "root/a/b", run.2) ∧
  foundRoot (dc run.2) = true ∧ rootID (dc run.2) = "root/a/b".
Proof.
  intros run. split; [reflexivity|].
  apply (FindRoot_idempotent Backends.everything (seeded "a/b")).
  reflexivity.
Defined.

Lemma FindRoot_only_creates_witness :
  let run := FindRoot Backends.everything (seeded "a/b") in
  exists new,
    calls run.2 = calls (seeded "a/b") ++ new ∧
    Forall (fun c => is_CreateDir c = true) new ∧
    (forall c id, c ∈ new -> created c = Some id ->
                  snd (GetInv (dc run.2) id) = true).
Proof.
  intros run.
  apply (FindRoot_only_creates Backends.everything (seeded "a/b") run.2 run.1).
  reflexivity.
Defined.

Lemma FindRoot_precached_witness :
  let w := Build_World (Put (New "a" "root") "a" "id-a") () [] in
  exists id,
    cache (dc w) !! "a" = Some id ∧
    FindRoot Backends.nothing w = (Ok id, with_dc w (set_found (dc w) id)).
Proof.
  intros w. apply (FindRoot_precached Backends.nothing w); reflexivity.
Defined.

Lemma FindRoot_failed_FindDir_refuses_witness :
  let run := FindRoot Backends.everything (fresh "a/b" "root" ()) in
  run.1 = Err (ErrCouldntFindParent "") ∧
  FindDir Backends.everything "x" run.2 = (Err ErrFindRootNotCalled, run.2).
Proof.
  intros run. split; [reflexivity|].
  apply (FindRoot_failed_FindDir_refuses Backends.everything
           (fresh "a/b" "root" ()) run.2 (ErrCouldntFindParent ""));
    reflexivity.
Defined.

Lemma FindDir_only_looks_up_witness :
  let w := ready Backends.only_x () in
  let run := FindDir Backends.only_x "x/y" w in
  same_root (dc w) (dc run.2) ∧ keeps_entries (dc w) (dc run.2) ∧
  exists new, calls run.2 = calls w ++ new ∧
              Forall (fun c => is_FindLeaf c = true) new.
Proof.
  intros w run.
  apply (FindDir_only_looks_up Backends.only_x w run.2 "x/y" run.1).
  reflexivity.
Defined.

Lemma FindDir_success_chain_witness :
  let w := ready Backends.everything () in
  let run := FindDir Backends.everything "x/y" w in
  exists parentID new,
    (parentID = rootID (dc w) ∨ exists q, cache (dc w) !! q = Some parentID) ∧
    calls run.2 = calls w ++ new ∧
    chained parentID new = Some "root/x/y".
Proof.
  intros w run.
  apply (FindDir_success_chain Backends.everything w run.2 "x/y").
  reflexivity.
Defined.

Lemma FindDir_backend_error_verbatim_witness :
  let w := ready failing () in
  fst (FindDir failing "x/y" w) = Err (ErrBackend "quota exceeded").
Proof.
  intros w.
  apply (FindDir_backend_error_verbatim failing w
           (snd (FindDir failing "x/y" w)) "x/y" _
           [FindLeafCall "root" "x" "id-x" true None] "id-x" "y" "" false);
    reflexivity.
Defined.

Lemma FindDir_prefixes_cached_witness :
  let w0 := ready Backends.nothing () in
  let w := with_dc w0 (Put (Put (dc w0) "x" "id-x") "x/y" "id-y") in
  exists id, cache (dc w) !! "x/y" = Some id ∧
             FindDir Backends.nothing "x/y" w = (Ok id, w).
Proof.
  intros w0 w. apply (FindDir_prefixes_cached Backends.nothing w "x/y");
    reflexivity.
Defined.

Lemma FindPath_after_Put_witness :
  let w := ready Backends.nothing () in
  let w' := with_dc w (Put (dc w) "x" "id-x") in
  FindPath "id-x" w' = (Ok "x", w').
Proof.
  intros w w'.
  exact (FindPath_after_Put w "x" "id-x" ltac:(discriminate)).
Defined.

End DirCacheMore.

(** * More on the pacer: bounds, termination and edge cases of [Call] *)
Module PacerMore.
Import pacer PacerObs Samples.

Section Facts.
Context {E : Type}.

(** X11. After a retry the default calculator stays within its
    limits: the delay is at least [minSleep], and at most [maxSleep] when
    a positive [maxSleep] is set, provided [minSleep <= maxSleep] then;
    the doubling cannot overflow past them. *)
Theorem Calculate_bounds (c : DefaultCalculator) (st : State E) :
  ConsecutiveRetries st ≠ 0%Z ->
  (maxSleep c <= 0 ∨ minSleep c <= maxSleep c)%Z ->
  (minSleep c <= Calculate c st)%Z
  ∧ ((0 < maxSleep c)%Z -> (Calculate c st <= maxSleep c)%Z).
Proof.
  intros Hcr Hmm. unfold Calculate.
  destruct (Z.eqb_spec (ConsecutiveRetries st) 0); [done|].
  destruct (Z.eqb_spec (ConsecutiveRetries st) 1); [lia|].
  rewrite !Z.gtb_ltb.
  repeat match goal with
         | |- context [(?a <? ?b)%Z] => destruct (Z.ltb_spec a b)
         end; simpl; lia.
Qed.

Lemma shl_zero (k : N) : Int64.shl 0 k = 0%Z.
Proof. unfold Int64.shl. by rewrite Z.shiftl_0_l. Qed.

(** With [minSleep = 0] a sleep time of 0 stays 0. *)
Lemma Calculate_zero (c : DefaultCalculator) (st : State E) :
  minSleep c = 0%Z -> SleepTime st = 0%Z -> Calculate c st = 0%Z.
Proof.
  intros Hmin Hs. unfold Calculate. rewrite Hmin, Hs, shl_zero.
  destruct (ConsecutiveRetries st =? 0)%Z; [done|].
  destruct (ConsecutiveRetries st =? 1)%Z; [done|].
  rewrite !Z.gtb_ltb.
  repeat match goal with
         | |- context [(?a <? ?b)%Z] => destruct (Z.ltb_spec a b)
         end; simpl; lia.
Qed.

Section Call.
Context {S : Type} (f : Paced E S) (p : Pacer E).
Hypothesis Hpacer : pacer_chan p = 1%nat.
Hypothesis Hconn : connTokens p ≠ 0%nat.

(** What a pass of the loop leaves behind, whatever the invoker: the
    tokens are back; a pass that returns has reset the retry state, a
    pass that goes on was not the last one. *)
Lemma Call_body_idle (try cr : Z) (w : World E S) :
  idle p (pc w) ->
  match Call_body f try cr w with
  | Return out w' =>
      idle p (pc w') ∧ (exists err, out = Returned err) ∧
      ConsecutiveRetries (state (pc w')) = 0%Z ∧
      LastError (state (pc w')) = None
  | Continue cr' err' w' =>
      idle p (pc w') ∧ (try < retries (options p))%Z
  end.
Proof.
  intros (Ho & Hp & Hc). unfold Call_body. rewrite Hp, Hc.
  destruct (connTokens p) as [|conn] eqn:Hcn; [done|].
  destruct (invoker (options (pc w)) S cr (retries (options (pc w))) f (op w))
    as [[again err] s'].
  rewrite Ho. destruct (Z.geb_spec try (retries (options p))).
  - rewrite orb_true_r. unfold idle. cbn. rewrite Hcn. eauto 10.
  - rewrite orb_false_r. destruct again; cbn; unfold idle; cbn; rewrite Hcn;
      eauto 10.
Qed.

Lemma Call_loop_idle (left : nat) :
  forall (try cr : Z) err (w : World E S),
    idle p (pc w) ->
    (try + Z.of_nat left = retries (options p) + 1)%Z ->
    left ≠ 0%nat ->
    exists err' w',
      Call_loop f left try cr err w = (Returned err', w') ∧
      idle p (pc w') ∧
      ConsecutiveRetries (state (pc w')) = 0%Z ∧
      LastError (state (pc w')) = None.
Proof.
  induction left as [|left IH]; intros try cr err w Hidle Hleft Hne; [done|].
  cbn [Call_loop]. pose proof (Call_body_idle try cr w Hidle) as Hb.
  destruct (Call_body f try cr w) as [out w'|cr' err' w'].
  - destruct Hb as (Hi & [e ->] & Hcr & Hle). by exists e, w'.
  - destruct Hb as [Hi Hlt]. apply IH; [done|lia|lia].
Qed.

(** X12. On a pacer with its pacing token and a connection token,
    [Call] returns, whatever the invoker and the calculator do (the
    invoker may not even call [f]), and hands the pacer back ready for the
    next call: both tokens returned, the options untouched, the retry
    count 0 and the last error cleared. *)
Theorem Call_returns_idle (s : S) (sl : list Z) :
  (0 <= retries (options p))%Z ->
  exists err w',
    Call f (Build_World p s sl) = (Returned err, w') ∧
    options (pc w') = options p ∧ pacer_chan (pc w') = 1%nat ∧
    connTokens (pc w') = connTokens p ∧
    ConsecutiveRetries (state (pc w')) = 0%Z ∧
    LastError (state (pc w')) = None.
Proof.
  intros Hret. unfold Call.
  destruct (Call_loop_idle (Z.to_nat (retries (options p) + 1)) 0 0 None
              (Build_World p s sl)) as (err & w' & Hl & (Ho & Hp & Hc) & Hs);
    [done|cbn; lia|cbn; lia|].
  by exists err, w'.
Qed.

End Call.

Lemma Call_loop_step {S : Type} (f : Paced E S) (left : nat) (try cr : Z) err
      (w : World E S) :
  Call_loop f (Datatypes.S left) try cr err w
  = match Call_body f try cr w with
    | Return out w' => (out, w')
    | Continue cr' err' w' => Call_loop f left (try + 1)%Z cr' err' w'
    end.
Proof. reflexivity. Qed.

Section DefaultInvoker.
Context {S : Type} (f : Paced E S) (p : Pacer E).
Hypothesis Hinv : invoker (options p) = DefaultInvoker.
Hypothesis Hret : (0 <= retries (options p) < 2 ^ 63)%Z.
Hypothesis Hpacer : pacer_chan p = 1%nat.
Hypothesis Hconn : connTokens p ≠ 0%nat.

Lemma Call_loop_until_stop (k : nat) :
  forall (try : Z) err (w : World E (S * nat)) s n,
    idle p (pc w) -> op w = (s, n) -> (0 <= try)%Z ->
    (try + Z.of_nat k <= retries (options p))%Z ->
    (forall i, (i < k)%nat -> fst (fst (f (after f i s))) = true) ->
    (fst (fst (f (after f k s))) = false
     ∨ (try + Z.of_nat k = retries (options p))%Z) ->
    exists w',
      Call_loop (counted f)
                (Datatypes.S (Z.to_nat (retries (options p) - try)))
                try try err w
      = (Returned (snd (fst (f (after f k s)))), w')
      ∧ op w' = (after f (Datatypes.S k) s, (n + Datatypes.S k)%nat).
Proof.
  induction k as [|k IH]; intros try err w s n Hidle Hop Htry Hle Hbefore Hstop.
  - cbn [after] in *. destruct (f s) as [[a e] s'] eqn:Hf. cbn [fst snd] in *.
    assert (exists w', Call_body (counted f) try try w = Return (Returned e) w'
                       ∧ op w' = (s', Datatypes.S n)) as (w' & Hb & Ho).
    { destruct Hstop as [->|Hlast].
      - destruct (PacerFacts.Call_body_stop f p Hinv Hconn try w s n e s')
          as (w' & ? & _ & ?); eauto.
      - destruct (PacerFacts.Call_body_last f p Hinv Hpacer Hconn try try w s n a e s')
          as (w' & ? & _ & ?); eauto; lia. }
    exists w'. cbn [Call_loop]. rewrite Hb. split; [done|].
    rewrite Ho. f_equal. lia.
  - destruct (f s) as [[a e] s'] eqn:Hf.
    assert (a = true) as ->.
    { specialize (Hbefore 0%nat ltac:(lia)). cbn [after] in Hbefore.
      by rewrite Hf in Hbefore. }
    destruct (PacerFacts.Call_body_again f p Hinv Hret Hpacer Hconn try w s n e s')
      as (w1 & Hb & Hi & Ho); [done|done|lia|done|].
    destruct (IH (try + 1)%Z e w1 s' (Datatypes.S n)) as (w' & Hl & Ho');
      [done|done|lia|lia| | |].
    { intros i Hi'. specialize (Hbefore (Datatypes.S i) ltac:(lia)).
      cbn [after] in Hbefore. by rewrite Hf in Hbefore. }
    { cbn [after] in Hstop. rewrite Hf in Hstop. cbn [snd] in Hstop.
      destruct Hstop; [by left|right; lia]. }
    exists w'.
    replace (Z.to_nat (retries (options p) - try))
      with (Datatypes.S (Z.to_nat (retries (options p) - (try + 1)))) by lia.
    rewrite Call_loop_step, Hb, Hl. cbn [after]. rewrite Hf. cbn [snd].
    split; [done|]. rewrite Ho'. f_equal. lia.
Qed.

(** X13. With the default invoker, [Call] invokes [f] until it
    stops asking for a retry or the budget is used up: if the first [k]
    invocations ask for a retry, and invocation [k] does not or [k] is
    the retry budget, [Call] returns the error of invocation [k] after
    exactly [k + 1] invocations. *)
Theorem Call_default_until_stop (s : S) (k : nat) :
  (Z.of_nat k <= retries (options p))%Z ->
  (forall i, (i < k)%nat -> fst (fst (f (after f i s))) = true) ->
  (fst (fst (f (after f k s))) = false
   ∨ Z.of_nat k = retries (options p)) ->
  exists w',
    Call (counted f) (Build_World p (s, 0%nat) [])
    = (Returned (snd (fst (f (after f k s)))), w')
    ∧ op w' = (after f (Datatypes.S k) s, Datatypes.S k).
Proof.
  intros Hk Hbefore Hstop. unfold Call.
  destruct (Call_loop_until_stop k 0 None (Build_World p (s, 0%nat) []) s 0%nat)
    as (w' & Hl & Ho); [done|done|lia|lia|done| |].
  { destruct Hstop; [by left|right; lia]. }
  exists w'. cbn [pc] in *.
  replace (Z.to_nat (retries (options p) + 1))
    with (Datatypes.S (Z.to_nat (retries (options p) - 0))) by lia.
  by rewrite Hl.
Qed.

End DefaultInvoker.

Section NeverSleeps.
Context {S : Type} (f : Paced E S) (c : DefaultCalculator).
Hypothesis Hmin : minSleep c = 0%Z.

Lemma Call_body_rested (try cr : Z) (w : World E S) :
  rested c (pc w) ->
  match Call_body f try cr w with
  | Return _ w' | Continue _ _ w' =>
      rested c (pc w') ∧
      (slept w' = slept w ∨ slept w' = slept w ++ [0%Z])
  end.
Proof.
  intros [Hc Hs]. unfold Call_body.
  destruct (pacer_chan (pc w)) as [|pt]; [by split; [|left]|].
  destruct (connTokens (pc w)) as [|conn]; [by split; [|left]|].
  destruct (invoker (options (pc w)) S cr (retries (options (pc w))) f (op w))
    as [[again err] s'].
  destruct (negb again || (try >=? retries (options (pc w)))%Z).
  - by split; [|left].
  - rewrite Hc. cbn [calculate]. rewrite Calculate_zero by done.
    destruct again; cbn; by split; [|right].
Qed.

Lemma Call_loop_rested (left : nat) :
  forall (try cr : Z) err (w w' : World E S) out,
    rested c (pc w) ->
    Call_loop f left try cr err w = (out, w') ->
    rested c (pc w') ∧ exists k, slept w' = slept w ++ replicate k 0%Z.
Proof.
  induction left as [|left IH]; intros try cr err w w' out Hr; cbn [Call_loop].
  - intros [= _ <-]. split; [done|]. exists 0%nat. by rewrite app_nil_r.
  - pose proof (Call_body_rested try cr w Hr) as Hb.
    destruct (Call_body f try cr w) as [o w1|cr1 err1 w1];
      destruct Hb as [Hr1 Hsl].
    + intros [= _ <-]. split; [done|].
      destruct Hsl as [->| ->]; [exists 0%nat|exists 1%nat]; [|done].
      by rewrite app_nil_r.
    + intros Hrec. apply IH in Hrec as [Hr' [k Hk]]; [|done].
      split; [done|]. destruct Hsl as [Heq|Heq]; rewrite Heq in Hk.
      * by exists k.
      * exists (Datatypes.S k). by rewrite Hk, <- app_assoc.
Qed.

(** X14. A default calculator with [minSleep = 0], as [New] makes
    it when no [MinSleep] option is given, never paces: starting from a
    sleep time of 0 every [time.Sleep] of [Call] is for 0 and the sleep
    time is 0 afterwards, however often [f] asks for a retry. *)
Theorem Call_zero_minSleep_never_waits (w w' : World E S) out :
  calculator (options (pc w)) = TheDefault c ->
  SleepTime (state (pc w)) = 0%Z ->
  Call f w = (out, w') ->
  SleepTime (state (pc w')) = 0%Z
  ∧ exists k, slept w' = slept w ++ replicate k 0%Z.
Proof.
  intros Hc Hs Hcall. unfold Call in Hcall.
  apply Call_loop_rested in Hcall as [[_ Hs'] Hk]; done.
Qed.

End NeverSleeps.

(** X15. A pacer made with [MaxConnectionsOption(0)] never invokes
    [f].  With [retries >= 0], [Call] takes the pacing token, then waits
    for a connection token that never comes.  With a negative [retries]
    the loop is not entered: [Call] returns nil at once and the pacer is
    as it was. *)
Theorem Call_without_connections {S : Type} (f : Paced E S)
        (opts : list (@Option E)) (s : S) :
  maxConnections (options (New opts)) = 0%Z ->
  ((0 <= retries (options (New opts)))%Z ->
   exists w', Call f (Build_World (New opts) s []) = (Blocked, w')
              ∧ op w' = s ∧ slept w' = [] ∧ pacer_chan (pc w') = 0%nat)
  ∧ ((retries (options (New opts)) < 0)%Z ->
     Call f (Build_World (New opts) s [])
     = (Returned None, Build_World (New opts) s [])).
Proof.
  intros Hmax. split; intros Hret; unfold Call; cbn [pc].
  - replace (Z.to_nat (retries (options (New opts)) + 1))
      with (Datatypes.S (Z.to_nat (retries (options (New opts))))) by lia.
    cbn [Call_loop]. unfold Call_body. cbn [pc].
    assert (Hc : connTokens (New opts) = 0%nat).
    { change (connTokens (New opts))
        with (Z.to_nat (maxConnections (options (New opts)))). lia. }
    change (pacer_chan (New opts)) with 1%nat. cbv iota. rewrite Hc.
    eexists. split; [reflexivity|]. done.
  - replace (Z.to_nat (retries (options (New opts)) + 1)) with 0%nat by lia.
    reflexivity.
Qed.

End Facts.

(** ** The pacer on concrete calls *)

Lemma Calculate_bounds_witness :
  let c := {| minSleep := 10; maxSleep := 2000; decayConstant := 2;
              burst := 0 |} in
  let st : State string := {| SleepTime := 10; ConsecutiveRetries := 9;
                              LastError := None |} in
  (10 <= Calculate c st)%Z ∧ ((0 < 2000)%Z -> (Calculate c st <= 2000)%Z).
Proof.
  intros c st. apply (Calculate_bounds c st).
  - discriminate.
  - right. cbn. lia.
Defined.

Lemma Call_returns_idle_witness :
  let p : Pacer string := New [RetriesOption 2] in
  exists err w',
    Call twice_busy (Build_World p 0 []) = (Returned err, w') ∧
    options (pc w') = options p ∧ pacer_chan (pc w') = 1 ∧
    connTokens (pc w') = connTokens p ∧
    ConsecutiveRetries (state (pc w')) = 0%Z ∧
    LastError (state (pc w')) = None.
Proof.
  intros p.
  apply (Call_returns_idle twice_busy p eq_refl ltac:(discriminate) 0 []).
  cbn. lia.
Defined.

Lemma Call_default_until_stop_witness :
  let p : Pacer string := New [] in
  exists w',
    Call (counted twice_busy) (Build_World p (0, 0) []) = (Returned None, w')
    ∧ op w' = (3, 3).
Proof.
  intros p.
  apply (Call_default_until_stop twice_busy p eq_refl
           ltac:(cbn; lia) eq_refl ltac:(discriminate) 0 2).
  - cbn. lia.
  - intros [|[|i]] Hi; [reflexivity|reflexivity|lia].
  - left. reflexivity.
Defined.

Lemma Call_zero_minSleep_never_waits_witness :
  let w : World string nat := Build_World (New []) 0 [] in
  SleepTime (state (pc (snd (Call twice_busy w)))) = 0%Z
  ∧ exists k, slept (snd (Call twice_busy w)) = slept w ++ replicate k 0%Z.
Proof.
  intros w.
  apply (Call_zero_minSleep_never_waits twice_busy zeroCalculator eq_refl
           w _ (fst (Call twice_busy w))); reflexivity.
Defined.

Lemma Call_without_connections_witness :
  (exists w' : World string nat,
     Call twice_busy (Build_World (New [MaxConnectionsOption 0]) 0 [])
     = (Blocked, w')
     ∧ op w' = 0 ∧ slept w' = [] ∧ pacer_chan (pc w') = 0)
  ∧ Call twice_busy
         (Build_World (New [MaxConnectionsOption 0; RetriesOption (-1)]) 0 [])
    = (Returned None,
       Build_World (New [MaxConnectionsOption 0; RetriesOption (-1)]) 0 []).
Proof.
  split.
  - apply (Call_without_connections twice_busy [MaxConnectionsOption 0] 0).
    + reflexivity.
    + cbn. lia.
  - apply (Call_without_connections twice_busy
             [MaxConnectionsOption 0; RetriesOption (-1)] 0).
    + reflexivity.
    + cbn. lia.
Defined.

End PacerMore.

(** * Conservation of tokens under concurrent calls *)
Module GoroutineMore.
Import goroutines GoroutineObs GoroutineFacts.

(** X16. No token is lost or made: in every state that [n]
    concurrent calls can reach, the pacing token is in its channel or
    with exactly one goroutine, and the connection tokens in the channel
    and with goroutines add up to the [maxConnections] the pacer was made
    with. *)
Theorem tokens_conserved (n k : nat) (r : Z) (p : program) :
  rtc step (start n k r) p ->
  pacer_chan p.2 + count holds_pacer p.1 = 1
  ∧ connTokens p.2 + count holds_conn p.1 = k.
Proof.
  intros Hreach. split.
  - by apply pacing_inv_reachable in Hreach.
  - pose proof (maxConnections_reachable _ _ _ _ Hreach) as Hk.
    apply inv_reachable in Hreach as [_ Hconn]. lia.
Qed.

Lemma tokens_conserved_witness :
  let p : program :=
    ([ {| at_ := InCall; try := 0; again := false |};
       {| at_ := AtLock; try := 0; again := false |} ],
     {| mu := true; pacer_chan := 0; connTokens := 1;
        maxConnections := 2; retries := 3 |}) in
  pacer_chan p.2 + count holds_pacer p.1 = 1
  ∧ connTokens p.2 + count holds_conn p.1 = 2.
Proof.
  intros p. apply (tokens_conserved 2 2 3 p).
  unfold start, p. cbn [replicate].
  eapply rtc_l.
  { eapply (step_of _ _ 0); [reflexivity|]. by apply s_loop_enter. }
  eapply rtc_l.
  { eapply (step_of _ _ 1); [reflexivity|]. by apply s_loop_enter. }
  eapply rtc_l.
  { eapply (step_of _ _ 0); [reflexivity|]. by apply s_lock. }
  eapply rtc_l.
  { eapply (step_of _ _ 0); [reflexivity|]. by eapply s_pacer. }
  eapply rtc_l.
  { eapply (step_of _ _ 0); [reflexivity|]. by eapply s_conn. }
  apply rtc_refl.
Defined.

End GoroutineMore.

(** * More on the context-aware pacer and its token pool *)
Module FsPacerMore.
Import fs fs_types Samples FsPacerFacts.

Section Facts.
Context {E S : Type} (ctx : Context E) (fn : Fn E S).

Lemma Call_loop_until_success (k : nat) :
  forall (try : Z) err (w : World E (S * nat)) s n,
    op w = (s, n) -> connTokens (pc w) ≠ 0%nat -> (0 <= try)%Z ->
    (try + Z.of_nat k <= retries (pc w))%Z ->
    alive ctx (try + Z.of_nat k + 1) ->
    (forall i, (i < k)%nat -> is_Some (fst (fn (after fn i s)))) ->
    (fst (fn (after fn k s)) = None
     ∨ (try + Z.of_nat k = retries (pc w))%Z) ->
    Call_loop ctx (counted fn)
              (Datatypes.S (Z.to_nat (retries (pc w) - try))) try err w
    = (pacer.Returned (fst (fn (after fn k s))),
       Build_World (pc w) (after fn (Datatypes.S k) s, (n + Datatypes.S k)%nat)
                   (slept w ++ delays (pc w) fn try k s)).
Proof.
  induction k as [|k IH]; intros try err w s n Hop Hconn Htry Hle Halive
                                 Hfail Hstop.
  - rewrite Call_loop_S. unfold Call_body.
    rewrite Halive by lia.
    destruct (connTokens (pc w)) as [|c]; [done|].
    rewrite Hop. cbn [counted after delays] in *.
    destruct (fn s) as [[e|] s'] eqn:Hf; cbn [fst snd] in *.
    + destruct Hstop as [?|Hlast]; [done|].
      destruct (Z.geb_spec try (retries (pc w))); [|lia].
      rewrite app_nil_r. do 3 f_equal. lia.
    + rewrite app_nil_r. do 3 f_equal. lia.
  - rewrite Call_loop_S. unfold Call_body.
    rewrite Halive by lia.
    destruct (connTokens (pc w)) as [|c] eqn:Hc; [done|].
    rewrite Hop. cbn [counted].
    destruct (fn s) as [r s'] eqn:Hf.
    destruct (Hfail 0%nat ltac:(lia)) as [e He]. cbn [after] in He.
    rewrite Hf in He. cbn [fst] in He. subst r.
    destruct (Z.geb_spec try (retries (pc w))); [lia|].
    rewrite Halive by lia.
    replace (Z.to_nat (retries (pc w) - try))
      with (Datatypes.S (Z.to_nat (retries (pc w) - (try + 1)))) by lia.
    pose proof (IH (try + 1)%Z (Some e)
                  (Build_World (pc w) (s', Datatypes.S n)
                     (slept w ++ [calculateDelay (pc w)
                        {| ConsecutiveRetries := try; LastError := Some e |}]))
                  s' (Datatypes.S n)) as Hrec.
    cbn [pc op slept] in Hrec. rewrite Hrec; clear Hrec;
      [|done|by rewrite Hc|lia|lia| | |].
    + cbn [after delays]. rewrite Hf. cbn [fst snd].
      rewrite <- app_assoc. do 3 f_equal. lia.
    + intros try' pt Ht. apply Halive. lia.
    + intros i Hi. specialize (Hfail (Datatypes.S i) ltac:(lia)).
      cbn [after] in Hfail. by rewrite Hf in Hfail.
    + cbn [after] in Hstop. rewrite Hf in Hstop. cbn [snd] in Hstop.
      destruct Hstop; [by left|right; lia].
Qed.

(** X17. While the context is not done, [Call] retries until [fn]
    succeeds or the budget is used up: if the first [k] invocations fail,
    and invocation [k] succeeds or [k] is [retries], [Call] returns the
    result of invocation [k] after exactly [k + 1] invocations, having
    slept once after each failure but the last, for the delay
    [calculateDelay] gives for that try number and error; the tokens are
    back. *)
Theorem Call_until_success (p : Pacer E) (s : S) (k : nat) :
  connTokens p ≠ 0%nat ->
  (Z.of_nat k <= retries p)%Z ->
  alive ctx (Z.of_nat k + 1) ->
  (forall i, (i < k)%nat -> is_Some (fst (fn (after fn i s)))) ->
  (fst (fn (after fn k s)) = None ∨ Z.of_nat k = retries p) ->
  Call ctx (counted fn) (Build_World p (s, 0%nat) [])
  = (pacer.Returned (fst (fn (after fn k s))),
     Build_World p (after fn (Datatypes.S k) s, Datatypes.S k)
                 (delays p fn 0 k s)).
Proof.
  intros Hconn Hk Halive Hfail Hstop. unfold Call. cbn [pc].
  replace (Z.to_nat (retries p + 1))
    with (Datatypes.S (Z.to_nat (retries p - 0))) by lia.
  pose proof (Call_loop_until_success k 0 None
                (Build_World p (s, 0%nat) []) s 0%nat) as Hrec.
  cbn [pc op slept] in Hrec. rewrite Hrec; try done; try lia.
Qed.

Lemma Call_loop_bound (left : nat) :
  forall (try : Z) err (w w' : World E (S * nat)) out s n,
    op w = (s, n) ->
    Call_loop ctx (counted fn) left try err w = (out, w') ->
    pc w' = pc w ∧
    exists m, (m <= left)%nat ∧ op w' = (after fn m s, (n + m)%nat).
Proof.
  induction left as [|left IH]; intros try err w w' out s n Hop.
  - intros [= _ <-]. split; [done|]. exists 0%nat. split; [done|].
    rewrite Hop. f_equal. lia.
  - rewrite Call_loop_S. unfold Call_body.
    destruct (done_first ctx try TokenWait).
    { intros [= _ <-]. split; [done|]. exists 0%nat. split; [lia|].
      rewrite Hop. f_equal. lia. }
    destruct (connTokens (pc w)).
    { intros [= _ <-]. split; [done|]. exists 0%nat. split; [lia|].
      rewrite Hop. f_equal. lia. }
    rewrite Hop. cbn [counted]. destruct (fn s) as [r s'] eqn:Hf.
    assert (Hone : forall sl, op (Build_World (pc w) (s', Datatypes.S n) sl)
                              = (after fn 1 s, (n + 1)%nat)).
    { intros sl. cbn [op after]. rewrite Hf. cbn [snd]. f_equal. lia. }
    destruct r as [e|].
    + destruct (try >=? retries (pc w))%Z.
      { intros [= _ <-]. split; [done|]. exists 1%nat. split; [lia|].
        apply Hone. }
      destruct (done_first ctx try BackoffSleep).
      { intros [= _ <-]. split; [done|]. exists 1%nat. split; [lia|].
        apply Hone. }
      intros Hrec. eapply IH in Hrec as (Hpc & m & Hm & Ho); [|reflexivity].
      split; [done|]. exists (Datatypes.S m). split; [lia|].
      rewrite Ho. cbn [after]. rewrite Hf. cbn [snd]. f_equal. lia.
    + intros [= _ <-]. split; [done|]. exists 1%nat. split; [lia|].
      apply Hone.
Qed.

(** X18. Whatever the context and [fn] do, [Call] invokes [fn] at
    most [retries + 1] times (not at all for a negative [retries]) and
    leaves the pacer as it was. *)
Theorem Call_bounded (w w' : World E (S * nat)) (s : S) out :
  op w = (s, 0%nat) ->
  Call ctx (counted fn) w = (out, w') ->
  pc w' = pc w ∧
  exists m, op w' = (after fn m s, m) ∧ (Z.of_nat m <= Z.max 0 (retries (pc w) + 1))%Z.
Proof.
  intros Hop Hcall. unfold Call in Hcall.
  apply (Call_loop_bound _ _ _ _ _ _ s 0%nat) in Hcall as (Hpc & m & Hm & Ho);
    [|done].
  split; [done|]. exists m. split; [done|]. lia.
Qed.

End Facts.

(** X19. [SetMaxConnections] refills the pool whatever is checked
    out: after [GetToken] and then [SetMaxConnections(n)], the channel is
    full with [n] tokens, so the [PutToken] that returns the token waits
    (for good, if nobody takes a token). *)
Theorem resize_while_holding_a_token {E : Type} (p p1 p2 : Pacer E) (n : Z) :
  GetToken p = Done p1 ->
  SetMaxConnections p1 n = Done p2 ->
  PutToken p2 = Waits ∧ connTokens p2 = Z.to_nat n ∧ (0 <= n)%Z.
Proof.
  unfold GetToken, SetMaxConnections, PutToken.
  destruct (connTokens p); [done|]. intros [= <-].
  destruct (Z.ltb_spec n 0); [done|]. intros [= <-]. cbn.
  destruct (Z.ltb_spec (Z.of_nat (Z.to_nat n)) n); [lia|done].
Qed.

(** ** The context-aware pacer on concrete calls *)

Lemma Call_until_success_witness :
  let p : Pacer string := NewPacer (fun _ => 100%Z) in
  Call background (counted twice_failing) (Build_World p (0, 0) [])
  = (pacer.Returned None, Build_World p (3, 3) [100%Z; 100%Z]).
Proof.
  intros p.
  apply (Call_until_success background twice_failing p 0 2).
  - discriminate.
  - cbn. lia.
  - intros try pt _. reflexivity.
  - intros [|[|i]] Hi; [by eexists|by eexists|lia].
  - left. reflexivity.
Defined.

Lemma Call_bounded_witness :
  let p : Pacer string := NewPacer (fun _ => 100%Z) in
  let w := Build_World p (0, 0) [] in
  let run := Call background (counted twice_failing) w in
  pc run.2 = p ∧
  exists m, op run.2 = (after twice_failing m 0, m) ∧ (Z.of_nat m <= 4)%Z.
Proof.
  intros p w run.
  apply (Call_bounded background twice_failing w run.2 0 run.1); reflexivity.
Defined.

Lemma resize_while_holding_a_token_witness :
  let p : Pacer string := NewPacer (fun _ => 100%Z) in
  exists p1 p2,
    GetToken p = Done p1 ∧ SetMaxConnections p1 1 = Done p2 ∧
    PutToken p2 = Waits ∧ connTokens p2 = 1.
Proof.
  intros p. eexists _, _. split; [reflexivity|]. split; [reflexivity|].
  destruct (resize_while_holding_a_token p _ _ 1 eq_refl eq_refl)
    as (Hput & Hconn & _).
  split; [exact Hput|exact Hconn].
Defined.

End FsPacerMore.

(** * The remote path and [Mkdir] of the drive backend *)
Module DriveFacts.
Import Path Strings dircache drive DriveObs PathFacts.

Lemma ContainsAny_app (a b chars : string) :
  ContainsAny (a +:+ b) chars = ContainsAny a chars || ContainsAny b chars.
Proof.
  induction a as [|c a IH]; [done|].
  change (in_chars c chars || ContainsAny (a +:+ b) chars
          = in_chars c chars || ContainsAny a chars || ContainsAny b chars).
  rewrite IH. by rewrite orb_assoc.
Qed.

Lemma ContainsAny_JoinSep (l : list string) (chars : string) :
  in_chars "/" chars = false ->
  ContainsAny (JoinSep l) chars = existsb (fun e => ContainsAny e chars) l.
Proof.
  intros Hsep. induction l as [|e l IH]; [done|].
  destruct l as [|e' l].
  - cbn. by rewrite orb_false_r.
  - rewrite JoinSep_cons, !ContainsAny_app, IH.
    cbn [ContainsAny existsb]. rewrite Hsep. by rewrite !orb_false_r.
Qed.

Lemma parse_part_kept (result : list string) (part : string) :
  Forall kept result -> has_sep part = false ->
  ContainsAny part "*?" = false ->
  Forall kept (parse_part result part).
Proof.
  intros Hres Hsep Hany. unfold parse_part.
  repeat case_decide; try done.
  - by apply Forall_take.
  - apply Forall_app. split; [done|]. constructor; [|done].
    split; [|done]. unfold is_name. rewrite Hsep.
    by rewrite !bool_decide_eq_true_2.
Qed.

Lemma parse_parts_kept (parts : list string) :
  forall result,
    Forall kept result ->
    Forall (fun e => has_sep e = false) parts ->
    Forall (fun e => ContainsAny e "*?" = false) parts ->
    Forall kept (fold_left parse_part parts result).
Proof.
  induction parts as [|part parts IH]; intros result Hres Hsep Hany; [done|].
  inversion Hsep; inversion Hany; subst. cbn [fold_left].
  apply IH; [|done|done]. by apply parse_part_kept.
Qed.

Lemma parseDrivePath_kept (inputPath root : string) :
  parseDrivePath inputPath = inl root ->
  exists l, root = JoinSep l ∧ Forall kept l.
Proof.
  unfold parseDrivePath. case_decide.
  { intros [= <-]. by exists []. }
  destruct (ContainsAny _ "*?") eqn:Hany; [done|]. intros [= <-].
  eexists. split; [done|].
  apply parse_parts_kept; [done|apply Split_no_sep|].
  rewrite <- (JoinSep_Split (Trim (Clean inputPath) "/")) in Hany.
  rewrite ContainsAny_JoinSep in Hany by done.
  apply Forall_forall. intros e He.
  destruct (ContainsAny e "*?") eqn:Hx; [|done].
  assert (existsb (λ e, ContainsAny e "*?")
            (Split (Trim (Clean inputPath) "/")) = true); [|congruence].
  apply existsb_exists. exists e. split; [|done]. by apply list_elem_of_In.
Qed.

Lemma kept_names (l : list string) :
  Forall kept l -> Forall (fun e => is_name e = true) l.
Proof. intros Hl. eapply Forall_impl; [done|]. by intros e [? ?]. Qed.

Lemma kept_no_wildcard (l : list string) :
  Forall kept l -> ContainsAny (JoinSep l) "*?" = false.
Proof.
  intros Hl. rewrite ContainsAny_JoinSep by done.
  destruct (existsb _ l) eqn:Hex; [|done].
  apply existsb_exists in Hex as (e & He%list_elem_of_In & Hany).
  rewrite Forall_forall in Hl. destruct (Hl e He). congruence.
Qed.

(** X20. Every path [parseDrivePath] accepts comes out normalised:
    the result is empty or made of names only (no empty, "." or ".."
    element, so no leading, trailing or doubled "/"), and holds neither
    "*" nor "?". *)
Theorem parseDrivePath_plain (inputPath root : string) :
  parseDrivePath inputPath = inl root ->
  (root = "" ∨ plain root = true) ∧ ContainsAny root "*?" = false.
Proof.
  intros (l & -> & Hl)%parseDrivePath_kept. split.
  - destruct l as [|e l]; [by left|right].
    unfold plain. rewrite Split_JoinSep; [|done|].
    + apply forallb_forall. intros x Hx%list_elem_of_In.
      rewrite Forall_forall in Hl. by apply Hl.
    + eapply Forall_impl; [apply (kept_names _ Hl)|].
      intros x Hx. by apply is_name_spec in Hx as [? _].
  - by apply kept_no_wildcard.
Qed.

Lemma TrimLeft_name_head (e r : string) :
  is_name e = true -> TrimLeft (e +:+ r) "/" = e +:+ r.
Proof.
  intros (Hsep & Hne & _)%is_name_spec. destruct e as [|a e]; [done|].
  cbn [has_sep] in Hsep. apply orb_false_iff in Hsep as [Ha _].
  unfold Separator in Ha.
  change (TrimLeft (String a (e +:+ r)) "/" = String a (e +:+ r)).
  cbn [TrimLeft in_chars]. by rewrite Ha.
Qed.

Lemma TrimRight_no_sep (e : string) :
  has_sep e = false -> TrimRight e "/" = e.
Proof.
  induction e as [|a e IH]; [done|]. cbn [has_sep TrimRight in_chars].
  unfold Separator. intros [Ha He]%orb_false_iff.
  rewrite Ha, IH by done. done.
Qed.

Lemma append_nil_r (a : string) : a +:+ "" = a.
Proof.
  induction a as [|c a IH]; [done|].
  change (String c (a +:+ "") = String c a). by rewrite IH.
Qed.

Lemma append_nonempty_r (a b : string) : b ≠ "" -> a +:+ b ≠ "".
Proof. by destruct a. Qed.

Lemma TrimRight_app (a b : string) :
  b ≠ "" -> TrimRight b "/" = b -> TrimRight (a +:+ b) "/" = a +:+ b.
Proof.
  intros Hb Ht. induction a as [|c a IH]; [done|].
  change (TrimRight (String c (a +:+ b)) "/" = String c (a +:+ b)).
  cbn [TrimRight]. rewrite IH.
  rewrite bool_decide_eq_false_2 by by apply append_nonempty_r.
  by rewrite andb_false_r.
Qed.

Lemma TrimRight_names (l : list string) :
  l ≠ [] -> Forall (fun e => is_name e = true) l ->
  TrimRight (JoinSep l) "/" = JoinSep l.
Proof.
  induction l as [|e l IH]; [done|]. intros _ Hl.
  inversion Hl as [|? ? He Hl']; subst.
  destruct l as [|e' l].
  - apply is_name_spec in He as [? _]. by apply TrimRight_no_sep.
  - rewrite JoinSep_cons.
    assert (Hrest : JoinSep (e' :: l) ≠ "")
      by by apply JoinSep_names_head.
    apply TrimRight_app; [by apply append_nonempty_r|].
    apply TrimRight_app; [done|]. by apply IH.
Qed.

Lemma Trim_names (l : list string) :
  l ≠ [] -> Forall (fun e => is_name e = true) l ->
  Trim (JoinSep l) "/" = JoinSep l.
Proof.
  intros Hne Hl. unfold Trim.
  assert (TrimLeft (JoinSep l) "/" = JoinSep l) as ->.
  { destruct l as [|e l]; [done|]. inversion Hl; subst.
    destruct l as [|e' l].
    - change (JoinSep [e]) with e. rewrite <- (append_nil_r e).
      by apply TrimLeft_name_head.
    - rewrite JoinSep_cons. by apply TrimLeft_name_head. }
  by apply TrimRight_names.
Qed.

Lemma parse_part_name (result : list string) (e : string) :
  is_name e = true -> parse_part result e = result ++ [e].
Proof.
  intros (_ & ? & ? & ?)%is_name_spec. unfold parse_part.
  by rewrite !decide_False by done.
Qed.

Lemma parse_parts_names (l : list string) :
  forall result,
    Forall (fun e => is_name e = true) l ->
    fold_left parse_part l result = result ++ l.
Proof.
  induction l as [|e l IH]; intros result Hl.
  - by rewrite app_nil_r.
  - inversion Hl; subst. cbn [fold_left].
    rewrite parse_part_name, IH by done. by rewrite <- app_assoc.
Qed.

(** X21. [parseDrivePath] is idempotent: a path it returned is
    accepted and returned as it is. *)
Theorem parseDrivePath_idempotent (inputPath root : string) :
  parseDrivePath inputPath = inl root -> parseDrivePath root = inl root.
Proof.
  intros (l & -> & Hl)%parseDrivePath_kept.
  pose proof (kept_no_wildcard l Hl) as Hany.
  apply kept_names in Hl.
  destruct l as [|e l]; [done|].
  assert (Hsep : Forall (fun e => has_sep e = false) (e :: l)).
  { eapply Forall_impl; [exact Hl|].
    intros x Hx. by apply is_name_spec in Hx as [? _]. }
  unfold parseDrivePath. rewrite decide_False.
  - rewrite Clean_names, Trim_names, Hany, Split_JoinSep by done.
    by rewrite parse_parts_names.
  - intros Hdot.
    pose proof (Split_JoinSep (e :: l) ltac:(done) Hsep) as Hsplit.
    rewrite Hdot in Hsplit. cbn in Hsplit. injection Hsplit as <- <-.
    by inversion Hl.
Qed.

Section Fs.
Context {B : Type} (fs : DirCacher B).
Variable is_ErrorDirNotFound : error -> bool.
Hypothesis not_FindRootNotCalled :
  is_ErrorDirNotFound ErrFindRootNotCalled = false.
Hypothesis not_CouldntFindDirectory :
  forall path, is_ErrorDirNotFound (ErrCouldntFindDirectory path) = false.

(** X22. [Mkdir] makes no directory: its backend calls are all
    [FindLeaf] calls.  When the directory is missing it returns the
    "couldn't find directory" error of [FindDir], and on a cache whose
    [FindRoot] did not run (which is how [newFs] leaves it) it returns
    "FindRoot not called" with no backend call. *)
Theorem Mkdir_never_creates (dir : string) (w w' : World B)
        (r : option error) :
  Mkdir fs is_ErrorDirNotFound dir w = (r, w') ->
  (exists new, calls w' = calls w ++ new ∧
               Forall (fun c => is_FindLeaf c = true) new)
  ∧ (foundRoot (dc w) = false -> r = Some ErrFindRootNotCalled ∧ w' = w)
  ∧ (forall w1,
       FindDir fs dir w = (Err (ErrCouldntFindDirectory dir), w1) ->
       r = Some (ErrCouldntFindDirectory dir) ∧ w' = w1).
Proof.
  unfold Mkdir. intros Hrun. split; [|split].
  - destruct (FindDir fs dir w) as [r1 w1] eqn:H1.
    apply DirCacheFacts.FindDir_calls in H1 as (new1 & Hc1 & Hf1 & _).
    destruct r1 as [id|e].
    { injection Hrun as <- <-. by exists new1. }
    destruct (negb (is_ErrorDirNotFound e)).
    { injection Hrun as <- <-. by exists new1. }
    destruct (FindDir fs dir w1) as [r2 w2] eqn:H2.
    apply DirCacheFacts.FindDir_calls in H2 as (new2 & Hc2 & Hf2 & _).
    exists (new1 ++ new2). split.
    + destruct r2; injection Hrun as <- <-;
        by rewrite Hc2, Hc1, app_assoc.
    + apply Forall_app. by split.
  - intros Hroot. unfold FindDir in Hrun. rewrite Hroot in Hrun.
    cbn [negb] in Hrun. rewrite not_FindRootNotCalled in Hrun.
    by injection Hrun as <- <-.
  - intros w1 H1. rewrite H1, not_CouldntFindDirectory in Hrun.
    by injection Hrun as <- <-.
Qed.

End Fs.

Lemma Mkdir_never_creates_witness :
  let w := ready Backends.nothing () in
  let run := Mkdir Backends.nothing by_text "x" w in
  run.1 = Some (ErrCouldntFindDirectory "x") ∧
  calls run.2 = [FindLeafCall "root" "x" "" false None].
Proof.
  intros w run.
  destruct (Mkdir_never_creates Backends.nothing by_text eq_refl
              (fun _ => eq_refl) "x" w run.2 run.1 eq_refl)
    as (_ & _ & Hmissing).
  destruct (Hmissing run.2 eq_refl) as [-> _]. split; reflexivity.
Defined.

Lemma parseDrivePath_plain_witness :
  parseDrivePath "/a//b/../c/" = inl "a/c" ∧
  plain "a/c" = true ∧ ContainsAny "a/c" "*?" = false.
Proof.
  split; [reflexivity|].
  destruct (parseDrivePath_plain "/a//b/../c/" "a/c" eq_refl) as [[H|H] H'].
  - discriminate H.
  - split; [exact H|exact H'].
Defined.

Lemma parseDrivePath_idempotent_witness :
  parseDrivePath "../x/./y" = inl "x/y" ∧ parseDrivePath "x/y" = inl "x/y".
Proof.
  split; [reflexivity|].
  apply (parseDrivePath_idempotent "../x/./y"). reflexivity.
Defined.

End DriveFacts.

(** * Range options *)
Module OptionFacts.
Import open_options.

Lemma wrap_in_range (z : Z) : Int64.in_range z -> Int64.wrap z = z.
Proof.
  unfold Int64.in_range, Int64.wrap. intros H.
  rewrite Z.mod_small; lia.
Qed.

Lemma wrap_range (z : Z) : Int64.in_range (Int64.wrap z).
Proof.
  unfold Int64.in_range, Int64.wrap.
  pose proof (Z.mod_pos_bound (z + 2 ^ 63) (2 ^ 64) ltac:(lia)). lia.
Qed.

(** X23. After [FixRangeOption] with a known size, every range
    left in the slice ends inside the object ([0 <= End <= size], and the
    size is not 0); for a positive size no [SeekOption] is left, for size
    0 every [RangeOption] has become a [NullOption]; the other options
    are the ones that were there. *)
Theorem FixRangeOption_bounds (opts : list OpenOption) (size : Z) (i : nat)
        (o : OpenOption) :
  (0 <= size)%Z -> Int64.in_range size ->
  FixRangeOption opts size !! i = Some o ->
  match o with
  | RangeOption _ End => (0 < size)%Z ∧ (0 <= End <= size)%Z
  | SeekOption _ => size = 0%Z ∧ opts !! i = Some o
  | NullOption =>
      opts !! i = Some o
      ∨ (size = 0%Z ∧ exists Start End,
                        opts !! i = Some (RangeOption Start End))
  | OtherOption _ => opts !! i = Some o
  end.
Proof.
  intros Hsize Hrange. unfold FixRangeOption.
  destruct (Z.ltb_spec size 0); [lia|].
  destruct (Z.eqb_spec size 0) as [->|Hnz].
  - rewrite list_lookup_fmap. destruct (opts !! i) as [o0|]; [|done].
    cbn. intros [= <-]. destruct o0; try done; [|by left].
    right. split; [done|]. by eexists _, _.
  - rewrite list_lookup_fmap. destruct (opts !! i) as [o0|]; [|done].
    cbn. intros [= <-].
    assert (Hw : Int64.wrap (size - 1) = (size - 1)%Z).
    { apply wrap_in_range. unfold Int64.in_range in *. lia. }
    destruct o0 as [s e|off| |name]; cbn [fix_option]; try done;
      [| |by left].
    + destruct (Z.ltb_spec s 0).
      * cbv beta iota. change (-1 <? 0)%Z with true.
        rewrite orb_true_r, Hw. lia.
      * destruct (Z.gtb_spec e size); cbn [orb].
        { rewrite Hw. lia. }
        destruct (Z.ltb_spec e 0); [rewrite Hw|]; lia.
    + rewrite Hw. lia.
Qed.

(** X24. [FixRangeOption] and [Decode] agree on where a range
    starts exactly when the range gives a start or an end: for a range
    with both omitted [Decode] says offset 0 and [FixRangeOption] puts the
    start past the end of the object. *)
Theorem FixRangeOption_offset (opts : list OpenOption) (size : Z) (i : nat)
        (Start End : Z) :
  (0 < size)%Z -> Int64.in_range size -> Int64.in_range End ->
  opts !! i = Some (RangeOption Start End) ->
  exists Start' End',
    FixRangeOption opts size !! i = Some (RangeOption Start' End') ∧
    (Start' = fst (Decode Start End size)
     <-> (0 <= Start)%Z ∨ (0 <= End)%Z).
Proof.
  intros Hsize Hrange Hend Hi. unfold FixRangeOption.
  destruct (Z.ltb_spec size 0); [lia|].
  destruct (Z.eqb_spec size 0); [lia|].
  rewrite list_lookup_fmap, Hi. cbn [fmap option_fmap option_map fix_option].
  unfold Decode.
  destruct (Z.ltb_spec Start 0), (Z.geb_spec Start 0); try lia.
  - cbv beta iota. change (-1 <? 0)%Z with true. rewrite orb_true_r.
    eexists _, _. split; [done|]. cbn [fst].
    destruct (Z.geb_spec End 0).
    + split; [lia|done].
    + split; [|lia]. intros Hzero. exfalso.
      unfold Int64.wrap, Int64.in_range in *.
      change (2 ^ 63)%Z with 9223372036854775808%Z in *.
      change (2 ^ 64)%Z with 18446744073709551616%Z in *.
      pose proof (Z.div_mod (size - End + 9223372036854775808)
                    18446744073709551616 ltac:(lia)) as Hdm.
      pose proof (Z.mod_pos_bound (size - End + 9223372036854775808)
                    18446744073709551616 ltac:(lia)) as Hb.
      destruct (Z.lt_ge_cases (size - End + 9223372036854775808)
                  18446744073709551616) as [Hlt|Hge].
      * rewrite Z.mod_small in Hzero by lia. lia.
      * assert (Hq : ((size - End + 9223372036854775808)
                      `div` 18446744073709551616 = 1)%Z).
        { symmetry.
          apply Z.div_unique
            with (r := (size - End + 9223372036854775808
                        - 18446744073709551616)%Z); lia. }
        rewrite Hq in Hdm. lia.
  - destruct ((End >? size)%Z || (End <? 0)%Z);
      eexists _, _; (split; [done|]); cbn [fst]; (split; [lia|done]).
Qed.

Lemma FixRangeOption_bounds_witness :
  FixRangeOption [RangeOption (-1) 100; SeekOption 5] 1000 !! 1%nat
  = Some (RangeOption 5 999)
  ∧ (0 < 1000)%Z ∧ (0 <= 999 <= 1000)%Z.
Proof.
  split; [reflexivity|].
  apply (FixRangeOption_bounds [RangeOption (-1) 100; SeekOption 5] 1000 1
           (RangeOption 5 999)).
  - lia.
  - unfold Int64.in_range. lia.
  - reflexivity.
Defined.

Lemma FixRangeOption_offset_witness :
  exists Start' End',
    FixRangeOption [RangeOption (-1) 100] 1000 !! 0%nat
    = Some (RangeOption Start' End')
    ∧ (Start' = fst (Decode (-1) 100 1000) <-> (0 <= -1)%Z ∨ (0 <= 100)%Z).
Proof.
  apply (FixRangeOption_offset [RangeOption (-1) 100] 1000 0 (-1) 100).
  - lia.
  - unfold Int64.in_range. lia.
  - unfold Int64.in_range. lia.
  - reflexivity.
Defined.

End OptionFacts.

(** * Metadata *)
Module MetadataFacts.
Import metadata.

Lemma Equal_spec (m other : Metadata) :
  Equal m other = true <->
  len m = len other ∧
  forall k v, entries m !! k = Some v -> index other k = v.
Proof.
  unfold Equal. destruct (Nat.eqb_spec (len m) (len other)) as [Hlen|Hlen];
    cbn [negb].
  - rewrite forallb_forall. split.
    + intros Hall. split; [done|]. intros k v Hk.
      assert (Hin : In (k, v) (map_to_list (entries m)))
        by by apply list_elem_of_In, elem_of_map_to_list.
      apply Hall in Hin. by apply bool_decide_eq_true in Hin.
    + intros [_ Hall] [k v] Hin%list_elem_of_In%elem_of_map_to_list.
      apply bool_decide_eq_true_2. by apply Hall.
  - split; [done|]. by intros [? _].
Qed.

Lemma Copy_entries (m : Metadata) : entries (Copy m) = entries m.
Proof.
  unfold Copy, entries at 1. cbn [default from_option id].
  apply (map_fold_weak_ind (fun r g => r = g)); [done|].
  intros i x g r _ ->. done.
Qed.

(** X25. For metadata without empty values, [Equal] is equality:
    it returns true exactly when both maps hold the same entries (a nil
    map holding none). *)
Theorem Equal_without_empty_values (m other : Metadata) :
  (forall k, entries m !! k ≠ Some "") ->
  (Equal m other = true <-> entries m = entries other).
Proof.
  intros Hne. rewrite Equal_spec. split.
  - intros [Hlen Hall]. apply map_subseteq_size_eq.
    + apply map_subseteq_spec. intros k v Hk.
      specialize (Hall k v Hk). unfold index in Hall.
      destruct (entries other !! k) as [v'|]; cbn in Hall; [by subst|].
      subst v. by destruct (Hne k).
    + unfold len in Hlen. by rewrite Hlen.
  - intros Heq. unfold len, index. rewrite <- Heq. split; [done|].
    intros k v ->. done.
Qed.

(** X26. [Equal] does not tell a key with an empty value from an
    absent key: two maps that differ in which new key they give the value
    "" compare equal, as [Get] returns "" for both. *)
Theorem Equal_blind_to_empty_values (g : gmap string string)
        (k k' : string) :
  g !! k = None -> g !! k' = None ->
  Equal (Set_ (Some g) k "") (Set_ (Some g) k' "") = true
  ∧ Get (Set_ (Some g) k "") k = Get (Some g) k.
Proof.
  intros Hk Hk'. split.
  - apply Equal_spec. unfold len, index, entries, Set_.
    cbn [default from_option id]. split.
    + by rewrite !map_size_insert_None.
    + intros j v. destruct (decide (j = k)) as [->|Hj].
      * rewrite lookup_insert_eq. intros [= <-].
        destruct (decide (k = k')) as [->|Hkk'].
        -- by rewrite lookup_insert_eq.
        -- by rewrite lookup_insert_ne, Hk by done.
      * rewrite lookup_insert_ne by done. intros Hv.
        rewrite lookup_insert_ne, Hv; [done|]. intros ->. congruence.
  - unfold Get, index, entries, Set_. cbn [default from_option id].
    by rewrite lookup_insert_eq, Hk.
Qed.

(** X27. [Set] then [Get] returns the value set, except on a nil
    map, where [Set] is dropped and [Get] returns ""; [Copy] always
    makes a map that [Set] works on, equal to the original. *)
Theorem Set_needs_a_map (m : Metadata) (key value key' : string) :
  Get (Set_ m key value) key'
  = (if decide (m = None) then ""
     else if decide (key' = key) then value else Get m key')
  ∧ Get (Set_ (Copy m) key value) key'
    = (if decide (key' = key) then value else Get m key')
  ∧ Equal (Copy m) m = true.
Proof.
  split; [|split].
  - destruct m as [g|]; [|done]. rewrite decide_False by done.
    unfold Get, index, entries, Set_. cbn [default from_option id].
    case_decide as Hk.
    + subst. by rewrite lookup_insert_eq.
    + by rewrite lookup_insert_ne.
  - pose proof (Copy_entries m) as Hc.
    unfold Copy, Get, index, entries, Set_ in *.
    cbn [default from_option id] in *. case_decide as Hk.
    + subst. by rewrite lookup_insert_eq.
    + rewrite lookup_insert_ne, Hc by done. by destruct m.
  - apply Equal_spec. unfold len, index. rewrite Copy_entries.
    split; [done|]. by intros k v ->.
Qed.

Lemma Equal_without_empty_values_witness :
  let m : Metadata := Some {["mtime" := "2024"]} in
  let other : Metadata := Some {["mtime" := "2025"]} in
  Equal m other = true <-> entries m = entries other.
Proof.
  intros m other. apply (Equal_without_empty_values m other).
  intros k Hk. unfold m, entries in Hk. cbn [default from_option id] in Hk.
  apply lookup_singleton_Some in Hk as [_ Hv]. discriminate Hv.
Defined.

Lemma Equal_blind_to_empty_values_witness :
  Equal (Set_ (Some ∅) "a" "") (Set_ (Some ∅) "b" "") = true
  ∧ Get (Set_ (Some ∅) "a" "") "a" = Get (Some ∅) "a".
Proof.
  apply (Equal_blind_to_empty_values ∅ "a" "b"); reflexivity.
Defined.

End MetadataFacts.

(** * Hash types and their names *)
Module HashFacts.
Import Strings hash.

Lemma land_pow2 (t : Z) (k : Z) :
  (0 <= k)%Z ->
  Z.land t (2 ^ k) = if Z.testbit t k then (2 ^ k)%Z else 0%Z.
Proof.
  intros Hk. apply Z.bits_inj'. intros n Hn.
  rewrite Z.land_spec, Z.pow2_bits_eqb by done.
  destruct (Z.eqb_spec k n) as [->|Hne].
  - rewrite andb_true_r. destruct (Z.testbit t n) eqn:Ht.
    + by rewrite Z.pow2_bits_true.
    + by rewrite Z.bits_0.
  - rewrite andb_false_r. destruct (Z.testbit t k).
    + by rewrite Z.pow2_bits_false.
    + by rewrite Z.bits_0.
Qed.

Lemma land_14 (t : Z) :
  Z.land t 14
  = Z.lor (Z.lor (Z.land t 2) (Z.land t 4)) (Z.land t 8).
Proof.
  change 14%Z with (Z.lor (Z.lor 2 4) 8).
  by rewrite !Z.land_lor_distr_r.
Qed.

Section FromString.
Variables (TrimSpace ToLower : string -> string).
Hypothesis TrimSpace_names :
  forall n, n ∈ ["md5"; "sha1"; "sha256"] -> TrimSpace n = n.
Hypothesis ToLower_names :
  forall n, n ∈ ["md5"; "sha1"; "sha256"] -> ToLower n = n.

Lemma FromString_loop_name (n : string) (d : hashDefinition)
      (rest : list string) (acc : Type_) :
  n ∈ ["md5"; "sha1"; "sha256"] -> name2hash n = Some d ->
  FromString_loop TrimSpace ToLower (n :: rest) acc
  = FromString_loop TrimSpace ToLower rest (Z.lor acc (hashType d)).
Proof.
  intros Hn Hd. cbn [FromString_loop].
  rewrite TrimSpace_names, ToLower_names, Hd by done.
  rewrite decide_False; [done|]. intros ->. set_solver.
Qed.

(** X28. [FromString] reads back what [String] writes: for every
    type [t], parsing [t.String()] gives the supported bits of [t] (MD5,
    SHA1, SHA256), dropping any other bit; "none" gives 0. *)
Theorem FromString_String (t : Type_) :
  FromString TrimSpace ToLower (String_ t) = inl (Z.land t 14).
Proof.
  rewrite land_14. unfold String_, supported, MD5, SHA1, SHA256.
  cbn [omap list_omap].
  rewrite (land_pow2 t 1 ltac:(lia) : Z.land t 2 = _).
  rewrite (land_pow2 t 2 ltac:(lia) : Z.land t 4 = _).
  rewrite (land_pow2 t 3 ltac:(lia) : Z.land t 8 = _).
  change (2 ^ 1)%Z with 2%Z. change (2 ^ 2)%Z with 4%Z.
  change (2 ^ 3)%Z with 8%Z.
  destruct (Z.testbit t 1), (Z.testbit t 2), (Z.testbit t 3);
    cbn -[FromString]; unfold FromString;
    first [rewrite decide_True by (by right)
          |rewrite decide_False by (by intros [?|?])];
    try match goal with
        | |- context [Strings.SplitByte ?s ?c] =>
            let v := eval vm_compute in (Strings.SplitByte s c) in
            change (Strings.SplitByte s c) with v
        end;
    repeat (erewrite FromString_loop_name;
            [|set_solver|reflexivity]);
    reflexivity.
Qed.

End FromString.
Lemma FromString_String_witness :
  FromString id id (String_ 6%Z) = inl 6%Z.
Proof.
  exact (FromString_String id id (fun _ _ => eq_refl) (fun _ _ => eq_refl) 6%Z).
Defined.

End HashFacts.

(** * Splitting and joining remote paths *)
Module PathHelperFacts.
Import Strings drive PathFacts DriveFacts.

Lemma substring_all (s : string) : String.substring 0 (String.length s) s = s.
Proof. induction s as [|a s IH]; [done|]. cbn. by rewrite IH. Qed.

Lemma substring_0_nil (s : string) : String.substring 0 0 s = "".
Proof. by destruct s. Qed.

Lemma substring_drop_app (a b : string) (n : nat) :
  String.substring (String.length a) n (a +:+ b) = String.substring 0 n b.
Proof. induction a as [|c a IH]; [done|]. exact IH. Qed.

Lemma prefix_app (a b : string) : String.prefix a (a +:+ b) = true.
Proof.
  induction a as [|c a IH]; [by destruct b|].
  change (String.prefix (String c a) (String c (a +:+ b)) = true).
  cbn [String.prefix]. by destruct (ascii_dec c c).
Qed.

Lemma LastIndexByte_range (s : string) (c : ascii) :
  (-1 <= LastIndexByte s c < len s)%Z.
Proof.
  unfold len. induction s as [|a s IH]; [cbn; lia|].
  cbn [LastIndexByte String.length].
  destruct (Z.geb_spec (LastIndexByte s c) 0); [lia|].
  destruct (Ascii.eqb a c); lia.
Qed.

Lemma LastIndexByte_cut (s : string) (c : ascii) :
  (0 <= LastIndexByte s c)%Z ->
  slice s 0 (LastIndexByte s c)
  +:+ String c (slice s (LastIndexByte s c + 1) (len s)) = s.
Proof.
  unfold slice, len. change (Z.to_nat 0) with 0%nat.
  induction s as [|a s IH]; [cbn; lia|].
  cbn [LastIndexByte String.length].
  pose proof (LastIndexByte_range s c) as Hr. unfold len in Hr.
  destruct (Z.geb_spec (LastIndexByte s c) 0) as [Hge|Hlt].
  - intros _. specialize (IH Hge).
    replace (Z.to_nat (LastIndexByte s c + 1 - 0))
      with (S (Z.to_nat (LastIndexByte s c - 0))) by lia.
    replace (Z.to_nat (LastIndexByte s c + 1 + 1))
      with (S (Z.to_nat (LastIndexByte s c + 1))) by lia.
    replace (Z.to_nat (Z.of_nat (S (String.length s))
                       - (LastIndexByte s c + 1 + 1)))
      with (Z.to_nat (Z.of_nat (String.length s)
                      - (LastIndexByte s c + 1))) by lia.
    cbn [String.substring].
    change (String a (String.substring 0 (Z.to_nat (LastIndexByte s c - 0)) s
                      +:+ String c
                            (String.substring
                               (Z.to_nat (LastIndexByte s c + 1))
                               (Z.to_nat (Z.of_nat (String.length s)
                                          - (LastIndexByte s c + 1))) s))
            = String a s).
    by rewrite IH.
  - destruct (Ascii.eqb_spec a c) as [->|]; [|lia]. intros _.
    replace (Z.to_nat (Z.of_nat (S (String.length s)) - (0 + 1)))
      with (String.length s) by lia.
    change (Z.to_nat (0 - 0)) with 0%nat.
    change (Z.to_nat (0 + 1)) with 1%nat.
    rewrite substring_0_nil. cbn [String.substring append].
    by rewrite substring_all.
Qed.

Lemma Trim_head (p : string) (a : ascii) (r : string) :
  Trim p "/" = String a r -> a ≠ "/"%char.
Proof.
  unfold Trim.
  assert (Hleft : TrimLeft p "/" = ""
                  ∨ exists b q, TrimLeft p "/" = String b q
                                ∧ in_chars b "/" = false).
  { induction p as [|b q IH]; [by left|]. cbn [TrimLeft].
    destruct (in_chars b "/") eqn:Hb; [done|]. right. by exists b, q. }
  destruct Hleft as [->|(b & q & -> & Hb)]; [done|].
  cbn [TrimRight]. rewrite Hb. cbn [andb]. intros [= <- _] ->. done.
Qed.

(** X29. [joinPath] undoes [splitPath] up to the slashes trimmed:
    joining the directory and leaf of [p] gives [p] without its leading
    and trailing "/". *)
Theorem joinPath_splitPath (p : string) :
  joinPath (splitPath p).1 (splitPath p).2 = Trim p "/".
Proof.
  unfold splitPath.
  pose proof (LastIndexByte_range (Trim p "/") "/") as Hr.
  destruct (Z.geb_spec (LastIndexByte (Trim p "/") "/") 0) as [Hge|Hlt];
    [|done].
  cbn [fst snd]. unfold joinPath.
  pose proof (LastIndexByte_cut (Trim p "/") "/" Hge) as Hcut.
  case_decide as Hdir; [|exact Hcut].
  exfalso. rewrite Hdir in Hcut. cbn in Hcut.
  symmetry in Hcut. by apply Trim_head in Hcut.
Qed.

(** X30. [getRelativePath] undoes [joinPath]: the path of [leaf]
    under [root], made relative to [root], is [leaf] (for an empty root,
    when [leaf] does not start with "/"). *)
Theorem getRelativePath_joinPath (root leaf : string) :
  (root = "" -> HasPrefix leaf "/" = false) ->
  getRelativePath root (joinPath root leaf) = leaf.
Proof.
  intros Hleaf. unfold getRelativePath, joinPath. case_decide as Hroot.
  - subst root. specialize (Hleaf eq_refl).
    assert (HasPrefix leaf "" = true) as -> by by destruct leaf.
    unfold slice, len. cbn [String.length].
    replace (Z.to_nat (Z.of_nat (String.length leaf) - Z.of_nat 0))
      with (String.length leaf) by lia.
    change (Z.to_nat (Z.of_nat 0)) with 0%nat. rewrite substring_all.
    unfold TrimPrefix. by rewrite Hleaf.
  - unfold HasPrefix at 1. rewrite prefix_app.
    unfold slice at 1, len.
    rewrite Nat2Z.id, substring_drop_app, length_append.
    replace (Z.to_nat (Z.of_nat (String.length root
                                 + String.length ("/" +:+ leaf))
                       - Z.of_nat (String.length root)))
      with (String.length ("/" +:+ leaf)) by lia.
    rewrite substring_all.
    unfold TrimPrefix, HasPrefix, slice, len.
    rewrite (prefix_app "/" leaf), Nat2Z.id.
    change ("/" +:+ leaf) with (String "/" leaf).
    cbn [String.length String.substring].
    replace (Z.to_nat (Z.of_nat (S (String.length leaf)) - Z.of_nat 1))
      with (String.length leaf) by lia.
    apply substring_all.
Qed.

Lemma getRelativePath_joinPath_witness :
  getRelativePath "docs" (joinPath "docs" "/a.txt") = "/a.txt"
  ∧ getRelativePath "" (joinPath "" "a.txt") = "a.txt".
Proof.
  split.
  - apply getRelativePath_joinPath. discriminate.
  - apply getRelativePath_joinPath. reflexivity.
Defined.

End PathHelperFacts.
